(** * Memory-mapping engine of the recovery (minzip SysUtil)

    A shallow embedding of [getFileStartAndLength], [sysMapFD],
    [sysMapBlockFile], [sysMapFile] and [sysReleaseMap], over an explicit
    model of the operating-system state they act on: the descriptor table,
    the address space, the C heap holding the range arrays, and the trace of
    calls issued.

    Integer model (LP64, the arm64 target of this device tree): [size_t] is
    64 bits, [unsigned int] 32 bits, [loff_t]/[off64_t] signed 64 bits.
    Every wrap-around of the source is written out with [to_size_t]. *)

From Stdlib Require Import ZArith Lia Ascii.
From stdpp Require Import base gmap strings list fin_maps.

Open Scope Z_scope.

(** ** Machine integers *)

Definition SIZE_MAX : Z := 2 ^ 64 - 1.
Definition LOFF_MAX : Z := 2 ^ 63 - 1.
Definition PATH_MAX : Z := 4096.

(** [(void* )-1], as an address. *)
Definition MAP_FAILED : Z := 2 ^ 64 - 1.

Definition to_size_t (z : Z) : Z := z mod 2 ^ 64.

(** [(off64_t) z]: two's complement reading of the low 64 bits. The
    product of line 176 is reduced the same way (its overflow is undefined
    in C). *)
Definition to_off64 (z : Z) : Z := (z + 2 ^ 63) mod 2 ^ 64 - 2 ^ 63.

(** Conversion of an [int] to [bool] ([_Bool], <stdbool.h>): any value that
    compares unequal to 0 becomes [true]. *)
Definition bool_of_int (z : Z) : bool := negb (z =? 0).

(** ** Data model *)

(** Modelled from the spec: the declarations of [MappedRange] and
    [MemMapping] (SysUtil.h) are not part of the sources; the fields are the
    ones the code assigns. [mm_ranges] is a pointer into the heap, 0 being
    [NULL]; [mm_range_count] holds the count as it is assigned. *)
Record MappedRange := mkRange { mr_addr : Z; mr_length : Z }.

Record MemMapping := mkMap {
  mm_addr : Z;
  mm_length : Z;
  mm_range_count : Z;
  mm_ranges : Z
}.

Definition zeroed : MemMapping := mkMap 0 0 0 0.

(** ** The operating-system state *)

Inductive Inode :=
| RegularFile (data : string)
| BlockDevice (size : Z)
| Fifo.

Definition node_size (n : Inode) : option Z :=
  match n with
  | RegularFile data => Some (Z.of_nat (String.length data))
  | BlockDevice size => Some size
  | Fifo => None
  end.

Definition node_text (n : Inode) : string :=
  match n with
  | RegularFile data => data
  | _ => EmptyString
  end.

Record OpenFile := mkOpen { of_node : Inode; of_pos : Z }.

Inductive Prot := PROT_NONE | PROT_READ.

Inductive MapFlag := MAP_PRIVATE | MAP_ANON | MAP_FIXED.

Definition flag_eqb (a b : MapFlag) : bool :=
  match a, b with
  | MAP_PRIVATE, MAP_PRIVATE | MAP_ANON, MAP_ANON | MAP_FIXED, MAP_FIXED => true
  | _, _ => false
  end.

Definition has_flag (f : MapFlag) (fl : list MapFlag) : bool :=
  existsb (flag_eqb f) fl.

(** One live mapping; [rg_off] is the file offset backing it ([None] for an
    anonymous mapping). Lengths are kept in bytes, as passed. *)
Record Region := mkRegion {
  rg_addr : Z;
  rg_len : Z;
  rg_prot : Prot;
  rg_off : option Z
}.

Inductive Whence := SEEK_SET | SEEK_CUR | SEEK_END.

Inductive LogMsg :=
| LogLengthUnknown
| LogFileEmpty
| LogMmapFailed (length fd : Z)
| LogMallocFailed
| LogReadBlockDevFailed
| LogParseHeaderFailed
| LogInvalidHeader (size blksize range_count : Z)
| LogCallocFailed (range_count : Z)
| LogReserveFailed
| LogOpenBlockDevFailed (block_dev : string)
| LogParseRangeFailed (i : Z)
| LogUnexpectedRange (start end_ : Z)
| LogMapBlockFailed (i : Z)
| LogRangesInvalid (remaining_size : Z)
| LogMmappedRanges (range_count : Z)
| LogUnableToOpen (fn : option string)
| LogMapOfFailed (fn : option string)
| LogMunmapFailed (addr length : Z).

(** The two formats the source scans with: ["%zu %u\n%u\n"] for the header
    and ["%zu %zu\n"] for an extent. *)
Inductive Format := FmtHeader | FmtRange.

Inductive Event :=
| EvOpen (path : option string) (ret : Z)
| EvClose (fd : Z)
| EvLseek (fd off : Z) (whence : Whence) (ret : Z)
| EvMmap (addr len : Z) (prot : Prot) (flags : list MapFlag) (fd off ret : Z)
| EvMunmap (addr len ret : Z)
| EvMalloc (count ret : Z)
| EvCalloc (count ret : Z)
| EvFree (p : Z)
| EvFopen (path : string) (ret : option Z)
| EvFclose (f : Z)
| EvFgets (f : Z) (ret : option string)
| EvFscanf (f : Z) (fmt : Format) (ret : Z) (vals : list Z)
| EvLog (m : LogMsg).

(** The kernel's and the allocator's free choices are read from two scripts:
    an entry [Some a] proposes the address [a] (for a fixed mapping it only
    says that the call succeeds), [None] or an exhausted script is a
    failure. *)
Record World := mkWorld {
  os_files : gmap string Inode;
  os_fds : gmap Z OpenFile;
  os_vm : list Region;
  os_heap : gmap Z (list MappedRange);
  os_mmap_script : list (option Z);
  os_malloc_script : list (option Z);
  os_trace : list Event
}.

Definition emit (e : Event) (w : World) : World :=
  mkWorld (os_files w) (os_fds w) (os_vm w) (os_heap w)
          (os_mmap_script w) (os_malloc_script w) (os_trace w ++ [e]).

Definition upd_fds (f : gmap Z OpenFile → gmap Z OpenFile) (w : World) : World :=
  mkWorld (os_files w) (f (os_fds w)) (os_vm w) (os_heap w)
          (os_mmap_script w) (os_malloc_script w) (os_trace w).

Definition upd_vm (f : list Region → list Region) (w : World) : World :=
  mkWorld (os_files w) (os_fds w) (f (os_vm w)) (os_heap w)
          (os_mmap_script w) (os_malloc_script w) (os_trace w).

Definition upd_heap (f : gmap Z (list MappedRange) → gmap Z (list MappedRange))
    (w : World) : World :=
  mkWorld (os_files w) (os_fds w) (os_vm w) (f (os_heap w))
          (os_mmap_script w) (os_malloc_script w) (os_trace w).

Definition next_mmap (w : World) : World :=
  mkWorld (os_files w) (os_fds w) (os_vm w) (os_heap w)
          (tail (os_mmap_script w)) (os_malloc_script w) (os_trace w).

Definition next_malloc (w : World) : World :=
  mkWorld (os_files w) (os_fds w) (os_vm w) (os_heap w)
          (os_mmap_script w) (tail (os_malloc_script w)) (os_trace w).

(** ** The monad of the embedding: state, and a crash for undefined
    behaviour (a read through [NULL] or a dangling pointer, a bad [free],
    a call on a stream that is not open). *)

Inductive Fault := NullDeref | Dangling | OutOfBounds | BadFree | BadStream.

Inductive Res (A : Type) :=
| Ok (a : A) (w : World)
| Crash (f : Fault).
Arguments Ok {A} a w.
Arguments Crash {A} f.

Definition M (A : Type) : Type := World → Res A.

Definition ret {A} (a : A) : M A := λ w, Ok a w.

Definition bind {A B} (m : M A) (k : A → M B) : M B :=
  λ w, match m w with
       | Ok a w' => k a w'
       | Crash f => Crash f
       end.

Notation "x <- m ;; k" := (bind m (λ x, k))
  (at level 100, m at next level, right associativity).
Notation "m ;; k" := (bind m (λ _, k))
  (at level 100, right associativity).

Definition LOG (m : LogMsg) : M unit := λ w, Ok tt (emit (EvLog m) w).

(** ** System calls *)

(** A descriptor number not in use (and not negative). *)
Definition fresh_fd (fds : gmap Z OpenFile) : Z :=
  map_fold (λ k _ acc, Z.max acc (k + 1)) 0 fds.

(** [open(path, O_RDONLY)], the only mode the source opens with; [None] is
    a NULL path. *)
Definition open (path : option string) : M Z := λ w,
  match path ≫= (λ p, os_files w !! p) with
  | Some node =>
      let fd := fresh_fd (os_fds w) in
      Ok fd (emit (EvOpen path fd) (upd_fds (insert fd (mkOpen node 0)) w))
  | None => Ok (-1) (emit (EvOpen path (-1)) w)
  end.

Definition close (fd : Z) : M unit := λ w,
  Ok tt (emit (EvClose fd) (upd_fds (delete fd) w)).

(** [lseek64]: -1 on a descriptor that is not open (EBADF) or not seekable
    (ESPIPE), and when the resulting offset is negative or does not fit
    [loff_t] (EINVAL, EOVERFLOW). *)
Definition lseek64 (fd off : Z) (whence : Whence) : M Z := λ w,
  let fail := Ok (-1) (emit (EvLseek fd off whence (-1)) w) in
  match os_fds w !! fd with
  | Some f =>
      match node_size (of_node f) with
      | Some size =>
          let pos := match whence with
                     | SEEK_SET => off
                     | SEEK_CUR => of_pos f + off
                     | SEEK_END => size + off
                     end in
          if (0 <=? pos) && (pos <=? LOFF_MAX) then
            Ok pos (emit (EvLseek fd off whence pos)
                         (upd_fds (insert fd (mkOpen (of_node f) pos)) w))
          else fail
      | None => fail
      end
  | None => fail
  end.

(** *** The address space *)

Definition apart (a l : Z) (r : Region) : bool :=
  (rg_addr r + rg_len r <=? a) || (a + l <=? rg_addr r).

Definition is_free (a l : Z) (vm : list Region) : bool :=
  forallb (apart a l) vm.

(** What is left of [r] once [a, a+l) is unmapped. *)
Definition cut (a l : Z) (r : Region) : list Region :=
  if apart a l r then [r]
  else
    (if rg_addr r <? a
     then [mkRegion (rg_addr r) (a - rg_addr r) (rg_prot r) (rg_off r)]
     else []) ++
    (if a + l <? rg_addr r + rg_len r
     then [mkRegion (a + l) (rg_addr r + rg_len r - (a + l)) (rg_prot r)
                    ((λ o, o + (a + l - rg_addr r)) <$> rg_off r)]
     else []).

Definition unmap_range (a l : Z) (vm : list Region) : list Region :=
  vm ≫= cut a l.

(** [mmap]/[mmap64]. With [MAP_FIXED] the mapping lands at [addr] and
    replaces whatever was mapped there; otherwise the kernel's proposal is
    taken only where the address range is free. *)
Definition mmap (addr len : Z) (prot : Prot) (flags : list MapFlag)
    (fd off : Z) : M Z := λ w,
  let fail := Ok MAP_FAILED
                 (emit (EvMmap addr len prot flags fd off MAP_FAILED)
                       (next_mmap w)) in
  match os_mmap_script w with
  | Some a :: _ =>
      let fixed := has_flag MAP_FIXED flags in
      let place := if fixed then addr else a in
      if (0 <? len) && (0 <? place) && (place + len <=? MAP_FAILED)
         && (fixed || is_free place len (os_vm w)) then
        let backing := if has_flag MAP_ANON flags then None else Some off in
        let r := mkRegion place len prot backing in
        Ok place
           (emit (EvMmap addr len prot flags fd off place)
                 (upd_vm (λ vm, r :: (if fixed then unmap_range place len vm
                                      else vm))
                         (next_mmap w)))
      else fail
  | _ => fail
  end.

(** [munmap]: a length of 0 is EINVAL. *)
Definition munmap (addr len : Z) : M Z := λ w,
  if 0 <? len then
    Ok 0 (emit (EvMunmap addr len 0) (upd_vm (unmap_range addr len) w))
  else Ok (-1) (emit (EvMunmap addr len (-1)) w).

(** *** The heap of range arrays *)

(** An array of [count] ranges; [malloc] leaves its cells indeterminate in
    C (the code stores before it reads), here they start zeroed as with
    [calloc]. The allocator's proposal is taken only when it is not [NULL]
    and not a live block. *)
Definition alloc_ranges (ev : Z → Z → Event) (count : Z) : M Z := λ w,
  let fail := Ok 0 (emit (ev count 0) (next_malloc w)) in
  match os_malloc_script w with
  | Some p :: _ =>
      match os_heap w !! p with
      | None =>
          if 0 <? p then
            Ok p (emit (ev count p)
                       (upd_heap (insert p (replicate (Z.to_nat count)
                                                      (mkRange 0 0)))
                                 (next_malloc w)))
          else fail
      | Some _ => fail
      end
  | _ => fail
  end.

Definition malloc_ranges : Z → M Z := alloc_ranges EvMalloc.
Definition calloc_ranges : Z → M Z := alloc_ranges EvCalloc.

Definition free (p : Z) : M unit := λ w,
  if p =? 0 then Ok tt (emit (EvFree p) w)
  else match os_heap w !! p with
       | Some _ => Ok tt (emit (EvFree p) (upd_heap (delete p) w))
       | None => Crash BadFree
       end.

(** [p[i]] as an rvalue. *)
Definition load_range (p i : Z) : M MappedRange := λ w,
  if p =? 0 then Crash NullDeref
  else match os_heap w !! p with
       | None => Crash Dangling
       | Some arr =>
           if i <? 0 then Crash OutOfBounds
           else match arr !! Z.to_nat i with
                | Some r => Ok r w
                | None => Crash OutOfBounds
                end
       end.

(** [p[i] = r]. *)
Definition store_range (p i : Z) (r : MappedRange) : M unit := λ w,
  if p =? 0 then Crash NullDeref
  else match os_heap w !! p with
       | None => Crash Dangling
       | Some arr =>
           if (0 <=? i) && (i <? Z.of_nat (length arr)) then
             Ok tt (upd_heap (insert p (<[Z.to_nat i := r]> arr)) w)
           else Crash OutOfBounds
       end.

(** *** Buffered streams (stdio)

    A [FILE*] is represented by the descriptor under it; the position of the
    stream is the position of that descriptor. *)

Definition newline : ascii := "010"%char.
Definition NUL : ascii := "000"%char.

Fixpoint drop_str (n : nat) (s : string) : string :=
  match n, s with
  | S n', String _ t => drop_str n' t
  | _, _ => s
  end.

Definition unread (f : OpenFile) : string :=
  drop_str (Z.to_nat (of_pos f)) (node_text (of_node f)).

Definition advance (f : OpenFile) (rest : string) : OpenFile :=
  mkOpen (of_node f)
         (of_pos f + Z.of_nat (String.length (unread f) - String.length rest)).

(** At most [k] characters, through the first newline. *)
Fixpoint take_line (k : nat) (s : string) : string * string :=
  match k, s with
  | S k', String c t =>
      if Ascii.eqb c newline then (String c EmptyString, t)
      else let '(l, r) := take_line k' t in (String c l, r)
  | _, _ => (EmptyString, s)
  end.

Definition fopen (path : string) : M (option Z) := λ w,
  match os_files w !! path with
  | Some node =>
      let fd := fresh_fd (os_fds w) in
      Ok (Some fd)
         (emit (EvFopen path (Some fd))
               (upd_fds (insert fd (mkOpen node 0)) w))
  | None => Ok None (emit (EvFopen path None) w)
  end.

Definition fclose (f : Z) : M unit := λ w,
  match os_fds w !! f with
  | Some _ => Ok tt (emit (EvFclose f) (upd_fds (delete f) w))
  | None => Crash BadStream
  end.

(** [fgets(buf, size, f)]: [None] is the [NULL] of end-of-file. *)
Definition fgets (size : Z) (f : Z) : M (option string) := λ w,
  match os_fds w !! f with
  | Some o =>
      match unread o with
      | EmptyString => Ok None (emit (EvFgets f None) w)
      | s =>
          let '(line, rest) := take_line (Z.to_nat (size - 1)) s in
          Ok (Some line)
             (emit (EvFgets f (Some line))
                   (upd_fds (insert f (advance o rest)) w))
      end
  | None => Crash BadStream
  end.

Definition is_space (c : ascii) : bool :=
  let n := Z.of_nat (nat_of_ascii c) in
  (n =? 32) || ((9 <=? n) && (n <=? 13)).

Definition digit_of (c : ascii) : option Z :=
  let n := Z.of_nat (nat_of_ascii c) in
  if (48 <=? n) && (n <=? 57) then Some (n - 48) else None.

Fixpoint skip_space (s : string) : string :=
  match s with
  | String c t => if is_space c then skip_space t else s
  | EmptyString => s
  end.

Fixpoint scan_digits (s : string) (acc : Z) : Z * string :=
  match s with
  | String c t =>
      match digit_of c with
      | Some d => scan_digits t (10 * acc + d)
      | None => (acc, s)
      end
  | EmptyString => (acc, s)
  end.

(** One unsigned decimal conversion ([%u], [%zu]) into a type of [bits]
    bits: leading white space, an optional sign, at least one digit. A
    numeral outside the type's range is reduced modulo [2^bits] (C leaves
    that case undefined). *)
Definition scan_unsigned (bits : Z) (s : string) : option (Z * string) :=
  let s0 := skip_space s in
  let '(neg, s1) := match s0 with
                    | String "-" t => (true, t)
                    | String "+" t => (false, t)
                    | _ => (false, s0)
                    end in
  match s1 with
  | String c _ =>
      match digit_of c with
      | Some _ =>
          let '(v, rest) := scan_digits s1 0 in
          Some ((if neg : bool then - v else v) mod 2 ^ bits, rest)
      | None => None
      end
  | EmptyString => None
  end.

(** The conversions of a format made of unsigned conversions separated by
    white space and ended by white space: the values converted before the
    first failure, and the unread rest. *)
Fixpoint scan_fields (widths : list Z) (s : string) : list Z * string :=
  match widths with
  | [] => ([], skip_space s)
  | b :: bs =>
      match scan_unsigned b s with
      | Some (v, rest) =>
          let '(vs, r) := scan_fields bs rest in (v :: vs, r)
      | None => ([], skip_space s)
      end
  end.

(** The widths in bits of the conversions of a format. *)
Definition widths (fmt : Format) : list Z :=
  match fmt with
  | FmtHeader => [64; 32; 32]
  | FmtRange => [64; 64]
  end.

(** [fscanf(f, fmt, ...)]: the number of conversions made, or [EOF] when
    the input ends before the first one. *)
Definition fscanf (f : Z) (fmt : Format) : M (Z * list Z) := λ w,
  match os_fds w !! f with
  | Some o =>
      let '(vals, rest) := scan_fields (widths fmt) (unread o) in
      let n := match vals, rest with
               | [], EmptyString => -1
               | _, _ => Z.of_nat (length vals)
               end in
      Ok (n, vals)
         (emit (EvFscanf f fmt n vals) (upd_fds (insert f (advance o rest)) w))
  | None => Crash BadStream
  end.

(** The string a [char] buffer holds: up to the first NUL. *)
Fixpoint c_str (s : string) : string :=
  match s with
  | String c t => if Ascii.eqb c NUL then EmptyString else String c (c_str t)
  | EmptyString => EmptyString
  end.

(** The loop of [sysMapBlockFile] that replaces the first newline of the
    buffer by NUL. *)
Fixpoint strip_newline (s : string) : string :=
  match s with
  | String c t =>
      if Ascii.eqb c newline then String NUL t else String c (strip_newline t)
  | EmptyString => EmptyString
  end.

(** ** The functions of SysUtil.c *)

(** [None] is the return value -1; [Some (start, length)] is the return
    value 0 with the two outputs. *)
Definition getFileStartAndLength (fd : Z) : M (option (Z * Z)) :=
  start <- lseek64 fd 0 SEEK_CUR ;;
  end_ <- lseek64 fd 0 SEEK_END ;;
  r <- lseek64 fd start SEEK_SET ;;
  if (r =? -1) || (start =? -1) || (end_ =? -1) then
    LOG LogLengthUnknown ;; ret None
  else
    let length := to_size_t (end_ - start) in
    if length =? 0 then
      LOG LogFileEmpty ;; ret None
    else ret (Some (start, length)).

Definition sysMapFD (fd : Z) (pMap : MemMapping) : M (bool * MemMapping) :=
  r <- getFileStartAndLength fd ;;
  match r with
  | None => ret (bool_of_int (-1), pMap)
  | Some (start, length) =>
      memPtr <- mmap 0 length PROT_READ [MAP_PRIVATE] fd start ;;
      if memPtr =? MAP_FAILED then
        LOG (LogMmapFailed length fd) ;; ret (false, pMap)
      else
        let pMap := mkMap memPtr length 1 (mm_ranges pMap) in
        p <- malloc_ranges 1 ;;
        let pMap := mkMap (mm_addr pMap) (mm_length pMap)
                          (mm_range_count pMap) p in
        if p =? 0 then
          LOG LogMallocFailed ;;
          munmap memPtr length ;;
          ret (false, pMap)
        else
          store_range p 0 (mkRange memPtr length) ;;
          ret (true, pMap)
  end.

(** The per-extent test of the walk (line 170). *)
Definition bad_range (start end_ blksize remaining_size : Z) : bool :=
  let length := to_size_t (to_size_t (end_ - start) * blksize) in
  (end_ <=? start) || (to_size_t (end_ - start) >? SIZE_MAX / blksize)
  || (length >? remaining_size).

(** The [for] loop of [sysMapBlockFile], [n] iterations to go: returns
    [success] and [remaining_size]. *)
Fixpoint map_ranges (n : nat) (mapf fd blksize ranges : Z)
    (i next remaining_size : Z) : M (bool * Z) :=
  match n with
  | O => ret (true, remaining_size)
  | S n' =>
      sc <- fscanf mapf FmtRange ;;
      if negb (fst sc =? 2) then
        LOG (LogParseRangeFailed i) ;; ret (false, remaining_size)
      else
        let start := nth 0 (snd sc) 0 in
        let end_ := nth 1 (snd sc) 0 in
        let length := to_size_t (to_size_t (end_ - start) * blksize) in
        if bad_range start end_ blksize remaining_size then
          LOG (LogUnexpectedRange start end_) ;; ret (false, remaining_size)
        else
          addr <- mmap next (to_size_t (to_size_t (end_ - start) * blksize))
                       PROT_READ [MAP_PRIVATE; MAP_FIXED] fd
                       (to_off64 (to_off64 start * blksize)) ;;
          if addr =? MAP_FAILED then
            LOG (LogMapBlockFailed i) ;; ret (false, remaining_size)
          else
            store_range ranges i (mkRange addr length) ;;
            map_ranges n' mapf fd blksize ranges
                       (i + 1) (next + length) (remaining_size - length)
  end.

Definition sysMapBlockFile (mapf : Z) (pMap : MemMapping)
    : M (Z * MemMapping) :=
  line <- fgets (PATH_MAX + 1) mapf ;;
  match line with
  | None => LOG LogReadBlockDevFailed ;; ret (-1, pMap)
  | Some buf =>
      let block_dev := c_str (strip_newline buf) in
      sc <- fscanf mapf FmtHeader ;;
      if negb (fst sc =? 3) then
        LOG LogParseHeaderFailed ;; ret (-1, pMap)
      else
        let size := nth 0 (snd sc) 0 in
        let blksize := nth 1 (snd sc) 0 in
        let range_count := nth 2 (snd sc) 0 in
        (* [blocks] is left unset when [blksize] is 0, and then not read *)
        let blocks := if negb (blksize =? 0)
                      then to_size_t (to_size_t (size - 1) / blksize + 1)
                      else 0 in
        if (size =? 0) || (blksize =? 0) || (blocks >? SIZE_MAX / blksize)
           || (range_count =? 0) then
          LOG (LogInvalidHeader size blksize range_count) ;; ret (-1, pMap)
        else
          let pMap := mkMap (mm_addr pMap) (mm_length pMap) range_count
                            (mm_ranges pMap) in
          p <- calloc_ranges range_count ;;
          let pMap := mkMap (mm_addr pMap) (mm_length pMap)
                            (mm_range_count pMap) p in
          if p =? 0 then
            LOG (LogCallocFailed range_count) ;; ret (-1, pMap)
          else
            reserve <- mmap 0 (to_size_t (blocks * blksize)) PROT_NONE
                            [MAP_PRIVATE; MAP_ANON] (-1) 0 ;;
            if reserve =? MAP_FAILED then
              LOG LogReserveFailed ;;
              free (mm_ranges pMap) ;;
              ret (-1, pMap)
            else
              fd <- open (Some block_dev) ;;
              if fd <? 0 then
                LOG (LogOpenBlockDevFailed block_dev) ;;
                munmap reserve (to_size_t (blocks * blksize)) ;;
                free (mm_ranges pMap) ;;
                ret (-1, pMap)
              else
                lp <- map_ranges (Z.to_nat range_count) mapf fd blksize
                                 (mm_ranges pMap) 0 reserve
                                 (to_size_t (blocks * blksize)) ;;
                let remaining_size := snd lp in
                success <- (if fst lp && negb (remaining_size =? 0) then
                              LOG (LogRangesInvalid remaining_size) ;;
                              ret false
                            else ret (fst lp)) ;;
                if negb success then
                  close fd ;;
                  munmap reserve (to_size_t (blocks * blksize)) ;;
                  free (mm_ranges pMap) ;;
                  ret (-1, pMap)
                else
                  close fd ;;
                  let pMap := mkMap reserve size (mm_range_count pMap)
                                    (mm_ranges pMap) in
                  LOG (LogMmappedRanges range_count) ;;
                  ret (0, pMap)
  end.

(** The test [fn && fn[0] == '@'] of [sysMapFile]; when it holds, [fn+1]. *)
Definition block_map_name (fn : option string) : option string :=
  match fn with
  | Some (String c fn1) => if Ascii.eqb c "@" then Some fn1 else None
  | _ => None
  end.

Definition sysMapFile (fn : option string) (pMap : MemMapping)
    : M (Z * MemMapping) :=
  let pMap := zeroed in
  match block_map_name fn with
  | Some fn1 =>
      (* A map of blocks *)
      mapf <- fopen fn1 ;;
      match mapf with
      | None => LOG (LogUnableToOpen (Some fn1)) ;; ret (-1, pMap)
      | Some mapf =>
          r <- sysMapBlockFile mapf pMap ;;
          if negb (fst r =? 0) then
            LOG (LogMapOfFailed fn) ;;
            fclose mapf ;;
            ret (-1, snd r)
          else
            fclose mapf ;;
            ret (0, snd r)
      end
  | None =>
      (* This is a regular file. *)
      fd <- open fn ;;
      if fd =? -1 then
        LOG (LogUnableToOpen fn) ;; ret (-1, pMap)
      else
        r <- sysMapFD fd pMap ;;
        if negb (fst r) then
          LOG (LogMapOfFailed fn) ;;
          close fd ;;
          ret (-1, snd r)
        else
          close fd ;;
          ret (0, snd r)
  end.

(** The loop of [sysReleaseMap], [n] iterations to go. *)
Fixpoint release_ranges (n : nat) (ranges i : Z) : M unit :=
  match n with
  | O => ret tt
  | S n' =>
      r <- load_range ranges i ;;
      rc <- munmap (mr_addr r) (mr_length r) ;;
      (if rc <? 0 then LOG (LogMunmapFailed (mr_addr r) (mr_length r))
       else ret tt) ;;
      release_ranges n' ranges (i + 1)
  end.

Definition sysReleaseMap (pMap : MemMapping) : M MemMapping :=
  release_ranges (Z.to_nat (mm_range_count pMap)) (mm_ranges pMap) 0 ;;
  free (mm_ranges pMap) ;;
  ret (mkMap (mm_addr pMap) (mm_length pMap) 0 0).

(** * The vocabulary of the statements

    Weakest preconditions, the calls a run issues, the outcomes of the
    functions, observations on traces, and the concrete inputs the
    functions are run on. *)

(** [wp m w Q]: from [w], [m] returns (it does not crash) with a result and
    a state satisfying [Q]. *)
Definition wp {A} (m : M A) (w : World) (Q : A → World → Prop) : Prop :=
  match m w with
  | Ok a w' => Q a w'
  | Crash _ => False
  end.

(** [r] is a non-empty region inside [a, a+l). *)
Definition inside (a l : Z) (r : Region) : Prop :=
  a ≤ rg_addr r ∧ rg_addr r + rg_len r ≤ a + l ∧ 0 < rg_len r.

Definition ext_len (blksize : Z) (x : Z * Z) : Z := (x.2 - x.1) * blksize.

Definition bytes (blksize : Z) (exts : list (Z * Z)) : Z :=
  foldr (λ x acc, ext_len blksize x + acc) 0 exts.

(** The ranges of extents placed one after the other from [next]. *)
Fixpoint layout (blksize next : Z) (exts : list (Z * Z)) : list MappedRange :=
  match exts with
  | [] => []
  | x :: t =>
      mkRange next (ext_len blksize x)
      :: layout blksize (next + ext_len blksize x) t
  end.

Definition ext_mmap (fd blksize next : Z) (x : Z * Z) (ret : Z) : Event :=
  EvMmap next (ext_len blksize x) PROT_READ [MAP_PRIVATE; MAP_FIXED] fd
         (to_off64 (to_off64 x.1 * blksize)) ret.

(** The calls of the iterations that placed [exts]. *)
Fixpoint walk_events (mapf fd blksize next : Z) (exts : list (Z * Z))
    : list Event :=
  match exts with
  | [] => []
  | x :: t =>
      EvFscanf mapf FmtRange 2 [x.1; x.2] :: ext_mmap fd blksize next x next
      :: walk_events mapf fd blksize (next + ext_len blksize x) t
  end.

(** How an iteration left the loop early. *)
Inductive Stop :=
| StopParse (n : Z) (vals : list Z)
| StopRange (start end_ : Z)
| StopMap (start end_ : Z).

Definition stop_events (mapf fd blksize i next : Z) (st : option Stop)
    : list Event :=
  match st with
  | None => []
  | Some (StopParse n vals) =>
      [EvFscanf mapf FmtRange n vals; EvLog (LogParseRangeFailed i)]
  | Some (StopRange s e) =>
      [EvFscanf mapf FmtRange 2 [s; e]; EvLog (LogUnexpectedRange s e)]
  | Some (StopMap s e) =>
      [EvFscanf mapf FmtRange 2 [s; e]; ext_mmap fd blksize next (s, e) MAP_FAILED;
       EvLog (LogMapBlockFailed i)]
  end.

Definition good_ext (x : Z * Z) : Prop := 0 ≤ x.1 < x.2 ∧ x.2 < 2 ^ 64.

(** What is known of the iteration that left the loop, [rem] bytes of the
    reservation being left at that point. *)
Definition stop_wf (blksize rem : Z) (st : option Stop) : Prop :=
  match st with
  | None => True
  | Some (StopParse n vals) => n ≠ 2 ∧ n ≤ 2
  | Some (StopRange s e) =>
      bad_range s e blksize rem = true ∧ 0 ≤ s < 2 ^ 64 ∧ 0 ≤ e < 2 ^ 64
  | Some (StopMap s e) =>
      bad_range s e blksize rem = false ∧ 0 ≤ s < 2 ^ 64 ∧ 0 ≤ e < 2 ^ 64
  end.

(** What a run of the loop leaves, for the extents [exts] it placed and
    the way [st] it stopped; the reservation is [reserve, reserve+total),
    [vm0] is the address space outside it. *)
Definition walked (mapf fd blksize p reserve total : Z) (vm0 : list Region)
    (i next rem : Z) (done todo : list MappedRange)
    (w : World) (res : bool * Z) (w' : World) : Prop :=
  ∃ exts st inner' o',
    os_trace w' = os_trace w ++ walk_events mapf fd blksize next exts
                  ++ stop_events mapf fd blksize
                       (i + Z.of_nat (length exts))
                       (next + bytes blksize exts) st
    ∧ res = (match st with None => true | Some _ => false end,
             rem - bytes blksize exts)
    ∧ Forall good_ext exts
    ∧ bytes blksize exts ≤ rem
    ∧ (st = None → length exts = length todo)
    ∧ (st ≠ None → (length exts < length todo)%nat)
    ∧ stop_wf blksize (rem - bytes blksize exts) st
    ∧ os_heap w' = <[p := done ++ layout blksize next exts
                            ++ drop (length exts) todo]> (os_heap w)
    ∧ os_fds w' = <[mapf := o']> (os_fds w)
    ∧ os_vm w' = inner' ++ vm0
    ∧ Forall (inside reserve total) inner'
    ∧ os_files w' = os_files w.

Record Header := mkHeader {
  h_line : string;
  h_size : Z;
  h_blksize : Z;
  h_count : Z
}.

Definition h_dev (h : Header) : string := c_str (strip_newline (h_line h)).

(** [blocks], and the size of the reservation, without wrap-around. *)
Definition h_blocks (h : Header) : Z := (h_size h - 1) / h_blksize h + 1.
Definition h_total (h : Header) : Z := h_blocks h * h_blksize h.

(** The test of line 124. *)
Definition header_rejected (size blksize range_count : Z) : bool :=
  (size =? 0) || (blksize =? 0)
  || ((if negb (blksize =? 0)
       then to_size_t (to_size_t (size - 1) / blksize + 1)
       else 0) >? SIZE_MAX / blksize)
  || (range_count =? 0).

Definition valid_header (h : Header) : Prop :=
  0 < h_size h < 2 ^ 64 ∧ 0 < h_blksize h < 2 ^ 32 ∧ 0 < h_count h < 2 ^ 32
  ∧ h_total h ≤ SIZE_MAX.

Inductive Outcome :=
| ONoLine
| OBadHeader (line : string) (n : Z) (vals : list Z)
| OInvalid (h : Header)
| ONoMemory (h : Header)
| ONoReserve (h : Header) (p : Z)
| ONoDevice (h : Header) (p reserve : Z)
| OWalked (h : Header) (p reserve fd : Z) (exts : list (Z * Z))
          (st : option Stop).

Definition header_events (mapf : Z) (h : Header) : list Event :=
  [EvFgets mapf (Some (h_line h));
   EvFscanf mapf FmtHeader 3 [h_size h; h_blksize h; h_count h]].

Definition reserve_event (h : Header) (ret : Z) : Event :=
  EvMmap 0 (h_total h) PROT_NONE [MAP_PRIVATE; MAP_ANON] (-1) 0 ret.

(** The failure exit of lines 196-200. *)
Definition unwind_events (h : Header) (p reserve fd : Z) : list Event :=
  [EvClose fd; EvMunmap reserve (h_total h) 0; EvFree p].

Definition block_ret (o : Outcome) : Z :=
  match o with
  | OWalked h _ _ _ exts None =>
      if bytes (h_blksize h) exts =? h_total h then 0 else -1
  | _ => -1
  end.

Definition block_events (mapf : Z) (o : Outcome) : list Event :=
  match o with
  | ONoLine => [EvFgets mapf None; EvLog LogReadBlockDevFailed]
  | OBadHeader line n vals =>
      [EvFgets mapf (Some line); EvFscanf mapf FmtHeader n vals;
       EvLog LogParseHeaderFailed]
  | OInvalid h =>
      header_events mapf h
      ++ [EvLog (LogInvalidHeader (h_size h) (h_blksize h) (h_count h))]
  | ONoMemory h =>
      header_events mapf h
      ++ [EvCalloc (h_count h) 0; EvLog (LogCallocFailed (h_count h))]
  | ONoReserve h p =>
      header_events mapf h
      ++ [EvCalloc (h_count h) p; reserve_event h MAP_FAILED;
          EvLog LogReserveFailed; EvFree p]
  | ONoDevice h p reserve =>
      header_events mapf h
      ++ [EvCalloc (h_count h) p; reserve_event h reserve;
          EvOpen (Some (h_dev h)) (-1);
          EvLog (LogOpenBlockDevFailed (h_dev h));
          EvMunmap reserve (h_total h) 0; EvFree p]
  | OWalked h p reserve fd exts st =>
      header_events mapf h
      ++ [EvCalloc (h_count h) p; reserve_event h reserve;
          EvOpen (Some (h_dev h)) fd]
      ++ walk_events mapf fd (h_blksize h) reserve exts
      ++ stop_events mapf fd (h_blksize h) (Z.of_nat (length exts))
                     (reserve + bytes (h_blksize h) exts) st
      ++ match st with
         | Some _ => unwind_events h p reserve fd
         | None =>
             if bytes (h_blksize h) exts =? h_total h
             then [EvClose fd; EvLog (LogMmappedRanges (h_count h))]
             else EvLog (LogRangesInvalid
                           (h_total h - bytes (h_blksize h) exts))
                  :: unwind_events h p reserve fd
         end
  end.

(** The handle as the run leaves it. *)
Definition block_map (pMap : MemMapping) (o : Outcome) : MemMapping :=
  match o with
  | ONoLine | OBadHeader _ _ _ | OInvalid _ => pMap
  | ONoMemory h => mkMap (mm_addr pMap) (mm_length pMap) (h_count h) 0
  | ONoReserve h p | ONoDevice h p _ =>
      mkMap (mm_addr pMap) (mm_length pMap) (h_count h) p
  | OWalked h p reserve _ _ _ =>
      if block_ret o =? 0 then mkMap reserve (h_size h) (h_count h) p
      else mkMap (mm_addr pMap) (mm_length pMap) (h_count h) p
  end.

Definition block_wf (o : Outcome) : Prop :=
  match o with
  | ONoLine => True
  | OBadHeader _ n _ => n ≠ 3
  | OInvalid h =>
      header_rejected (h_size h) (h_blksize h) (h_count h) = true
  | ONoMemory h => valid_header h
  | ONoReserve h p => valid_header h ∧ p ≠ 0
  | ONoDevice h p reserve => valid_header h ∧ p ≠ 0
  | OWalked h p reserve fd exts st =>
      valid_header h ∧ p ≠ 0 ∧ 0 ≤ fd
      ∧ 0 < reserve ∧ reserve + h_total h ≤ MAP_FAILED
      ∧ Forall good_ext exts
      ∧ bytes (h_blksize h) exts ≤ h_total h
      ∧ (st = None → Z.of_nat (length exts) = h_count h)
      ∧ (st ≠ None → Z.of_nat (length exts) < h_count h)
      ∧ stop_wf (h_blksize h) (h_total h - bytes (h_blksize h) exts) st
  end.

(** The range array of a run that returned 0. *)
Definition block_ranges (o : Outcome) : option (Z * list MappedRange) :=
  match o with
  | OWalked h p reserve _ exts _ => Some (p, layout (h_blksize h) reserve exts)
  | _ => None
  end.

Definition block_post (mapf : Z) (pMap : MemMapping) (w : World)
    (res : Z * MemMapping) (w' : World) : Prop :=
  ∃ o o',
    os_trace w' = os_trace w ++ block_events mapf o
    ∧ res = (block_ret o, block_map pMap o)
    ∧ block_wf o
    ∧ os_fds w' = <[mapf := o']> (os_fds w)
    ∧ os_files w' = os_files w
    ∧ (block_ret o ≠ 0 → os_vm w' = os_vm w ∧ os_heap w' = os_heap w)
    ∧ (block_ret o = 0 →
       ∃ p arr, block_ranges o = Some (p, arr)
                ∧ os_heap w !! p = None
                ∧ os_heap w' = <[p := arr]> (os_heap w)).

(** What happened after the three position queries returned [start],
    [end_] and [r]. *)
Inductive FdOutcome :=
| FNoLength
| FEmpty
| FNoMmap
| FNoMemory (memPtr : Z)
| FMapped (memPtr p : Z).

Definition fd_length (start end_ : Z) : Z := to_size_t (end_ - start).

Definition fd_ret (o : FdOutcome) : bool :=
  match o with
  | FNoLength | FEmpty => bool_of_int (-1)
  | FNoMmap | FNoMemory _ => false
  | FMapped _ _ => true
  end.

Definition fd_map (pMap : MemMapping) (start end_ : Z) (o : FdOutcome)
    : MemMapping :=
  match o with
  | FNoLength | FEmpty | FNoMmap => pMap
  | FNoMemory memPtr => mkMap memPtr (fd_length start end_) 1 0
  | FMapped memPtr p => mkMap memPtr (fd_length start end_) 1 p
  end.

Definition fd_mmap (fd start end_ ret : Z) : Event :=
  EvMmap 0 (fd_length start end_) PROT_READ [MAP_PRIVATE] fd start ret.

Definition fd_events (fd start end_ r : Z) (o : FdOutcome) : list Event :=
  [EvLseek fd 0 SEEK_CUR start; EvLseek fd 0 SEEK_END end_;
   EvLseek fd start SEEK_SET r]
  ++ match o with
     | FNoLength => [EvLog LogLengthUnknown]
     | FEmpty => [EvLog LogFileEmpty]
     | FNoMmap =>
         [fd_mmap fd start end_ MAP_FAILED;
          EvLog (LogMmapFailed (fd_length start end_) fd)]
     | FNoMemory memPtr =>
         [fd_mmap fd start end_ memPtr; EvMalloc 1 0; EvLog LogMallocFailed;
          EvMunmap memPtr (fd_length start end_) 0]
     | FMapped memPtr p => [fd_mmap fd start end_ memPtr; EvMalloc 1 p]
     end.

Definition fd_wf (start end_ r : Z) (o : FdOutcome) : Prop :=
  match o with
  | FNoLength => r = -1 ∨ start = -1 ∨ end_ = -1
  | FEmpty => fd_length start end_ = 0
  | FNoMmap | FNoMemory _ => fd_length start end_ ≠ 0
  | FMapped memPtr p => fd_length start end_ ≠ 0 ∧ p ≠ 0
  end.

Definition fd_ranges (start end_ : Z) (o : FdOutcome)
    : option (Z * list MappedRange) :=
  match o with
  | FMapped memPtr p => Some (p, [mkRange memPtr (fd_length start end_)])
  | _ => None
  end.

Definition fd_post (fd : Z) (pMap : MemMapping) (w : World)
    (res : bool * MemMapping) (w' : World) : Prop :=
  ∃ start end_ r o,
    os_trace w' = os_trace w ++ fd_events fd start end_ r o
    ∧ res = (fd_ret o, fd_map pMap start end_ o)
    ∧ fd_wf start end_ r o
    ∧ delete fd (os_fds w') = delete fd (os_fds w)
    ∧ os_files w' = os_files w
    ∧ (∀ f size,
         os_fds w !! fd = Some f → node_size (of_node f) = Some size →
         0 ≤ of_pos f ≤ LOFF_MAX → 0 ≤ size ≤ LOFF_MAX →
         start = of_pos f ∧ end_ = size ∧ r = of_pos f)
    ∧ match fd_ranges start end_ o with
      | Some (p, arr) =>
          os_heap w !! p = None ∧ os_heap w' = <[p := arr]> (os_heap w)
      | None => os_vm w' = os_vm w ∧ os_heap w' = os_heap w
      end.

(** The state after the three position queries of
    [getFileStartAndLength], which returned [start], [end_] and [r]. *)
Definition queried (fd : Z) (w : World) (start end_ r : Z) (w' : World)
    : Prop :=
  os_trace w' = os_trace w ++ [EvLseek fd 0 SEEK_CUR start;
                               EvLseek fd 0 SEEK_END end_;
                               EvLseek fd start SEEK_SET r]
  ∧ delete fd (os_fds w') = delete fd (os_fds w)
  ∧ os_files w' = os_files w ∧ os_vm w' = os_vm w ∧ os_heap w' = os_heap w
  ∧ -1 ≤ start ≤ LOFF_MAX ∧ -1 ≤ end_ ≤ LOFF_MAX ∧ -1 ≤ r
  ∧ (∀ f size,
       os_fds w !! fd = Some f → node_size (of_node f) = Some size →
       0 ≤ of_pos f ≤ LOFF_MAX → 0 ≤ size ≤ LOFF_MAX →
       start = of_pos f ∧ end_ = size ∧ r = of_pos f).

Inductive Run :=
| RNoMapFile (fn1 : string)
| RBlock (fn1 : string) (mapf : Z) (o : Outcome)
| RNoFile
| RDirect (fd start end_ r : Z) (o : FdOutcome).

Definition run_ret (run : Run) : Z :=
  match run with
  | RNoMapFile _ | RNoFile => -1
  | RBlock _ _ o => if negb (block_ret o =? 0) then -1 else 0
  | RDirect _ _ _ _ o => if negb (fd_ret o) then -1 else 0
  end.

Definition run_events (fn : option string) (run : Run) : list Event :=
  match run with
  | RNoMapFile fn1 => [EvFopen fn1 None; EvLog (LogUnableToOpen (Some fn1))]
  | RBlock fn1 mapf o =>
      EvFopen fn1 (Some mapf) :: block_events mapf o
      ++ (if negb (block_ret o =? 0) then [EvLog (LogMapOfFailed fn)] else [])
      ++ [EvFclose mapf]
  | RNoFile => [EvOpen fn (-1); EvLog (LogUnableToOpen fn)]
  | RDirect fd start end_ r o =>
      EvOpen fn fd :: fd_events fd start end_ r o
      ++ (if negb (fd_ret o) then [EvLog (LogMapOfFailed fn)] else [])
      ++ [EvClose fd]
  end.

Definition run_map (run : Run) : MemMapping :=
  match run with
  | RNoMapFile _ | RNoFile => zeroed
  | RBlock _ _ o => block_map zeroed o
  | RDirect _ start end_ _ o => fd_map zeroed start end_ o
  end.

(** The range array of the handle, for a run that built one. *)
Definition run_ranges (run : Run) : option (Z * list MappedRange) :=
  match run with
  | RBlock _ _ o => if block_ret o =? 0 then block_ranges o else None
  | RDirect _ start end_ _ o => fd_ranges start end_ o
  | _ => None
  end.

Definition run_wf (fn : option string) (w : World) (run : Run) : Prop :=
  match run with
  | RNoMapFile fn1 => block_map_name fn = Some fn1 ∧ os_files w !! fn1 = None
  | RBlock fn1 mapf o =>
      block_map_name fn = Some fn1 ∧ is_Some (os_files w !! fn1)
      ∧ os_fds w !! mapf = None ∧ block_wf o
  | RNoFile =>
      block_map_name fn = None ∧ fn ≫= (λ p, os_files w !! p) = None
  | RDirect fd start end_ r o =>
      block_map_name fn = None ∧ os_fds w !! fd = None ∧ 0 ≤ fd
      ∧ fd_wf start end_ r o
      ∧ ∃ node, fn ≫= (λ p, os_files w !! p) = Some node
                ∧ ∀ size, node_size node = Some size → 0 ≤ size ≤ LOFF_MAX →
                          start = 0 ∧ end_ = size ∧ r = 0
  end.

Definition run_post (fn : option string) (w : World)
    (res : Z * MemMapping) (w' : World) : Prop :=
  ∃ run,
    os_trace w' = os_trace w ++ run_events fn run
    ∧ res = (run_ret run, run_map run)
    ∧ run_wf fn w run
    ∧ os_fds w' = os_fds w
    ∧ os_files w' = os_files w
    ∧ match run_ranges run with
      | Some (p, arr) =>
          os_heap w !! p = None ∧ os_heap w' = <[p := arr]> (os_heap w)
      | None => os_vm w' = os_vm w ∧ os_heap w' = os_heap w
      end.

(** The calls of the release loop over the ranges [arr]. *)
Definition release_events (arr : list MappedRange) : list Event :=
  arr ≫= (λ r,
    if 0 <? mr_length r then [EvMunmap (mr_addr r) (mr_length r) 0]
    else [EvMunmap (mr_addr r) (mr_length r) (-1);
          EvLog (LogMunmapFailed (mr_addr r) (mr_length r))]).

(** The range array a handle holds in state [w]. *)
Definition holds (pMap : MemMapping) (w : World) (arr : list MappedRange)
    : Prop :=
  Z.of_nat (length arr) = mm_range_count pMap
  ∧ if mm_ranges pMap =? 0 then arr = []
    else os_heap w !! mm_ranges pMap = Some arr.

(** The handle after [sysReleaseMap]: no ranges, the other fields as they
    were. *)
Definition released (pMap : MemMapping) : MemMapping :=
  mkMap (mm_addr pMap) (mm_length pMap) 0 0.

Definition nl : string := String newline EmptyString.

Definition text_of_lines (lines : list string) : string :=
  foldr (λ l rest, l +:+ nl +:+ rest) EmptyString lines.

(** A file system with an empty file, a four-byte file, a block device and
    a block map of the given text. *)
Definition demo_files (map_text : string) : gmap string Inode :=
  <["/cache/block.map" := RegularFile map_text]>
    (<["/dev/block/sda1" := BlockDevice 4096]>
       (<["/sdcard/ota.zip" := RegularFile "PK34"]>
          (<["/sdcard/empty" := RegularFile ""]> ∅))).

Definition demo_world (map_text : string)
    (mmap_script malloc_script : list (option Z)) : World :=
  mkWorld (demo_files map_text) ∅ [] ∅ mmap_script malloc_script [].

(** The block map of the specification's example: 100 bytes in blocks of
    10, extents [0,5) and [5,10). *)
Definition two_extents : string :=
  text_of_lines ["/dev/block/sda1"; "100 10"; "2"; "0 5"; "5 10"].

(** The error kinds of the specification (section 7), as they correspond to
    the diagnostics of the code. *)
Inductive ErrorKind := ParseError | ValidationError | IOError | ResourceError.

Definition spec_error_kind (m : LogMsg) : option ErrorKind :=
  match m with
  | LogReadBlockDevFailed | LogParseHeaderFailed | LogParseRangeFailed _ =>
      Some ParseError
  | LogInvalidHeader _ _ _ | LogUnexpectedRange _ _ | LogRangesInvalid _ =>
      Some ValidationError
  | LogLengthUnknown | LogFileEmpty | LogMmapFailed _ _ | LogReserveFailed
  | LogOpenBlockDevFailed _ | LogMapBlockFailed _ | LogUnableToOpen _ =>
      Some IOError
  | LogMallocFailed | LogCallocFailed _ => Some ResourceError
  | LogMmappedRanges _ | LogMapOfFailed _ | LogMunmapFailed _ _ => None
  end.

(** The error kinds a trace reports, in order. *)
Definition reported (tr : list Event) : list ErrorKind :=
  omap (λ e, match e with EvLog m => spec_error_kind m | _ => None end) tr.

(** The extents read, in the order of the reads. *)
Definition scanned_extents (tr : list Event) : list (Z * Z) :=
  omap (λ ev, match ev with
              | EvFscanf _ FmtRange n [s; e] =>
                  if n =? 2 then Some (s, e) else None
              | _ => None
              end) tr.

Definition sum_lengths (arr : list MappedRange) : Z :=
  foldr (λ r acc, mr_length r + acc) 0 arr.

Definition padded_map : string :=
  text_of_lines ["/dev/block/sda1"; "95 10"; "1"; "0 10"].

(** The descriptors a trace opens (a descriptor, or the descriptor under a
    stream), and those it closes. *)
Definition opened (tr : list Event) : list Z :=
  omap (λ ev, match ev with
              | EvOpen _ fd => if fd <? 0 then None else Some fd
              | EvFopen _ f => f
              | _ => None
              end) tr.

Definition closed (tr : list Event) : list Z :=
  omap (λ ev, match ev with
              | EvClose fd | EvFclose fd => Some fd
              | _ => None
              end) tr.

(** A block map whose second extent ends before it starts. *)
Definition reversed_extent : string :=
  text_of_lines ["/dev/block/sda1"; "100 10"; "2"; "0 5"; "7 6"].

(** The mappings a trace made with the flag [flag]: the address and the
    length of every [mmap] that carried it and did not fail. *)
Definition mmaps (flag : MapFlag) (tr : list Event) : list (Z * Z) :=
  omap (λ ev, match ev with
              | EvMmap _ len _ flags _ _ ret =>
                  if has_flag flag flags && negb (ret =? MAP_FAILED)
                  then Some (ret, len) else None
              | _ => None
              end) tr.

Definition total_len (l : list (Z * Z)) : Z := foldr (λ x acc, x.2 + acc) 0 l.

(** The bytes of address space a trace reserved, and the bytes it placed
    at fixed addresses. *)
Definition reserved (tr : list Event) : Z := total_len (mmaps MAP_ANON tr).
Definition placed (tr : list Event) : Z := total_len (mmaps MAP_FIXED tr).

(** The calls of a run of the block-map strategy up to the walk. *)
Definition walk_prefix (fn1 : string) (mapf : Z) (h : Header)
    (p reserve fd : Z) : list Event :=
  EvFopen fn1 (Some mapf) :: header_events mapf h
  ++ [EvCalloc (h_count h) p; reserve_event h reserve;
      EvOpen (Some (h_dev h)) fd].

(** A block map that declares two extents and gives one. *)
Definition one_of_two : string :=
  text_of_lines ["/dev/block/sda1"; "100 10"; "2"; "0 5"].

(** The address space after the call [ev], as its arguments and its result
    tell; [None] when no kernel could have answered so from [vm] (a mapping
    placed by the kernel over a live one). *)
Definition apply_event (ev : Event) (vm : list Region) : option (list Region) :=
  match ev with
  | EvMmap _ len prot flags _ off ret =>
      if ret =? MAP_FAILED then Some vm
      else
        let r := mkRegion ret len prot
                          (if has_flag MAP_ANON flags then None else Some off) in
        if has_flag MAP_FIXED flags then Some (r :: unmap_range ret len vm)
        else if is_free ret len vm then Some (r :: vm) else None
  | EvMunmap addr len ret =>
      Some (if ret =? 0 then unmap_range addr len vm else vm)
  | _ => Some vm
  end.

Fixpoint replay (evs : list Event) (vm : list Region) : option (list Region) :=
  match evs with
  | [] => Some vm
  | ev :: t => apply_event ev vm ≫= replay t
  end.

(** [m] changes the address space through the calls of its trace only. *)
Definition tracks {A} (m : M A) : Prop :=
  ∀ w a w', m w = Ok a w' →
    ∃ evs, os_trace w' = os_trace w ++ evs
           ∧ replay evs (os_vm w) = Some (os_vm w').

(** The mappings of the extents placed one after the other from [next]. *)
Fixpoint ext_regions (blksize next : Z) (exts : list (Z * Z)) : list Region :=
  match exts with
  | [] => []
  | x :: t =>
      mkRegion next (ext_len blksize x) PROT_READ
               (Some (to_off64 (to_off64 x.1 * blksize)))
      :: ext_regions blksize (next + ext_len blksize x) t
  end.

(** What is left of a reservation of [l] bytes at [a]. *)
Definition hole (a l : Z) : list Region :=
  if 0 <? l then [mkRegion a l PROT_NONE None] else [].

(** The address space after the ranges [arr] are unmapped in order. *)
Definition unmap_ranges (arr : list MappedRange) (vm : list Region)
    : list Region :=
  foldl (λ vm r, if 0 <? mr_length r
                 then unmap_range (mr_addr r) (mr_length r) vm else vm) vm arr.



(** The state after the three position queries of [getFileStartAndLength]
    on a seekable descriptor at offset [pos] of a node of [size] bytes. *)
Definition after_queries (fd pos size : Z) (w : World) : World :=
  mkWorld (os_files w) (os_fds w) (os_vm w) (os_heap w)
          (os_mmap_script w) (os_malloc_script w)
          (os_trace w ++ [EvLseek fd 0 SEEK_CUR pos; EvLseek fd 0 SEEK_END size;
                          EvLseek fd pos SEEK_SET pos]).

(** The diagnostics of a trace, in order. *)
Definition logs (tr : list Event) : list LogMsg :=
  omap (λ ev, match ev with EvLog m => Some m | _ => None end) tr.

(** The diagnostics that name the cause of a failure. *)
Definition is_cause (m : LogMsg) : bool :=
  match m with
  | LogMmappedRanges _ | LogMapOfFailed _ | LogUnableToOpen _
  | LogMunmapFailed _ _ => false
  | _ => true
  end.

(** A block map that declares three extents for two blocks. *)
Definition crowded_map : string :=
  text_of_lines ["/dev/block/sda1"; "20 10"; "3"; "0 1"; "1 2"; "2 3"].

(** A block map whose header stops after the size. *)
Definition short_header : string := text_of_lines ["/dev/block/sda1"; "100"].

(** The character of a decimal digit. *)
Definition digit_char (d : Z) : ascii := ascii_of_nat (48 + Z.to_nat d).

(** The decimal numeral of [n] in front of [acc], most significant digit
    first; [fuel] bounds the number of digits. *)
Fixpoint dec_digits (fuel : nat) (n : Z) (acc : string) : string :=
  match fuel with
  | O => acc
  | S k =>
      let acc' := String (digit_char (n mod 10)) acc in
      if n <? 10 then acc' else dec_digits k (n / 10) acc'
  end.

(** The decimal numeral of a number below [10^20], as [printf] writes a
    64-bit unsigned value. *)
Definition dec (n : Z) : string := dec_digits 20 n EmptyString.

(** One extent line of a block map: ["start end\n"]. *)
Definition ext_line (x : Z * Z) : string :=
  dec x.1 +:+ " " +:+ dec x.2 +:+ nl.

Definition exts_text (exts : list (Z * Z)) : string :=
  foldr (λ x rest, ext_line x +:+ rest) EmptyString exts.

(** The text of a block map, in the format [sysMapBlockFile] reads: the
    device, the size and the block size, the number of extents
    ([header_text]), and one line per extent. *)
Definition header_text (dev : string) (size blksize count : Z) : string :=
  dev +:+ nl +:+ dec size +:+ " " +:+ dec blksize +:+ nl +:+ dec count +:+ nl.


Fixpoint has_char (c : ascii) (s : string) : bool :=
  match s with
  | EmptyString => false
  | String a t => Ascii.eqb a c || has_char c t
  end.

(** A text at which the scan of a numeral stops: not a digit. *)
Definition stops (s : string) : Prop :=
  match s with
  | String c _ => digit_of c = None
  | EmptyString => True
  end.

(** A block map that names a device that does not exist. *)
Definition no_device_map : string :=
  text_of_lines ["/dev/block/none"; "100 10"; "2"; "0 5"; "5 10"].

(** * The start-up arguments of the recovery (twrp.cpp, [main])

    The loop of [main] over [argv[1..argc-1]] (lines 181-245). An argument
    is the text of a C string, its terminating NUL left implicit; a pointer
    into it is the text that remains from there. The calls to the rest of
    the recovery are recorded as events; the answer of
    [OpenRecoveryScript::Insert_ORS_Command] is read from a script. *)

Inductive BootEvent :=
| BGuiPrintColor (color text : string)
| BPrintf (text : string)
| BInsertORS (command : string) (ret : bool)
| BLogErr (text : string)
| BLogInfo (text : string)
| BSetBackupName
| BGuiPrint (text : string).

Record Startup := mkStartup {
  su_shutdown : bool;
  su_send_intent : string;
  su_ors_script : list bool;
  su_out : list BootEvent
}.

Definition out (e : BootEvent) (st : Startup) : Startup :=
  mkStartup (su_shutdown st) (su_send_intent st) (su_ors_script st)
            (su_out st ++ [e]).

(** [OpenRecoveryScript::Insert_ORS_Command(command)]; an exhausted script
    answers [false]. *)
Definition Insert_ORS_Command (command : string) (st : Startup)
    : bool * Startup :=
  let ok := match su_ors_script st with b :: _ => b | [] => false end in
  (ok, mkStartup (su_shutdown st) (su_send_intent st)
                 (tail (su_ors_script st))
                 (su_out st ++ [BInsertORS command ok])).

(** What a pass of the loop body leaves: go on, [break], or undefined
    behaviour (a read past the end of the argument). *)
Inductive Step :=
| Next (st : Startup)
| Break (st : Startup)
| Undefined.

(** [*ptr] for a pointer inside the argument: at the end, the NUL. *)
Definition deref (s : string) : ascii :=
  match s with
  | String c _ => c
  | EmptyString => NUL
  end.

(** [ptr + 1]. *)
Definition next_char (s : string) : string :=
  match s with
  | String _ t => t
  | EmptyString => EmptyString
  end.

(** [if ( *argptr == '-') {argptr++; len--;}] *)
Definition strip_dash (a : string * Z) : string * Z :=
  if Ascii.eqb (deref a.1) "-" then (next_char a.1, a.2 - 1) else a.

(** [while ( *ptr != '=' && *ptr != '\n') ptr++;]: the NUL is neither, so
    the scan of a text without ['='] and newline leaves the argument. *)
Fixpoint scan_to_equals (s : string) : option string :=
  match s with
  | EmptyString => None
  | String c t =>
      if Ascii.eqb c "=" || Ascii.eqb c newline then Some s
      else scan_to_equals t
  end.

(** [while ( *ptr == '=') ptr++;] *)
Fixpoint skip_equals (s : string) : string :=
  match s with
  | String c t => if Ascii.eqb c "=" then skip_equals t else s
  | EmptyString => s
  end.

(** The text at [ptr + k], when that is inside the argument or at its
    NUL. *)
Fixpoint text_at (k : nat) (s : string) : option string :=
  match k, s with
  | O, _ => Some s
  | S k', String _ t => text_at k' t
  | S _, EmptyString => None
  end.

Definition rescue_party_notice : string :=
  nl +:+ "OrangeFox: Android Rescue Party trigger! Possible solutions? Either: "
  +:+ nl +:+ "  1. Wipe data and caches, or" +:+ nl
  +:+ "  2. Format data, and/or" +:+ nl
  +:+ "  3. Clean-flash your ROM." +:+ nl +:+ nl.

(** [if (!OpenRecoveryScript::Insert_ORS_Command(command)) break;] *)
Definition insert_or_break (command : string) (st : Startup) : Step :=
  let r := Insert_ORS_Command command st in
  if negb r.1 then Break r.2 else Next r.2.

(** The body of the loop for [argv[index] = arg]. *)
Definition startup_argument (arg : string) (st : Startup) : Step :=
  let st := if String.eqb arg "--prompt_and_wipe_data"
            then out (BGuiPrintColor "error" rescue_party_notice) st
            else st in
  let st := out (BPrintf (" '" +:+ arg +:+ "'")) st in
  let a := strip_dash (strip_dash (arg, Z.of_nat (String.length arg))) in
  let argptr := a.1 in
  let len := a.2 in
  if Ascii.eqb (deref argptr) "u" then
    match scan_to_equals argptr with
    | None => Undefined
    | Some ptr =>
        let ptr := skip_equals ptr in
        if negb (Ascii.eqb (deref ptr) NUL) then
          insert_or_break ("install " +:+ ptr) st
        else
          Next (out (BLogErr ("argument error specifying zip file" +:+ nl)) st)
    end
  else if Ascii.eqb (deref argptr) "w" then
    if len =? 9 then insert_or_break ("wipe data" +:+ nl) st
    else if len =? 10 then insert_or_break ("wipe cache" +:+ nl) st
    else Next st
  else if Ascii.eqb (deref argptr) "n" then
    insert_or_break ("backup BSDCAE" +:+ nl) (out BSetBackupName st)
  else if Ascii.eqb (deref argptr) "p" then
    Next (mkStartup true (su_send_intent st) (su_ors_script st) (su_out st))
  else if Ascii.eqb (deref argptr) "s" then
    if String.prefix "send_intent" argptr then
      match text_at 12 argptr with
      | None => Undefined
      | Some ptr =>
          Next (mkStartup (su_shutdown st) (String (deref ptr) EmptyString)
                          (su_ors_script st) (su_out st))
      end
    else if String.prefix "security" argptr then
      Next (out (BLogInfo ("Security update" +:+ nl)) st)
    else if String.prefix "sideload" argptr then
      insert_or_break ("sideload" +:+ nl) st
    else if String.prefix "stages" argptr then
      Next (out (BLogInfo ("ignoring stages command" +:+ nl)) st)
    else Next st
  else if Ascii.eqb (deref argptr) "r" then
    if String.prefix "reason" argptr then
      match text_at 7 argptr with
      | None => Undefined
      | Some ptr => Next (out (BGuiPrint (ptr +:+ nl)) st)
      end
    else Next st
  else Next st.

(** The loop over the arguments, between the two [printf] that frame it;
    [None] is undefined behaviour. *)
Fixpoint startup_loop (args : list string) (st : Startup) : option Startup :=
  match args with
  | [] => Some st
  | arg :: rest =>
      match startup_argument arg st with
      | Next st' => startup_loop rest st'
      | Break st' => Some st'
      | Undefined => None
      end
  end.

Definition startup_commands (args : list string) (st : Startup)
    : option Startup :=
  out (BPrintf nl) <$> startup_loop args (out (BPrintf "Startup Commands: ") st).

(** At most two dashes in front of an argument. *)
Definition dashes (d : string) : Prop :=
  d = EmptyString ∨ d = "-"%string ∨ d = "--"%string.

Definition fresh_start (script : list bool) : Startup :=
  mkStartup false EmptyString script [].

(** * Proofs *)

(** ** Reasoning about runs *)

Lemma wp_ret {A} (a : A) w (Q : A → World → Prop) : Q a w → wp (ret a) w Q.
Proof. done. Qed.

Lemma wp_bind {A B} (m : M A) (k : A → M B) w (Q : B → World → Prop) :
  wp m w (λ a w', wp (k a) w' Q) → wp (bind m k) w Q.
Proof. unfold wp, bind. by destruct (m w). Qed.

Lemma wp_mono {A} (m : M A) w (Q Q' : A → World → Prop) :
  wp m w Q → (∀ a w', Q a w' → Q' a w') → wp m w Q'.
Proof. unfold wp. destruct (m w); [eauto | done]. Qed.

Lemma wp_run {A} (m : M A) w (Q : A → World → Prop) a w' :
  wp m w Q → m w = Ok a w' → Q a w'.
Proof. unfold wp. intros H E. by rewrite E in H. Qed.

Lemma wp_returns {A} (m : M A) w (Q : A → World → Prop) :
  wp m w Q → ∃ a w', m w = Ok a w' ∧ Q a w'.
Proof. unfold wp. destruct (m w); [eauto | done]. Qed.

Ltac wsimpl :=
  cbn [os_files os_fds os_vm os_heap os_mmap_script os_malloc_script os_trace
       emit upd_fds upd_vm upd_heap next_mmap next_malloc] in *.

(** *** Rules of the primitives *)

Lemma wp_LOG m w (Q : unit → World → Prop) :
  Q tt (emit (EvLog m) w) → wp (LOG m) w Q.
Proof. done. Qed.

Lemma fresh_fd_above (fds : gmap Z OpenFile) :
  0 ≤ fresh_fd fds ∧ ∀ k, is_Some (fds !! k) → k < fresh_fd fds.
Proof.
  unfold fresh_fd.
  apply (map_fold_weak_ind (λ r (m : gmap Z OpenFile),
           0 ≤ r ∧ ∀ k, is_Some (m !! k) → k < r)).
  - split; [lia |]. intros k [x Hx]. by rewrite lookup_empty in Hx.
  - intros i x m r _ [Hr Hm]. split; [lia |].
    intros k [y Hy]. destruct (decide (i = k)) as [-> | Hne]; [lia |].
    rewrite lookup_insert_ne in Hy by done.
    specialize (Hm k (ex_intro _ y Hy)). lia.
Qed.

Lemma fresh_fd_nonneg fds : 0 ≤ fresh_fd fds.
Proof. apply fresh_fd_above. Qed.

Lemma fresh_fd_fresh fds : fds !! fresh_fd fds = None.
Proof.
  destruct (fds !! fresh_fd fds) eqn:E; [| done].
  destruct (fresh_fd_above fds) as [_ H].
  specialize (H (fresh_fd fds) (ex_intro _ _ E)). lia.
Qed.

Lemma wp_open path w (Q : Z → World → Prop) :
  (∀ fd node, fd = fresh_fd (os_fds w) →
     path ≫= (λ p, os_files w !! p) = Some node →
     Q fd (emit (EvOpen path fd) (upd_fds (insert fd (mkOpen node 0)) w))) →
  (path ≫= (λ p, os_files w !! p) = None →
   Q (-1) (emit (EvOpen path (-1)) w)) →
  wp (open path) w Q.
Proof.
  intros H1 H2. unfold wp, open.
  destruct (path ≫= _); [by apply H1 | by apply H2].
Qed.

Lemma wp_close fd w (Q : unit → World → Prop) :
  Q tt (emit (EvClose fd) (upd_fds (delete fd) w)) → wp (close fd) w Q.
Proof. done. Qed.

Lemma wp_fopen path w (Q : option Z → World → Prop) :
  (∀ fd node, fd = fresh_fd (os_fds w) → os_files w !! path = Some node →
     Q (Some fd) (emit (EvFopen path (Some fd))
                       (upd_fds (insert fd (mkOpen node 0)) w))) →
  (os_files w !! path = None → Q None (emit (EvFopen path None) w)) →
  wp (fopen path) w Q.
Proof.
  intros H1 H2. unfold wp, fopen.
  destruct (os_files w !! path); [by apply H1 | by apply H2].
Qed.

Lemma wp_fclose f w (Q : unit → World → Prop) :
  is_Some (os_fds w !! f) →
  Q tt (emit (EvFclose f) (upd_fds (delete f) w)) → wp (fclose f) w Q.
Proof. intros [o Ho] H. unfold wp, fclose. by rewrite Ho. Qed.

Lemma wp_fgets size f w (Q : option string → World → Prop) :
  is_Some (os_fds w !! f) →
  Q None (emit (EvFgets f None) w) →
  (∀ line o, Q (Some line) (emit (EvFgets f (Some line))
                                 (upd_fds (insert f o) w))) →
  wp (fgets size f) w Q.
Proof.
  intros [o Ho] H1 H2. unfold wp, fgets. rewrite Ho.
  destruct (unread o); [done |].
  destruct (take_line _ _). apply H2.
Qed.

Lemma scan_unsigned_bounds bits s v rest :
  0 ≤ bits → scan_unsigned bits s = Some (v, rest) → 0 ≤ v < 2 ^ bits.
Proof.
  intros Hb. unfold scan_unsigned.
  destruct (match skip_space s with
            | String "-" t => (true, t)
            | String "+" t => (false, t)
            | _ => (false, skip_space s)
            end) as [neg s1].
  destruct s1 as [| c t]; [done |].
  destruct (digit_of c); [| done].
  destruct (scan_digits _ _) as [x r]. intros [= <- <-].
  apply Z.mod_pos_bound. by apply Z.pow_pos_nonneg.
Qed.

Lemma scan_fields_bounds widths : ∀ s vals rest,
  Forall (λ b, 0 ≤ b) widths →
  scan_fields widths s = (vals, rest) →
  Forall2 (λ b v, 0 ≤ v < 2 ^ b) (take (length vals) widths) vals.
Proof.
  induction widths as [| b bs IH]; intros s vals rest Hw; simpl.
  - intros [= <- <-]. constructor.
  - inversion Hw as [| ? ? Hb Hbs]; subst.
    destruct (scan_unsigned b s) as [[v r] |] eqn:E.
    + destruct (scan_fields bs r) as [vs r'] eqn:E'. intros [= <- <-].
      simpl. constructor; [by eapply scan_unsigned_bounds | by eapply IH].
    + intros [= <- <-]. constructor.
Qed.

Lemma wp_fscanf f fmt w (Q : Z * list Z → World → Prop) :
  is_Some (os_fds w !! f) →
  (∀ n vals o,
     n = Z.of_nat (length vals) ∨ (n = -1 ∧ vals = []) →
     Forall2 (λ b v, 0 ≤ v < 2 ^ b) (take (length vals) (widths fmt)) vals →
     Q (n, vals) (emit (EvFscanf f fmt n vals) (upd_fds (insert f o) w))) →
  wp (fscanf f fmt) w Q.
Proof.
  intros [o Ho] H. unfold wp, fscanf. rewrite Ho.
  destruct (scan_fields (widths fmt) (unread o)) as [vals rest] eqn:E.
  apply H.
  - destruct vals; [destruct rest |]; auto.
  - eapply scan_fields_bounds; [| done].
    destruct fmt; repeat constructor; lia.
Qed.

(** What a scan that made two, respectively three, conversions holds. *)
Lemma scanned_two n vals :
  n = Z.of_nat (length vals) ∨ (n = -1 ∧ vals = []) →
  Forall2 (λ b v, 0 ≤ v < 2 ^ b) (take (length vals) (widths FmtRange)) vals →
  n = 2 →
  vals = [nth 0 vals 0; nth 1 vals 0]
  ∧ 0 ≤ nth 0 vals 0 < 2 ^ 64 ∧ 0 ≤ nth 1 vals 0 < 2 ^ 64.
Proof.
  intros [-> | [-> _]] H2 Hn; [| done].
  destruct vals as [| a [| b [| c t]]]; simpl in Hn; try lia.
  simpl in *. inversion H2 as [| ? ? ? ? Ha H2']; subst.
  inversion H2' as [| ? ? ? ? Hb _]; subst. done.
Qed.

Lemma scanned_three n vals :
  n = Z.of_nat (length vals) ∨ (n = -1 ∧ vals = []) →
  Forall2 (λ b v, 0 ≤ v < 2 ^ b) (take (length vals) (widths FmtHeader)) vals →
  n = 3 →
  vals = [nth 0 vals 0; nth 1 vals 0; nth 2 vals 0]
  ∧ 0 ≤ nth 0 vals 0 < 2 ^ 64 ∧ 0 ≤ nth 1 vals 0 < 2 ^ 32
  ∧ 0 ≤ nth 2 vals 0 < 2 ^ 32.
Proof.
  intros [-> | [-> _]] H2 Hn; [| done].
  destruct vals as [| a [| b [| c [| d t]]]]; simpl in Hn; try lia.
  simpl in *. inversion H2 as [| ? ? ? ? Ha H2']; subst.
  inversion H2' as [| ? ? ? ? Hb H2'']; subst.
  inversion H2'' as [| ? ? ? ? Hc _]; subst. done.
Qed.

Lemma wp_mmap_anywhere len prot flags fd off w (Q : Z → World → Prop) :
  has_flag MAP_FIXED flags = false →
  Q MAP_FAILED (emit (EvMmap 0 len prot flags fd off MAP_FAILED) (next_mmap w)) →
  (∀ place,
     0 < len → 0 < place → place + len ≤ MAP_FAILED →
     is_free place len (os_vm w) = true →
     Q place
       (emit (EvMmap 0 len prot flags fd off place)
             (upd_vm (cons (mkRegion place len prot
                                     (if has_flag MAP_ANON flags then None
                                      else Some off)))
                     (next_mmap w)))) →
  wp (mmap 0 len prot flags fd off) w Q.
Proof.
  intros Hf H1 H2. unfold wp, mmap. rewrite Hf.
  destruct (os_mmap_script w) as [| [a |] ?]; try done.
  destruct (_ && _) eqn:E; [| done]. simpl in E.
  repeat (apply andb_true_iff in E as [E ?]).
  apply H2; [lia .. | done].
Qed.

Lemma wp_mmap_fixed addr len prot flags fd off w (Q : Z → World → Prop) :
  has_flag MAP_FIXED flags = true →
  Q MAP_FAILED
    (emit (EvMmap addr len prot flags fd off MAP_FAILED) (next_mmap w)) →
  (0 < len → 0 < addr → addr + len ≤ MAP_FAILED →
   Q addr
     (emit (EvMmap addr len prot flags fd off addr)
           (upd_vm (λ vm, mkRegion addr len prot
                                   (if has_flag MAP_ANON flags then None
                                    else Some off)
                          :: unmap_range addr len vm)
                   (next_mmap w)))) →
  wp (mmap addr len prot flags fd off) w Q.
Proof.
  intros Hf H1 H2. unfold wp, mmap. rewrite Hf.
  destruct (os_mmap_script w) as [| [a |] ?]; try done.
  destruct (_ && _) eqn:E; [| done]. simpl in E.
  repeat (apply andb_true_iff in E as [E ?]).
  apply H2; lia.
Qed.

Lemma wp_munmap addr len w (Q : Z → World → Prop) :
  (0 < len →
   Q 0 (emit (EvMunmap addr len 0) (upd_vm (unmap_range addr len) w))) →
  (len ≤ 0 → Q (-1) (emit (EvMunmap addr len (-1)) w)) →
  wp (munmap addr len) w Q.
Proof.
  intros H1 H2. unfold wp, munmap.
  destruct (0 <? len) eqn:E; [apply H1 | apply H2]; lia.
Qed.

Lemma wp_alloc_ranges ev count w (Q : Z → World → Prop) :
  Q 0 (emit (ev count 0) (next_malloc w)) →
  (∀ p, 0 < p → os_heap w !! p = None →
     Q p (emit (ev count p)
               (upd_heap (insert p (replicate (Z.to_nat count) (mkRange 0 0)))
                         (next_malloc w)))) →
  wp (alloc_ranges ev count) w Q.
Proof.
  intros H1 H2. unfold wp, alloc_ranges.
  destruct (os_malloc_script w) as [| [p |] ?]; try done.
  destruct (os_heap w !! p) eqn:E; [done |].
  destruct (0 <? p) eqn:Ep; [| done]. apply H2; [lia | done].
Qed.

Lemma wp_free p arr w (Q : unit → World → Prop) :
  os_heap w !! p = Some arr → p ≠ 0 →
  Q tt (emit (EvFree p) (upd_heap (delete p) w)) → wp (free p) w Q.
Proof.
  intros Hp Hn H. unfold wp, free.
  destruct (p =? 0) eqn:E; [lia |]. by rewrite Hp.
Qed.

Lemma wp_free_null w (Q : unit → World → Prop) :
  Q tt (emit (EvFree 0) w) → wp (free 0) w Q.
Proof. done. Qed.

Lemma wp_store_range p i r arr w (Q : unit → World → Prop) :
  os_heap w !! p = Some arr → p ≠ 0 → 0 ≤ i < Z.of_nat (length arr) →
  Q tt (upd_heap (insert p (<[Z.to_nat i := r]> arr)) w) →
  wp (store_range p i r) w Q.
Proof.
  intros Hp Hn Hi H. unfold wp, store_range.
  destruct (p =? 0) eqn:E; [lia |]. rewrite Hp.
  destruct (_ && _) eqn:E'; [done | lia].
Qed.

Lemma wp_load_range p i r arr w (Q : MappedRange → World → Prop) :
  os_heap w !! p = Some arr → p ≠ 0 → 0 ≤ i → arr !! Z.to_nat i = Some r →
  Q r w → wp (load_range p i) w Q.
Proof.
  intros Hp Hn Hi Hr H. unfold wp, load_range.
  destruct (p =? 0) eqn:E; [lia |]. rewrite Hp.
  destruct (i <? 0) eqn:E'; [lia |]. by rewrite Hr.
Qed.

(** *** The address space under [munmap] and fixed mappings *)

Lemma unmap_range_app a l vm1 vm2 :
  unmap_range a l (vm1 ++ vm2) = unmap_range a l vm1 ++ unmap_range a l vm2.
Proof. unfold unmap_range. apply bind_app. Qed.

Lemma unmap_range_cons a l r vm :
  unmap_range a l (r :: vm) = cut a l r ++ unmap_range a l vm.
Proof. done. Qed.

Lemma cut_apart a l r : apart a l r = true → cut a l r = [r].
Proof. unfold cut. by intros ->. Qed.

Lemma unmap_free a l vm : is_free a l vm = true → unmap_range a l vm = vm.
Proof.
  induction vm as [| r vm IH]; [done |].
  intros H. simpl in H. apply andb_true_iff in H as [H1 H2].
  rewrite unmap_range_cons, cut_apart, IH; done.
Qed.

(** Unmapping inside a span leaves what lies apart from the span alone. *)
Lemma unmap_outside a0 l0 a l vm :
  a0 ≤ a → a + l ≤ a0 + l0 →
  Forall (λ r, apart a0 l0 r = true) vm → unmap_range a l vm = vm.
Proof.
  intros Ha Hl Hvm. apply unmap_free. unfold is_free.
  apply forallb_forall. intros r Hr.
  rewrite Forall_forall in Hvm. apply list_elem_of_In in Hr.
  specialize (Hvm r Hr). unfold apart in *.
  apply orb_true_iff in Hvm. apply orb_true_iff. lia.
Qed.

Lemma cut_inside a0 l0 a l r :
  a0 ≤ a → a + l ≤ a0 + l0 → inside a0 l0 r →
  Forall (inside a0 l0) (cut a l r).
Proof.
  intros Ha Hl (H1 & H2 & H3). unfold cut.
  destruct (apart a l r) eqn:E.
  { repeat constructor; done. }
  unfold apart in E. apply orb_false_iff in E as [E1 E2].
  apply Forall_app. split.
  - destruct (rg_addr r <? a) eqn:E3; repeat constructor; simpl; lia.
  - destruct (a + l <? rg_addr r + rg_len r) eqn:E3;
      repeat constructor; simpl; lia.
Qed.

Lemma unmap_inside a0 l0 a l vm :
  a0 ≤ a → a + l ≤ a0 + l0 → Forall (inside a0 l0) vm →
  Forall (inside a0 l0) (unmap_range a l vm).
Proof.
  intros Ha Hl. induction 1 as [| r vm Hr _ IH]; [constructor |].
  rewrite unmap_range_cons. apply Forall_app. split; [| done].
  by eapply cut_inside.
Qed.

(** Unmapping the whole span removes everything inside it. *)
Lemma unmap_all a l vm : Forall (inside a l) vm → unmap_range a l vm = [].
Proof.
  induction 1 as [| r vm (H1 & H2 & H3) _ IH]; [done |].
  rewrite unmap_range_cons, IH, app_nil_r. unfold cut, apart.
  destruct (_ || _) eqn:E.
  { apply orb_true_iff in E. lia. }
  destruct (rg_addr r <? a) eqn:E1; [lia |].
  destruct (a + l <? rg_addr r + rg_len r) eqn:E2; [lia | done].
Qed.

Lemma unmap_span a l inner vm0 :
  0 ≤ l → Forall (inside a l) inner →
  Forall (λ r, apart a l r = true) vm0 →
  unmap_range a l (inner ++ vm0) = vm0.
Proof.
  intros Hl Hin Hout.
  rewrite unmap_range_app, unmap_all by done.
  eapply (unmap_outside a l); [lia | lia | done].
Qed.

Lemma is_free_apart a l vm :
  is_free a l vm = true → Forall (λ r, apart a l r = true) vm.
Proof.
  unfold is_free. rewrite forallb_forall, Forall_forall.
  intros H r Hr. apply H. by apply list_elem_of_In.
Qed.

(** ** The walk over the extents *)

Lemma bytes_cons blksize x t :
  bytes blksize (x :: t) = ext_len blksize x + bytes blksize t.
Proof. done. Qed.

Lemma bytes_nonneg blksize exts :
  0 < blksize → Forall good_ext exts → 0 ≤ bytes blksize exts.
Proof.
  intros Hb. induction 1 as [| x t [Hx _] _ IH]; [done |].
  rewrite bytes_cons. unfold ext_len. nia.
Qed.

Lemma good_range s e blksize rem :
  0 ≤ s < 2 ^ 64 → 0 ≤ e < 2 ^ 64 → 0 < blksize →
  bad_range s e blksize rem = false →
  s < e
  ∧ to_size_t (to_size_t (e - s) * blksize) = (e - s) * blksize
  ∧ (e - s) * blksize ≤ rem ∧ 0 < (e - s) * blksize.
Proof.
  intros Hs He Hb. unfold bad_range.
  intros [[H1 H2]%orb_false_iff H3]%orb_false_iff.
  assert (s < e) by lia.
  assert (E : to_size_t (e - s) = e - s).
  { unfold to_size_t. apply Z.mod_small. lia. }
  rewrite E in *.
  assert (e - s ≤ SIZE_MAX / blksize) by lia.
  assert ((e - s) * blksize ≤ SIZE_MAX).
  { transitivity (SIZE_MAX / blksize * blksize); [nia |].
    rewrite Z.mul_comm. apply Z.mul_div_le. lia. }
  assert (E' : to_size_t ((e - s) * blksize) = (e - s) * blksize).
  { unfold to_size_t. apply Z.mod_small. unfold SIZE_MAX in *. nia. }
  rewrite E' in *. repeat split; [done | lia | nia].
Qed.

Section Walk.
Variables (mapf fd blksize p reserve total : Z) (vm0 : list Region).
Hypothesis Hblk : 0 < blksize.
Hypothesis Hp : p ≠ 0.
Hypothesis Hreserve : 0 < reserve.
Hypothesis Hspan : reserve + total ≤ MAP_FAILED.
Hypothesis Hvm0 : Forall (λ r, apart reserve total r = true) vm0.

Lemma map_ranges_spec n : ∀ i next rem w done todo inner,
  is_Some (os_fds w !! mapf) →
  os_heap w !! p = Some (done ++ todo) →
  i = Z.of_nat (length done) → length todo = n →
  os_vm w = inner ++ vm0 → Forall (inside reserve total) inner →
  reserve ≤ next → next + rem = reserve + total → 0 ≤ rem →
  wp (map_ranges n mapf fd blksize p i next rem) w
     (walked mapf fd blksize p reserve total vm0 i next rem done todo w).
Proof.
  induction n as [| n IH];
    intros i next rem w done todo inner [o Ho] Hheap Hi Hlen Hvm Hin
           Hnext Hrem Hrem0.
  - apply wp_ret. exists [], None, inner, o. simpl.
    rewrite app_nil_r, Z.sub_0_r, drop_0, !insert_id by done.
    repeat split; try done.
  - destruct todo as [| t0 todo]; [done |]. simpl in Hlen.
    simpl map_ranges. apply wp_bind.
    apply wp_fscanf; [by eexists |].
    intros k vals o1 Hk Hvals. cbn [fst snd].
    destruct (k =? 2) eqn:Ek; cbn [negb].
    + (* two conversions *)
      apply Z.eqb_eq in Ek.
      destruct (scanned_two _ _ Hk Hvals Ek) as (Ev & Hs & He).
      set (s := nth 0 vals 0) in *. set (e := nth 1 vals 0) in *.
      clearbody s e. subst vals k. clear Hk Hvals.
      destruct (bad_range s e blksize rem) eqn:Ebad.
      * apply wp_bind, wp_LOG, wp_ret.
        exists [], (Some (StopRange s e)), inner, o1. wsimpl. simpl.
        rewrite ?Z.sub_0_r, ?Z.add_0_r, <- ?app_assoc. simpl.
        rewrite (insert_id (os_heap w)) by done.
        repeat split; try done; try lia.
      * destruct (good_range s e blksize rem Hs He Hblk Ebad)
          as (Hse & Elen & Hle & Hpos).
        rewrite Elen.
        apply wp_bind, wp_mmap_fixed; [done | |].
        -- (* the mapping fails *)
           rewrite Z.eqb_refl.
           apply wp_bind, wp_LOG, wp_ret.
           exists [], (Some (StopMap s e)), inner, o1. wsimpl. simpl.
           rewrite ?Z.sub_0_r, ?Z.add_0_r, <- ?app_assoc. simpl.
           rewrite (insert_id (os_heap w)) by done.
           repeat split; try done; lia.
        -- intros _ Hn0 Hn1.
           destruct (next =? MAP_FAILED) eqn:Emf; [lia |].
           apply wp_bind.
           eapply wp_store_range; wsimpl; [exact Hheap | done | |].
           { rewrite length_app. simpl. lia. }
           eapply wp_mono.
           { eapply (IH _ _ _ _ (done ++ [mkRange next ((e - s) * blksize)])
                        todo
                        (mkRegion next ((e - s) * blksize) PROT_READ
                           (Some (to_off64 (to_off64 s * blksize)))
                         :: unmap_range next ((e - s) * blksize) inner)).
             - wsimpl. rewrite lookup_insert_eq. by eexists.
             - wsimpl. rewrite lookup_insert_eq. f_equal.
               rewrite Hi, Nat2Z.id, insert_app_r_alt by lia.
               rewrite Nat.sub_diag. simpl. by rewrite <- app_assoc.
             - rewrite length_app. simpl. lia.
             - lia.
             - wsimpl. rewrite Hvm, unmap_range_app. simpl. do 2 f_equal.
               eapply (unmap_outside reserve total); [lia | lia | done].
             - constructor; [unfold inside; simpl; lia |].
               eapply unmap_inside; [lia | lia | done].
             - lia.
             - lia.
             - lia. }
           intros [succ rem'] w'
             (exts & st & inner' & o' & Htr & Hres & Hgood & Hbytes
              & Hnone & Hsome & Hbad & Hh & Hfds & Hvm' & Hin' & Hfiles).
           exists ((s, e) :: exts), st, inner', o'. wsimpl.
           rewrite bytes_cons. simpl length. rewrite Nat2Z.inj_succ.
           change (ext_len blksize (s, e)) with ((e - s) * blksize).
           replace (i + Z.succ (Z.of_nat (length exts)))
             with (i + 1 + Z.of_nat (length exts)) by lia.
           replace (next + ((e - s) * blksize + bytes blksize exts))
             with (next + (e - s) * blksize + bytes blksize exts) by lia.
           replace (rem - ((e - s) * blksize + bytes blksize exts))
             with (rem - (e - s) * blksize - bytes blksize exts) by lia.
           rewrite Htr, Hh, Hfds, !insert_insert_eq, Hfiles.
           repeat split; try done.
           ++ simpl. by rewrite <- !app_assoc.
           ++ constructor; [split; simpl; lia | done].
           ++ lia.
           ++ intros E. f_equal. by apply Hnone.
           ++ intros E. specialize (Hsome E). lia.
           ++ f_equal. by rewrite <- app_assoc.
    + (* a parse failure *)
      apply wp_bind, wp_LOG, wp_ret.
      exists [], (Some (StopParse k vals)), inner, o1. wsimpl. simpl.
      rewrite ?Z.sub_0_r, ?Z.add_0_r, <- ?app_assoc. simpl.
      rewrite (insert_id (os_heap w)) by done.
      assert (length vals ≤ 2)%nat.
      { apply Forall2_length in Hvals. rewrite length_take in Hvals.
        simpl in Hvals. lia. }
      repeat split; try done; lia.
Qed.
End Walk.

(** ** Runs of [sysMapBlockFile] *)

Lemma header_accepted size blksize count line :
  0 ≤ size < 2 ^ 64 → 0 ≤ blksize < 2 ^ 32 → 0 ≤ count < 2 ^ 32 →
  header_rejected size blksize count = false →
  let h := mkHeader line size blksize count in
  valid_header h
  ∧ (if negb (blksize =? 0)
     then to_size_t (to_size_t (size - 1) / blksize + 1) else 0) = h_blocks h
  ∧ to_size_t (h_blocks h * blksize) = h_total h.
Proof.
  intros Hs Hb Hc. unfold header_rejected.
  intros [[[H1 H2]%orb_false_iff H3]%orb_false_iff H4]%orb_false_iff.
  destruct (blksize =? 0) eqn:E; [done |]. cbn [negb] in *.
  assert (E1 : to_size_t (size - 1) = size - 1).
  { unfold to_size_t. apply Z.mod_small. lia. }
  rewrite E1 in *.
  assert (0 ≤ (size - 1) / blksize ≤ size - 1).
  { split; [apply Z.div_pos; lia |]. apply Z.div_le_upper_bound; nia. }
  assert (E2 : to_size_t ((size - 1) / blksize + 1) = (size - 1) / blksize + 1).
  { unfold to_size_t. apply Z.mod_small. lia. }
  rewrite E2 in *.
  unfold valid_header, h_total, h_blocks. simpl.
  assert (((size - 1) / blksize + 1) * blksize ≤ SIZE_MAX).
  { transitivity (SIZE_MAX / blksize * blksize); [nia |].
    rewrite Z.mul_comm. apply Z.mul_div_le. lia. }
  repeat split; try lia.
  unfold to_size_t. apply Z.mod_small. unfold SIZE_MAX in *. nia.
Qed.

(** The reservation covers the logical size, rounded up to whole blocks. *)
Lemma h_total_bounds h :
  0 < h_size h → 0 < h_blksize h →
  h_size h ≤ h_total h < h_size h + h_blksize h.
Proof.
  intros Hs Hb. unfold h_total, h_blocks.
  pose proof (Z.mul_div_le (h_size h - 1) (h_blksize h) Hb).
  pose proof (Z.mul_succ_div_gt (h_size h - 1) (h_blksize h) Hb).
  nia.
Qed.

Lemma heap_restore {A} (m : gmap Z A) p x :
  m !! p = None → delete p (<[p := x]> m) = m.
Proof. intros H. by rewrite delete_insert_eq, delete_id. Qed.

Lemma fds_restore (m : gmap Z OpenFile) mapf fd o' d o1 :
  <[mapf := o1]> m !! fd = None →
  delete fd (<[mapf := o']> (<[fd := d]> (<[mapf := o1]> m)))
  = <[mapf := o']> m.
Proof.
  intros H. assert (fd ≠ mapf).
  { intros ->. by rewrite lookup_insert_eq in H. }
  rewrite delete_insert_ne, delete_insert_eq, delete_id by done.
  apply insert_insert_eq.
Qed.

Arguments unmap_range : simpl never.

Ltac finish :=
  wsimpl; simpl; rewrite <- ?app_assoc, ?insert_insert_eq;
  try done; repeat (split; try done); try lia.

Lemma sysMapBlockFile_spec mapf pMap w :
  is_Some (os_fds w !! mapf) →
  wp (sysMapBlockFile mapf pMap) w (block_post mapf pMap w).
Proof.
  intros [o0 Ho0]. unfold sysMapBlockFile.
  apply wp_bind, wp_fgets; [by eexists | |].
  { apply wp_bind, wp_LOG, wp_ret. exists ONoLine, o0. wsimpl. simpl.
    rewrite insert_id by done. finish. }
  intros line o1. apply wp_bind.
  apply wp_fscanf; [wsimpl; rewrite lookup_insert_eq; by eexists |].
  intros n vals o2 Hn Hvals. cbn [fst snd].
  destruct (n =? 3) eqn:En; cbn [negb]; cycle 1.
  { apply wp_bind, wp_LOG, wp_ret. exists (OBadHeader line n vals), o2.
    finish. }
  apply Z.eqb_eq in En.
  destruct (scanned_three _ _ Hn Hvals En) as (Ev & Hs & Hb & Hc).
  set (size := nth 0 vals 0) in *. set (blksize := nth 1 vals 0) in *.
  set (count := nth 2 vals 0) in *.
  clearbody size blksize count. subst vals n. clear Hn Hvals.
  set (h := mkHeader line size blksize count).
  change ((size =? 0) || (blksize =? 0)
          || ((if negb (blksize =? 0)
               then to_size_t (to_size_t (size - 1) / blksize + 1)
               else 0) >? SIZE_MAX / blksize)
          || (count =? 0)) with (header_rejected size blksize count).
  destruct (header_rejected size blksize count) eqn:Erej.
  { apply wp_bind, wp_LOG, wp_ret. exists (OInvalid h), o2.
    finish. }
  destruct (header_accepted _ _ _ line Hs Hb Hc Erej) as (Hv & Eblocks & Etotal).
  fold h in Hv, Eblocks, Etotal.
  rewrite Eblocks, Etotal.
  destruct Hv as (Hsz & Hbk & Hct & Htot).
  assert (Hv : valid_header h) by done.
  cbn [h_size h_blksize h_count h] in Hsz, Hbk, Hct.
  apply wp_bind. unfold calloc_ranges. apply wp_alloc_ranges.
  { (* calloc fails *)
    cbn [mm_ranges mm_addr mm_length mm_range_count]. rewrite Z.eqb_refl.
    apply wp_bind, wp_LOG, wp_ret. exists (ONoMemory h), o2. finish. }
  intros p Hp0 Hpfree. wsimpl.
  cbn [mm_ranges mm_addr mm_length mm_range_count].
  destruct (p =? 0) eqn:Ep; [lia |]. clear Ep.
  apply wp_bind, wp_mmap_anywhere; [done | |].
  { (* no address space *)
    rewrite Z.eqb_refl. apply wp_bind, wp_LOG.
    apply wp_bind. eapply wp_free; [wsimpl; apply lookup_insert_eq | lia |].
    apply wp_ret. exists (ONoReserve h p), o2. finish.
    by apply heap_restore. }
  intros reserve Htot0 Hres0 Hres1 Hfree. wsimpl.
  destruct (reserve =? MAP_FAILED) eqn:Er; [lia |]. clear Er.
  apply wp_bind, wp_open.
  2:{ (* the device does not open *)
    intros _. cbn [Z.ltb Z.compare]. apply wp_bind, wp_LOG.
    apply wp_bind, wp_munmap; [intros _ | lia].
    apply wp_bind. eapply wp_free; [wsimpl; apply lookup_insert_eq | lia |].
    apply wp_ret. exists (ONoDevice h p reserve), o2. finish.
    - apply (unmap_span reserve (h_total h) [_]);
        [lia | repeat constructor; simpl; lia | by apply is_free_apart].
    - by apply heap_restore. }
  intros fd node Hfd _. wsimpl.
  pose proof (fresh_fd_nonneg (<[mapf:=o2]> (<[mapf:=o1]> (os_fds w)))) as Hfd0.
  pose proof (fresh_fd_fresh (<[mapf:=o2]> (<[mapf:=o1]> (os_fds w)))) as Hfdf.
  rewrite <- Hfd in Hfd0, Hfdf. rewrite insert_insert_eq in Hfdf.
  assert (Hne : fd ≠ mapf).
  { intros ->. by rewrite lookup_insert_eq in Hfdf. }
  destruct (fd <? 0) eqn:Efd; [lia |]. clear Efd.
  apply wp_bind. eapply wp_mono.
  { eapply (map_ranges_spec mapf fd blksize p reserve (h_total h) (os_vm w))
      with (done := []) (inner := [mkRegion reserve (h_total h) PROT_NONE None])
           (todo := replicate (Z.to_nat count) (mkRange 0 0));
      wsimpl; try lia; try done.
    - by apply is_free_apart.
    - rewrite lookup_insert_ne by done. rewrite lookup_insert_eq. by eexists.
    - by rewrite lookup_insert_eq.
    - apply length_replicate.
    - repeat constructor; simpl; lia. }
  intros [succ rem'] w'
    (exts & st & inner' & o' & Htr & Hres & Hgood & Hbytes
     & Hnone & Hsome & Hbad & Hh & Hfds & Hvm' & Hin' & Hfiles).
  injection Hres as -> ->. wsimpl. cbn [fst snd].
  rewrite length_replicate in Hnone, Hsome. simpl app in Hh.
  rewrite Z.add_0_l in Htr.
  assert (Hrestore :
    unmap_range reserve (h_total h) (os_vm w') = os_vm w).
  { rewrite Hvm'. apply unmap_span; [lia | done | by apply is_free_apart]. }
  assert (Hheap' : delete p (os_heap w') = os_heap w).
  { rewrite Hh, insert_insert_eq. by apply heap_restore. }
  assert (Hfds' : delete fd (os_fds w') = <[mapf:=o']> (os_fds w)).
  { rewrite Hfds, insert_insert_eq. by apply fds_restore. }
  assert (Hwf : block_wf (OWalked h p reserve fd exts st)).
  { simpl. split; [done |]. repeat split; try done; try lia.
    - intros E. specialize (Hnone E). lia.
    - intros E. specialize (Hsome E). lia. }
  assert (Hp' : is_Some (os_heap w' !! p)).
  { rewrite Hh, lookup_insert_eq. by eexists. }
  destruct Hp' as [arr' Hp'].
  destruct st as [st |].
  - (* the loop was left early *)
    cbn [andb]. apply wp_bind, wp_ret. cbn [negb].
    apply wp_bind, wp_close.
    apply wp_bind, wp_munmap; [intros _ | lia].
    apply wp_bind. eapply wp_free; [wsimpl; exact Hp' | lia |].
    apply wp_ret. exists (OWalked h p reserve fd exts (Some st)), o'.
    wsimpl. rewrite Htr, Hrestore, Hheap', Hfds', Hfiles.
    finish.
  - destruct (h_total h - bytes blksize exts =? 0) eqn:Erem; cbn [andb negb].
    + (* every byte of the reservation is placed *)
      apply wp_bind, wp_ret. cbn [negb].
      apply wp_bind, wp_close. apply wp_bind, wp_LOG, wp_ret.
      exists (OWalked h p reserve fd exts None), o'.
      assert (Eb : (bytes blksize exts =? h_total h) = true) by lia.
      wsimpl. rewrite Htr, Hfds', Hfiles, Hh, insert_insert_eq.
      rewrite Hnone, drop_ge, app_nil_r by (by rewrite ?length_replicate).
      simpl. rewrite !Eb. finish.
      intros _. eexists _, _. by rewrite app_nil_r.
    + (* bytes of the reservation are left over *)
      apply wp_bind, wp_bind, wp_LOG, wp_ret. cbn [negb].
      apply wp_bind, wp_close.
      apply wp_bind, wp_munmap; [intros _ | lia].
      apply wp_bind. eapply wp_free; [wsimpl; exact Hp' | lia |].
      apply wp_ret. exists (OWalked h p reserve fd exts None), o'.
      assert (Eb : (bytes blksize exts =? h_total h) = false) by lia.
      wsimpl. rewrite Htr, Hrestore, Hheap', Hfds', Hfiles.
      simpl. rewrite !Eb. finish.
Qed.

(** ** Runs of [sysMapFD] *)

(** [lseek64]; a failure comes with its reason. *)
Lemma wp_lseek64 fd off whence w (Q : Z → World → Prop) :
  ((∀ f size,
      os_fds w !! fd = Some f → node_size (of_node f) = Some size →
      ¬ 0 ≤ match whence with
            | SEEK_SET => off
            | SEEK_CUR => of_pos f + off
            | SEEK_END => size + off
            end ≤ LOFF_MAX) →
   Q (-1) (emit (EvLseek fd off whence (-1)) w)) →
  (∀ f size pos,
     os_fds w !! fd = Some f → node_size (of_node f) = Some size →
     pos = match whence with
           | SEEK_SET => off
           | SEEK_CUR => of_pos f + off
           | SEEK_END => size + off
           end →
     0 ≤ pos ≤ LOFF_MAX →
     Q pos (emit (EvLseek fd off whence pos)
                 (upd_fds (insert fd (mkOpen (of_node f) pos)) w))) →
  wp (lseek64 fd off whence) w Q.
Proof.
  intros H1 H2. unfold wp, lseek64.
  destruct (os_fds w !! fd) as [f |] eqn:Ef; [| by apply H1].
  destruct (node_size (of_node f)) as [size |] eqn:Es.
  2:{ apply H1. intros f' size' ? ?. simplify_eq. }
  destruct (_ && _) eqn:E.
  - apply andb_true_iff in E as [E1 E2]. eapply H2; eauto. lia.
  - apply H1. intros f' size' ? ?. simplify_eq.
    apply andb_false_iff in E. lia.
Qed.

Lemma position_queries {A} fd (k : Z → Z → Z → M A) w (Q : A → World → Prop) :
  (∀ start end_ r w', queried fd w start end_ r w' →
     wp (k start end_ r) w' Q) →
  wp (start <- lseek64 fd 0 SEEK_CUR ;;
      end_ <- lseek64 fd 0 SEEK_END ;;
      r <- lseek64 fd start SEEK_SET ;;
      k start end_ r) w Q.
Proof.
  intros Hk.
  apply wp_bind, wp_lseek64;
    [intros F1 | intros f1 z1 start Hf1 Hz1 -> Hs];
    (apply wp_bind, wp_lseek64;
       [intros F2 | intros f2 z2 end_ Hf2 Hz2 -> He]);
    (apply wp_bind, wp_lseek64;
       [intros F3 | intros f3 z3 r Hf3 Hz3 -> Hr]);
    apply Hk; unfold queried; wsimpl;
    rewrite <- ?app_assoc, ?delete_insert_eq;
    (split; [done |]); (split; [done |]); (split; [done |]);
    (split; [done |]); (split; [done |]);
    (split; [unfold LOFF_MAX in *; lia |]);
    (split; [unfold LOFF_MAX in *; lia |]);
    (split; [unfold LOFF_MAX in *; lia |]);
    intros f size Hf Hz Hpos Hsize;
    rewrite ?lookup_insert_eq in *; simplify_eq; cbn [of_node of_pos] in *.
  all: repeat match goal with
       | H : node_size ?n = Some ?a, H' : node_size ?n = Some ?b |- _ =>
           rewrite H in H'; injection H' as <-
       end.
  all: try lia.
  all: exfalso;
    match goal with
    | F : ∀ f size, _ |- _ =>
        eapply F;
        [first [eassumption | reflexivity | apply lookup_insert_eq]
        | cbn [of_node of_pos]; eassumption
        | cbn [of_node of_pos]; lia]
    end.
Qed.

Lemma sysMapFD_spec fd pMap w :
  wp (sysMapFD fd pMap) w (fd_post fd pMap w).
Proof.
  unfold sysMapFD. apply wp_bind. unfold getFileStartAndLength.
  apply position_queries.
  intros start end_ r w1
    (Htr & Hfds & Hfiles & Hvm & Hheap & Hs & He & Hr & Hreg).
  fold (fd_length start end_).
  destruct ((r =? -1) || (start =? -1) || (end_ =? -1)) eqn:Efail.
  { apply wp_bind, wp_LOG, wp_ret, wp_ret.
    exists start, end_, r, FNoLength. wsimpl. rewrite Htr.
    unfold fd_events. rewrite <- !app_assoc. simpl.
    repeat (split; try done).
    apply orb_true_iff in Efail as [Efail | Efail];
      [apply orb_true_iff in Efail as [Efail | Efail] |]; lia. }
  destruct (fd_length start end_ =? 0) eqn:Elen.
  { apply wp_bind, wp_LOG, wp_ret, wp_ret.
    exists start, end_, r, FEmpty. wsimpl. rewrite Htr.
    unfold fd_events. rewrite <- !app_assoc. simpl.
    repeat (split; try done). lia. }
  apply wp_ret. apply wp_bind, wp_mmap_anywhere; [done | |].
  { rewrite Z.eqb_refl. apply wp_bind, wp_LOG, wp_ret.
    exists start, end_, r, FNoMmap. wsimpl. rewrite Htr.
    unfold fd_events. rewrite <- !app_assoc. simpl.
    repeat (split; try done). lia. }
  intros memPtr Hlen Hm0 Hm1 Hfree.
  destruct (memPtr =? MAP_FAILED) eqn:Em; [lia |]. clear Em.
  apply wp_bind. unfold malloc_ranges. apply wp_alloc_ranges.
  { rewrite Z.eqb_refl. apply wp_bind, wp_LOG.
    apply wp_bind, wp_munmap; [intros _ | lia]. apply wp_ret.
    exists start, end_, r, (FNoMemory memPtr). wsimpl. rewrite Htr.
    unfold fd_events. rewrite <- !app_assoc. simpl.
    repeat (split; try done); try lia.
    rewrite <- Hvm.
    apply (unmap_span memPtr (fd_length start end_) [_]);
      [lia | repeat constructor; simpl; lia | by apply is_free_apart]. }
  intros p Hp0 Hpfree. wsimpl.
  destruct (p =? 0) eqn:Ep; [lia |]. clear Ep.
  apply wp_bind.
  eapply wp_store_range; [wsimpl; apply lookup_insert_eq | lia | simpl; lia |].
  apply wp_ret.
  exists start, end_, r, (FMapped memPtr p). wsimpl. rewrite Htr.
  unfold fd_events. rewrite <- !app_assoc. simpl.
  rewrite insert_insert_eq, Hheap in *.
  repeat (split; try done); lia.
Qed.

(** ** Runs of [sysMapFile] *)

Lemma sysMapFile_spec fn pMap w :
  wp (sysMapFile fn pMap) w (run_post fn w).
Proof.
  unfold sysMapFile. destruct (block_map_name fn) as [fn1 |] eqn:Efn.
  - (* a map of blocks *)
    apply wp_bind, wp_fopen.
    2:{ intros Hnone. apply wp_bind, wp_LOG, wp_ret.
        exists (RNoMapFile fn1). wsimpl. rewrite <- app_assoc. by simpl. }
    intros mapf node Hmapf Hnode.
    pose proof (fresh_fd_fresh (os_fds w)) as Hfresh. rewrite <- Hmapf in Hfresh.
    apply wp_bind. eapply wp_mono.
    { apply sysMapBlockFile_spec. wsimpl. rewrite lookup_insert_eq. by eexists. }
    intros [r pMap'] w1
      (o & o' & Htr & Hres & Hwf & Hfds & Hfiles & Hfail & Hok).
    injection Hres as -> ->. wsimpl. cbn [fst snd].
    assert (Hclosed : delete mapf (os_fds w1) = os_fds w).
    { rewrite Hfds, insert_insert_eq. by apply heap_restore. }
    assert (Hopen : is_Some (os_fds w1 !! mapf)).
    { rewrite Hfds, lookup_insert_eq. by eexists. }
    destruct (block_ret o =? 0) eqn:Er; cbn [negb].
    + apply wp_bind, wp_fclose; [done |]. apply wp_ret.
      exists (RBlock fn1 mapf o). wsimpl. simpl. rewrite Er. simpl.
      rewrite Htr, Hclosed, Hfiles, <- !app_assoc. simpl.
      repeat (split; try done).
      destruct Hok as (p & arr & Hr & Hp & Hh); [lia |]. by rewrite Hr.
    + apply wp_bind, wp_LOG. apply wp_bind, wp_fclose; [done |]. apply wp_ret.
      exists (RBlock fn1 mapf o). wsimpl. simpl. rewrite Er. simpl.
      rewrite Htr, Hclosed, Hfiles, <- !app_assoc. simpl.
      repeat (split; try done); apply Hfail; lia.
  - (* a regular file *)
    apply wp_bind, wp_open.
    2:{ intros Hnone. simpl. apply wp_bind, wp_LOG, wp_ret. exists RNoFile.
        wsimpl. rewrite <- app_assoc. by simpl. }
    intros fd node Hfd Hnode.
    pose proof (fresh_fd_fresh (os_fds w)) as Hfresh. rewrite <- Hfd in Hfresh.
    pose proof (fresh_fd_nonneg (os_fds w)) as Hfd0. rewrite <- Hfd in Hfd0.
    destruct (fd =? -1) eqn:Efd; [lia |]. clear Efd.
    apply wp_bind. eapply wp_mono; [apply sysMapFD_spec |].
    intros [ok pMap'] w1
      (start & end_ & r & o & Htr & Hres & Hwf & Hfds & Hfiles & Hreg & Hmem).
    injection Hres as -> ->. wsimpl. cbn [fst snd].
    assert (Hclosed : delete fd (os_fds w1) = os_fds w).
    { rewrite Hfds. by apply heap_restore. }
    assert (Hfact : ∀ size, node_size node = Some size →
                      0 ≤ size ≤ LOFF_MAX → start = 0 ∧ end_ = size ∧ r = 0).
    { intros size Hsize Hbound.
      apply (Hreg (mkOpen node 0) size);
        [apply lookup_insert_eq | done | simpl; unfold LOFF_MAX; lia | done]. }
    destruct (fd_ret o) eqn:Er; cbn [negb].
    + apply wp_bind, wp_close, wp_ret.
      exists (RDirect fd start end_ r o). wsimpl. simpl. rewrite Er. simpl.
      rewrite Htr, Hclosed, Hfiles, <- !app_assoc. simpl.
      repeat (split; try done). by exists node.
    + apply wp_bind, wp_LOG. apply wp_bind, wp_close, wp_ret.
      exists (RDirect fd start end_ r o). wsimpl. simpl. rewrite Er. simpl.
      rewrite Htr, Hclosed, Hfiles, <- !app_assoc. simpl.
      repeat (split; try done). by exists node.
Qed.

(** Every call of [sysMapFile] returns, in a state described by a run. *)
Lemma sysMapFile_returns fn pMap w :
  ∃ res w', sysMapFile fn pMap w = Ok res w' ∧ run_post fn w res w'.
Proof. apply wp_returns, sysMapFile_spec. Qed.

Lemma sysMapFile_run fn pMap w res w' :
  sysMapFile fn pMap w = Ok res w' → run_post fn w res w'.
Proof. apply wp_run, sysMapFile_spec. Qed.

(** ** Runs of [sysReleaseMap] *)

Lemma release_ranges_spec p n : ∀ i w done todo,
  os_heap w !! p = Some (done ++ todo) → p ≠ 0 →
  i = Z.of_nat (length done) → length todo = n →
  wp (release_ranges n p i) w (λ _ w',
    os_trace w' = os_trace w ++ release_events todo
    ∧ os_heap w' = os_heap w ∧ os_fds w' = os_fds w
    ∧ os_files w' = os_files w).
Proof.
  induction n as [| n IH]; intros i w done todo Hheap Hp Hi Hlen.
  - destruct todo; [| done]. apply wp_ret. by rewrite app_nil_r.
  - destruct todo as [| r todo]; [done |]. simpl in Hlen.
    simpl release_ranges. apply wp_bind.
    eapply wp_load_range; [done | done | lia | |].
    { rewrite Hi, Nat2Z.id, lookup_app_r, Nat.sub_diag by lia. done. }
    assert (Hnext : wp (release_ranges n p (i + 1))
              (emit (EvMunmap (mr_addr r) (mr_length r) 0)
                    (upd_vm (unmap_range (mr_addr r) (mr_length r)) w))
              (λ _ w', os_trace w' = (os_trace w ++
                         [EvMunmap (mr_addr r) (mr_length r) 0])
                         ++ release_events todo
                       ∧ os_heap w' = os_heap w ∧ os_fds w' = os_fds w
                       ∧ os_files w' = os_files w)).
    { eapply wp_mono.
      - apply (IH _ _ (done ++ [r]) todo); wsimpl.
        + by rewrite <- app_assoc.
        + done.
        + rewrite length_app. simpl. lia.
        + lia.
      - intros ? w'. by wsimpl. }
    apply wp_bind, wp_munmap.
    + intros Hl. cbn [Z.ltb Z.compare]. apply wp_bind, wp_ret.
      eapply wp_mono; [exact Hnext |].
      intros ? w' (Htr & Hh & Hf & Hfi). rewrite Htr.
      unfold release_events at 2. simpl.
      destruct (0 <? mr_length r) eqn:E; [| lia].
      rewrite <- app_assoc. done.
    + intros Hl. cbn [Z.ltb Z.compare]. apply wp_bind, wp_LOG.
      eapply wp_mono.
      { apply (IH _ _ (done ++ [r]) todo); wsimpl.
        + by rewrite <- app_assoc.
        + done.
        + rewrite length_app. simpl. lia.
        + lia. }
      intros ? w' (Htr & Hh & Hf & Hfi). wsimpl. rewrite Htr.
      unfold release_events at 2. simpl.
      destruct (0 <? mr_length r) eqn:E; [lia |].
      rewrite <- !app_assoc. done.
Qed.

Lemma sysReleaseMap_spec pMap w arr :
  holds pMap w arr →
  wp (sysReleaseMap pMap) w (λ pMap' w',
    pMap' = released pMap
    ∧ os_trace w' = os_trace w ++ release_events arr
                    ++ [EvFree (mm_ranges pMap)]
    ∧ os_heap w' = (if mm_ranges pMap =? 0 then os_heap w
                    else delete (mm_ranges pMap) (os_heap w))
    ∧ os_fds w' = os_fds w ∧ os_files w' = os_files w).
Proof.
  intros [Hcount Harr]. unfold sysReleaseMap.
  destruct (mm_ranges pMap =? 0) eqn:Ep.
  - apply Z.eqb_eq in Ep. subst arr. simpl in Hcount.
    rewrite <- Hcount, Ep. simpl.
    by apply wp_bind, wp_ret, wp_bind, wp_free_null, wp_ret.
  - apply wp_bind. eapply wp_mono.
    { apply (release_ranges_spec _ _ 0 w [] arr); [done | lia | done |].
      rewrite <- Hcount. by rewrite Nat2Z.id. }
    intros ? w' (Htr & Hh & Hf & Hfi).
    apply wp_bind. eapply wp_free; [by rewrite Hh | lia |].
    apply wp_ret. wsimpl. rewrite Htr, Hh, Hf, Hfi, <- app_assoc. done.
Qed.

(** ** The direct-file strategy *)

(** C1, as the code has it: for every empty regular file named by a path
    without the block-map mark, [sysMapFile] logs "file is empty" and then
    returns 0, the success value, with the handle left zeroed. The -1 that
    [sysMapFD] returns for the failure of [getFileStartAndLength] is
    converted to the [bool] value [true]. *)
Theorem C1_empty_file_returns_success (p : string) (pMap : MemMapping)
    (w : World) :
  block_map_name (Some p) = None →
  os_files w !! p = Some (RegularFile "") →
  ∃ fd w',
    sysMapFile (Some p) pMap w = Ok (0, zeroed) w'
    ∧ os_trace w' = os_trace w ++
        [EvOpen (Some p) fd; EvLseek fd 0 SEEK_CUR 0; EvLseek fd 0 SEEK_END 0;
         EvLseek fd 0 SEEK_SET 0; EvLog LogFileEmpty; EvClose fd].
Proof.
  intros Hname Hfile.
  destruct (sysMapFile_returns (Some p) pMap w)
    as ([r pMap'] & w' & Hrun & run & Htr & Hres & Hwf & _).
  destruct run as [fn1 | fn1 mapf o | | fd start end_ r0 o];
    cbn [run_wf] in Hwf.
  - destruct Hwf as [E _]. congruence.
  - destruct Hwf as [E _]. congruence.
  - destruct Hwf as [_ E]. simpl in E. congruence.
  - destruct Hwf as (_ & _ & _ & Hfd & node & Hnode & Hfact).
    simpl in Hnode. rewrite Hfile in Hnode. injection Hnode as <-.
    destruct (Hfact 0) as (-> & -> & ->); [done | unfold LOFF_MAX; lia |].
    exists fd, w'. rewrite Hrun, Htr.
    destruct o; simpl in Hfd; try (by destruct Hfd as [? | [? | ?]]);
      try (exfalso; by vm_compute in Hfd); try (by destruct Hfd).
    injection Hres as -> ->. done.
Qed.

Lemma C1_empty_file_witness :
  ∃ fd w',
    sysMapFile (Some "/sdcard/empty") zeroed (demo_world "" [Some 4096] [Some 64])
    = Ok (0, zeroed) w'
    ∧ os_trace w' =
        [EvOpen (Some "/sdcard/empty") fd; EvLseek fd 0 SEEK_CUR 0;
         EvLseek fd 0 SEEK_END 0; EvLseek fd 0 SEEK_SET 0;
         EvLog LogFileEmpty; EvClose fd].
Proof.
  apply (C1_empty_file_returns_success "/sdcard/empty" zeroed
           (demo_world "" [Some 4096] [Some 64])); reflexivity.
Defined.

(** C10: a regular file of size [N > 0], named by a path without the
    block-map mark, for which [sysMapFile] returns 0: the handle has
    logical length [N] and exactly one range, of length [N], whose address
    is the base of the handle. *)
Theorem C10_direct_file_handle (p data : string) (pMap pMap' : MemMapping)
    (w w' : World) :
  block_map_name (Some p) = None →
  os_files w !! p = Some (RegularFile data) →
  0 < Z.of_nat (String.length data) ≤ LOFF_MAX →
  sysMapFile (Some p) pMap w = Ok (0, pMap') w' →
  mm_length pMap' = Z.of_nat (String.length data)
  ∧ mm_range_count pMap' = 1
  ∧ ∃ r, os_heap w' !! mm_ranges pMap' = Some [r]
         ∧ mr_length r = Z.of_nat (String.length data)
         ∧ mm_addr pMap' = mr_addr r.
Proof.
  intros Hname Hfile HN Hrun.
  destruct (sysMapFile_run _ _ _ _ _ Hrun)
    as (run & Htr & Hres & Hwf & _ & _ & Hmem).
  destruct run as [fn1 | fn1 mapf o | | fd start end_ r0 o];
    cbn [run_wf] in Hwf.
  - destruct Hwf as [E _]. congruence.
  - destruct Hwf as [E _]. congruence.
  - destruct Hwf as [_ E]. simpl in E. congruence.
  - destruct Hwf as (_ & _ & _ & Hfd & node & Hnode & Hfact).
    simpl in Hnode. rewrite Hfile in Hnode. injection Hnode as <-.
    destruct (Hfact _ eq_refl) as (-> & -> & ->); [lia |].
    assert (Elen : fd_length 0 (Z.of_nat (String.length data))
                   = Z.of_nat (String.length data)).
    { unfold fd_length, to_size_t. rewrite Z.sub_0_r.
      apply Z.mod_small. unfold LOFF_MAX in HN. lia. }
    destruct o; simpl in Hfd, Hres, Hmem; rewrite ?Elen in *;
      simplify_eq; try lia.
    destruct Hmem as [_ Hh]. simpl. rewrite Hh, lookup_insert_eq.
    repeat split. by eexists.
Qed.

Lemma C10_direct_file_witness :
  ∃ pMap' w',
    sysMapFile (Some "/sdcard/ota.zip") zeroed
               (demo_world "" [Some 4096] [Some 64]) = Ok (0, pMap') w'
    ∧ mm_length pMap' = 4 ∧ mm_range_count pMap' = 1
    ∧ ∃ r, os_heap w' !! mm_ranges pMap' = Some [r]
           ∧ mr_length r = 4 ∧ mm_addr pMap' = mr_addr r.
Proof.
  eexists _, _. split; [vm_compute; reflexivity |].
  apply (C10_direct_file_handle "/sdcard/ota.zip" "PK34" zeroed _
           (demo_world "" [Some 4096] [Some 64]));
    [reflexivity | reflexivity | simpl; unfold LOFF_MAX; lia
    | vm_compute; reflexivity].
Defined.

(** ** Handles and their release *)

Lemma length_layout blksize exts : ∀ next,
  length (layout blksize next exts) = length exts.
Proof. induction exts as [| x t IH]; intros next; simpl; [done | by rewrite IH]. Qed.

Lemma layout_positive blksize exts : ∀ next,
  0 < blksize → Forall good_ext exts →
  Forall (λ r, 0 < mr_length r) (layout blksize next exts).
Proof.
  induction exts as [| x t IH]; intros next Hb Hg; simpl; [constructor |].
  inversion Hg as [| ? ? [Hx _] Ht]; subst.
  constructor; [unfold ext_len; simpl; nia | by apply IH].
Qed.

(** A run that returned 0 leaves a handle that holds its range array; the
    ranges are not empty. *)
Lemma built_handle fn w res w' :
  run_post fn w res w' → res.1 = 0 →
  ∃ arr, holds res.2 w' arr ∧ Forall (λ r, 0 < mr_length r) arr.
Proof.
  intros (run & _ & -> & Hwf & _ & _ & Hmem) Hret. cbn [fst snd] in *.
  destruct run as [fn1 | fn1 mapf o | | fd start end_ r0 o];
    cbn [run_wf run_ret] in Hwf, Hret; try done.
  - destruct Hwf as (_ & _ & _ & Hwf).
    destruct (block_ret o =? 0) eqn:Er; [| done].
    cbn [run_ranges run_map] in *. rewrite Er in Hmem.
    destruct o as [| | | | | | h p reserve fd exts [st |]]; try done.
    cbn [block_ranges block_map] in *. rewrite Er.
    destruct Hmem as [_ Hh].
    destruct Hwf as (Hv & Hp & _ & _ & _ & Hgood & _ & Hlen & _).
    destruct Hv as (_ & Hb & _).
    exists (layout (h_blksize h) reserve exts). split.
    + split; simpl.
      * rewrite length_layout. by apply Hlen.
      * destruct (p =? 0) eqn:Ep; [lia |]. by rewrite Hh, lookup_insert_eq.
    + apply layout_positive; [lia | done].
  - destruct Hwf as (_ & _ & _ & Hfd & _).
    destruct o; cbn [fd_ret negb bool_of_int] in Hret; try done;
      cbn [run_ranges run_map fd_ranges fd_map fd_wf] in *.
    + exists []. by repeat split.
    + exists []. by repeat split.
    + destruct Hmem as [_ Hh]. destruct Hfd as [Hlen Hp].
      exists [mkRange memPtr (fd_length start end_)]. split.
      * split; simpl; [done |].
        destruct (p =? 0) eqn:Ep; [lia |]. by rewrite Hh, lookup_insert_eq.
      * repeat constructor. simpl. unfold fd_length, to_size_t in *.
        pose proof (Z.mod_pos_bound (end_ - start) (2 ^ 64)). lia.
Qed.

Lemma release_events_positive arr :
  Forall (λ r, 0 < mr_length r) arr →
  release_events arr
  = map (λ r, EvMunmap (mr_addr r) (mr_length r) 0) arr.
Proof.
  induction 1 as [| r arr Hr _ IH]; [done |].
  change (release_events (r :: arr))
    with ((if 0 <? mr_length r then [EvMunmap (mr_addr r) (mr_length r) 0]
           else [EvMunmap (mr_addr r) (mr_length r) (-1);
                 EvLog (LogMunmapFailed (mr_addr r) (mr_length r))])
          ++ release_events arr).
  rewrite IH. destruct (0 <? mr_length r) eqn:E; [done | lia].
Qed.

(** C7: on a handle that [sysMapFile] built, [sysReleaseMap] issues one
    [munmap] per range, with the address and the length of that range, in
    order, then frees the range array, and leaves the handle with no ranges
    ([range_count] 0, [ranges] NULL). A second [sysReleaseMap] on that
    handle returns as well: it issues no [munmap], its only call is
    [free(NULL)], and the address space, the heap and the descriptor table
    are unchanged. *)
Theorem C7_release_then_release (fn : option string) (pMap pMap1 : MemMapping)
    (w w1 : World) :
  sysMapFile fn pMap w = Ok (0, pMap1) w1 →
  ∃ arr pMap2 w2 w3,
    holds pMap1 w1 arr
    ∧ sysReleaseMap pMap1 w1 = Ok pMap2 w2
    ∧ os_trace w2 = os_trace w1
                    ++ map (λ r, EvMunmap (mr_addr r) (mr_length r) 0) arr
                    ++ [EvFree (mm_ranges pMap1)]
    ∧ (mm_ranges pMap1 ≠ 0 → os_heap w2 !! mm_ranges pMap1 = None)
    ∧ pMap2 = released pMap1
    ∧ mm_range_count pMap2 = 0 ∧ mm_ranges pMap2 = 0
    ∧ sysReleaseMap pMap2 w2 = Ok pMap2 w3
    ∧ os_trace w3 = os_trace w2 ++ [EvFree 0]
    ∧ os_vm w3 = os_vm w2 ∧ os_heap w3 = os_heap w2
    ∧ os_fds w3 = os_fds w2.
Proof.
  intros Hrun. apply sysMapFile_run in Hrun.
  destruct (built_handle _ _ _ _ Hrun eq_refl) as (arr & Hholds & Hpos).
  cbn [snd] in Hholds.
  destruct (wp_returns _ _ _ (sysReleaseMap_spec pMap1 w1 arr Hholds))
    as (pMap2 & w2 & Hrel & -> & Htr & Hheap & _).
  exists arr, (released pMap1), w2, (emit (EvFree 0) w2).
  rewrite release_events_positive in Htr by done.
  split; [done |]. repeat split; try done.
  intros Hp. rewrite Hheap.
  destruct (mm_ranges pMap1 =? 0) eqn:E; [lia |]. apply lookup_delete_eq.
Qed.

Lemma C7_release_witness :
  ∃ pMap1 w1 arr pMap2 w2 w3,
    sysMapFile (Some "@/cache/block.map") zeroed
      (demo_world two_extents [Some 4096; Some 0; Some 0] [Some 64])
    = Ok (0, pMap1) w1
    ∧ holds pMap1 w1 arr
    ∧ sysReleaseMap pMap1 w1 = Ok pMap2 w2
    ∧ os_trace w2 = os_trace w1
                    ++ map (λ r, EvMunmap (mr_addr r) (mr_length r) 0) arr
                    ++ [EvFree (mm_ranges pMap1)]
    ∧ (mm_ranges pMap1 ≠ 0 → os_heap w2 !! mm_ranges pMap1 = None)
    ∧ pMap2 = released pMap1
    ∧ mm_range_count pMap2 = 0 ∧ mm_ranges pMap2 = 0
    ∧ sysReleaseMap pMap2 w2 = Ok pMap2 w3
    ∧ os_trace w3 = os_trace w2 ++ [EvFree 0]
    ∧ os_vm w3 = os_vm w2 ∧ os_heap w3 = os_heap w2
    ∧ os_fds w3 = os_fds w2.
Proof.
  eexists _, _.
  assert (H : sysMapFile (Some "@/cache/block.map") zeroed
      (demo_world two_extents [Some 4096; Some 0; Some 0] [Some 64])
      = Ok (0, _) _) by (vm_compute; reflexivity).
  destruct (C7_release_then_release _ _ _ _ _ H)
    as (arr & pMap2 & w2 & w3 & Hc).
  exists arr, pMap2, w2, w3. split; [exact H | exact Hc].
Defined.

(** ** Observations on traces *)

Ltac in_cases H :=
  repeat (simpl in H;
          match type of H with
          | In _ (_ ++ _) => apply in_app_or in H; destruct H as [H | H]
          | _ ∨ _ => destruct H as [H | H]
          | False => destruct H
          end).

Lemma walk_events_In x mapf fd blksize exts : ∀ next,
  In x (walk_events mapf fd blksize next exts) →
  (∃ s e, x = EvFscanf mapf FmtRange 2 [s; e])
  ∨ (∃ a l off, x = EvMmap a l PROT_READ [MAP_PRIVATE; MAP_FIXED] fd off a).
Proof.
  induction exts as [| [s e] t IH]; intros next H; [done |].
  simpl in H. destruct H as [<- | [<- | H]]; eauto.
Qed.

(** ** The header of a block map *)

(** The header test, on values of the scanned types, in plain
    arithmetic. *)
Lemma header_rejected_iff size blksize count :
  0 ≤ size < 2 ^ 64 → 0 ≤ blksize < 2 ^ 32 → 0 ≤ count < 2 ^ 32 →
  header_rejected size blksize count = true
  ↔ size = 0 ∨ blksize = 0 ∨ count = 0
    ∨ (size - 1) / blksize + 1 > SIZE_MAX / blksize.
Proof.
  intros Hs Hb Hc.
  destruct (header_rejected size blksize count) eqn:E.
  - split; [intros _ | done].
    unfold header_rejected in E.
    destruct (size =? 0) eqn:E1; [lia |].
    destruct (blksize =? 0) eqn:E2; [lia |].
    destruct (count =? 0) eqn:E3; [lia |].
    rewrite orb_false_r in E. cbn [orb negb] in E.
    assert (H1 : to_size_t (size - 1) = size - 1).
    { unfold to_size_t. apply Z.mod_small. lia. }
    assert (0 ≤ (size - 1) / blksize ≤ size - 1).
    { split; [apply Z.div_pos; lia |]. apply Z.div_le_upper_bound; nia. }
    assert (H2 : to_size_t ((size - 1) / blksize + 1)
                 = (size - 1) / blksize + 1).
    { unfold to_size_t. apply Z.mod_small. lia. }
    rewrite H1, H2 in E. lia.
  - split; [done |]. intros H.
    destruct (header_accepted _ _ _ EmptyString Hs Hb Hc E)
      as ((Hs' & Hb' & Hc' & Htot) & _ & _).
    unfold h_total, h_blocks in Htot. simpl in *.
    assert ((size - 1) / blksize + 1 ≤ SIZE_MAX / blksize).
    { apply Z.div_le_lower_bound; lia. }
    lia.
Qed.

Lemma valid_header_accepted h :
  valid_header h →
  header_rejected (h_size h) (h_blksize h) (h_count h) = false.
Proof.
  intros (Hs & Hb & Hc & Htot).
  destruct (header_rejected _ _ _) eqn:E; [| done].
  apply header_rejected_iff in E; [| lia ..].
  assert ((h_size h - 1) / h_blksize h + 1 ≤ SIZE_MAX / h_blksize h).
  { apply Z.div_le_lower_bound; [lia |].
    unfold h_total, h_blocks in Htot. lia. }
  lia.
Qed.

(** The header a run of the block-map strategy scanned. *)
Lemma header_scanned mapf mapf' o vals :
  block_wf o →
  In (EvFscanf mapf' FmtHeader 3 vals) (block_events mapf o) →
  mapf' = mapf
  ∧ ∃ h, vals = [h_size h; h_blksize h; h_count h]
         ∧ (o = OInvalid h ∨ valid_header h).
Proof.
  intros Hwf H.
  destruct o as [| line n vs | h | h | h p | h p reserve
                 | h p reserve fd exts st]; cbn [block_wf] in Hwf.
  - in_cases H; done.
  - in_cases H; by simplify_eq.
  - in_cases H; simplify_eq. eauto.
  - in_cases H; simplify_eq. eauto.
  - in_cases H; simplify_eq. split; [done |]. exists h.
    split; [done |]. right. apply Hwf.
  - in_cases H; simplify_eq. split; [done |]. exists h.
    split; [done |]. right. apply Hwf.
  - unfold block_events in H.
    repeat (apply in_app_or in H; destruct H as [H | H]).
    + in_cases H; simplify_eq. split; [done |]. exists h.
      split; [done |]. right. apply Hwf.
    + in_cases H; done.
    + apply walk_events_In in H as [(s & e & H) | (a & l & off & H)]; done.
    + destruct st as [[] |]; in_cases H; simplify_eq.
    + destruct st as [st |]; [in_cases H; done |].
      destruct (_ =? _); in_cases H; done.
Qed.

(** C6: when the header that was scanned has a logical size of 0, a block
    size of 0, an extent count of 0, or a number of blocks
    [ceil(size / blksize)] above [SIZE_MAX / blksize], [sysMapFile] returns
    -1 and its only calls are the opening of the map file, the reading of
    the device line and of the header, the "invalid data" diagnostic (a
    ValidationError), and the closing of the map file: no extent line is
    read, nothing is mapped or allocated. *)
Theorem C6_invalid_header_rejected (fn : option string) (fn1 : string)
    (pMap : MemMapping) (w w' : World) (res : Z * MemMapping)
    (d : list Event) (mapf size blksize count : Z) :
  block_map_name fn = Some fn1 →
  sysMapFile fn pMap w = Ok res w' →
  os_trace w' = os_trace w ++ d →
  In (EvFscanf mapf FmtHeader 3 [size; blksize; count]) d →
  size = 0 ∨ blksize = 0 ∨ count = 0
  ∨ (size - 1) / blksize + 1 > SIZE_MAX / blksize →
  res.1 = -1
  ∧ (∃ line,
       d = [EvFopen fn1 (Some mapf); EvFgets mapf (Some line);
            EvFscanf mapf FmtHeader 3 [size; blksize; count];
            EvLog (LogInvalidHeader size blksize count);
            EvLog (LogMapOfFailed fn); EvFclose mapf])
  ∧ reported d = [ValidationError]
  ∧ os_vm w' = os_vm w ∧ os_heap w' = os_heap w ∧ os_fds w' = os_fds w.
Proof.
  intros Hname Hrun Htr Hin Hbad.
  destruct (sysMapFile_run _ _ _ _ _ Hrun)
    as (run & Htr' & -> & Hwf & Hfds & _ & Hmem).
  rewrite Htr' in Htr. apply app_inv_head in Htr. subst d.
  destruct run as [fn1' | fn1' mapf' o | | fd start end_ r0 o];
    cbn [run_wf] in Hwf.
  - in_cases Hin; done.
  - destruct Hwf as (E & _ & _ & Hwf).
    rewrite Hname in E. injection E as <-.
    assert (Hin' : In (EvFscanf mapf FmtHeader 3 [size; blksize; count])
                      (block_events mapf' o)).
    { in_cases Hin; try done. destruct (negb _); in_cases Hin; done. }
    destruct (header_scanned _ _ _ _ Hwf Hin') as (-> & h & Hh & Ho).
    injection Hh as -> -> ->.
    destruct Ho as [-> | Hv].
    + simpl in *. repeat split; try done; try apply Hmem. by exists (h_line h).
    + pose proof (valid_header_accepted h Hv) as Hacc.
      destruct Hv as (Hs & Hb & Hc & _).
      apply header_rejected_iff in Hbad; [congruence | lia ..].
  - destruct Hwf as [E _]. congruence.
  - destruct Hwf as [E _]. congruence.
Qed.

Lemma C6_invalid_header_witness :
  ∃ w',
    sysMapFile (Some "@/cache/block.map") zeroed
      (demo_world (text_of_lines ["/dev/block/sda1"; "100 0"; "1"; "0 10"])
                  [Some 4096; Some 0] [Some 64])
    = Ok (-1, zeroed) w'
    ∧ os_trace w' =
        [EvFopen "/cache/block.map" (Some 0);
         EvFgets 0 (Some ("/dev/block/sda1" +:+ nl));
         EvFscanf 0 FmtHeader 3 [100; 0; 1]; EvLog (LogInvalidHeader 100 0 1);
         EvLog (LogMapOfFailed (Some "@/cache/block.map")); EvFclose 0]
    ∧ reported (os_trace w') = [ValidationError].
Proof.
  eexists. split; [vm_compute; reflexivity |].
  split; [reflexivity |].
  eapply (C6_invalid_header_rejected (Some "@/cache/block.map")
            "/cache/block.map" zeroed
            (demo_world (text_of_lines
                           ["/dev/block/sda1"; "100 0"; "1"; "0 10"])
                        [Some 4096; Some 0] [Some 64])
            _ _ _ 0 100 0 1).
  - reflexivity.
  - vm_compute. reflexivity.
  - reflexivity.
  - simpl. auto.
  - auto.
Defined.

(** ** Handles built by the block-map strategy *)

Lemma scanned_extents_app tr1 tr2 :
  scanned_extents (tr1 ++ tr2) = scanned_extents tr1 ++ scanned_extents tr2.
Proof. apply omap_app. Qed.

Lemma scanned_extents_walk mapf fd blksize exts : ∀ next,
  scanned_extents (walk_events mapf fd blksize next exts) = exts.
Proof.
  induction exts as [| [s e] t IH]; intros next; [done |].
  simpl. unfold scanned_extents in *. simpl. by rewrite IH.
Qed.

Lemma sum_lengths_layout blksize exts : ∀ next,
  sum_lengths (layout blksize next exts) = bytes blksize exts.
Proof.
  induction exts as [| x t IH]; intros next; [done |].
  rewrite bytes_cons. simpl. by rewrite IH.
Qed.

Lemma layout_lookup_length blksize exts : ∀ next i r x,
  layout blksize next exts !! i = Some r → exts !! i = Some x →
  mr_length r = (x.2 - x.1) * blksize.
Proof.
  induction exts as [| y t IH]; intros next i r x Hr Hx; [done |].
  destruct i as [| i]; simpl in *.
  - by simplify_eq.
  - by eapply IH.
Qed.

Lemma layout_head blksize exts next r :
  layout blksize next exts !! 0%nat = Some r → mr_addr r = next.
Proof. destruct exts; simpl; [done |]. by intros [= <-]. Qed.

Lemma layout_consecutive blksize exts : ∀ next i r r',
  layout blksize next exts !! i = Some r →
  layout blksize next exts !! S i = Some r' →
  mr_addr r' = mr_addr r + mr_length r.
Proof.
  induction exts as [| y t IH]; intros next i r r' Hr Hr'; [done |].
  destruct i as [| i]; simpl in *.
  - simplify_eq. simpl. by apply layout_head in Hr'.
  - by eapply IH.
Qed.

(** A run of the block-map strategy that returned 0. *)
Lemma block_success fn fn1 pMap pMap' w w' :
  block_map_name fn = Some fn1 →
  sysMapFile fn pMap w = Ok (0, pMap') w' →
  ∃ mapf h p reserve fd exts,
    os_trace w' = os_trace w
                  ++ run_events fn
                       (RBlock fn1 mapf (OWalked h p reserve fd exts None))
    ∧ valid_header h ∧ Forall good_ext exts
    ∧ bytes (h_blksize h) exts = h_total h
    ∧ Z.of_nat (length exts) = h_count h
    ∧ pMap' = mkMap reserve (h_size h) (h_count h) p
    ∧ os_heap w' !! p = Some (layout (h_blksize h) reserve exts)
    ∧ 0 < reserve ∧ reserve + h_total h ≤ MAP_FAILED.
Proof.
  intros Hname Hrun.
  destruct (sysMapFile_run _ _ _ _ _ Hrun)
    as (run & Htr & Hres & Hwf & _ & _ & Hmem).
  destruct run as [fn1' | fn1' mapf o | | fd start end_ r0 o];
    cbn [run_wf] in Hwf; try (destruct Hwf as [E _]; congruence);
    try done.
  destruct Hwf as (E & _ & _ & Hwf).
  rewrite Hname in E. injection E as <-.
  cbn [run_ret run_map run_ranges] in *.
  destruct (block_ret o =? 0) eqn:Er; [| done]. cbn [negb] in Hres.
  destruct o as [| | | | | | h p reserve fd exts [st |]]; try done.
  cbn [block_ret] in Er.
  destruct (bytes (h_blksize h) exts =? h_total h) eqn:Eb; [| done].
  cbn [block_ranges block_map block_ret block_wf] in *. rewrite Eb in *.
  destruct Hmem as [_ Hh].
  destruct Hwf as (Hv & Hp & _ & Hr0 & Hr1 & Hgood & _ & Hlen & _).
  exists mapf, h, p, reserve, fd, exts. rewrite Hh, lookup_insert_eq.
  injection Hres as ->.
  repeat split; try done; try lia; try apply Hv; by apply Hlen.
Qed.

(** The header read is in the trace of such a run, and the extents read are
    those placed. *)
Lemma block_success_trace fn fn1 mapf h p reserve fd exts :
  In (EvFscanf mapf FmtHeader 3 [h_size h; h_blksize h; h_count h])
     (run_events fn (RBlock fn1 mapf (OWalked h p reserve fd exts None)))
  ∧ scanned_extents
      (run_events fn (RBlock fn1 mapf (OWalked h p reserve fd exts None)))
    = exts.
Proof.
  split.
  - simpl. auto.
  - unfold run_events, block_events, header_events.
    change (EvFopen fn1 (Some mapf) :: ?l) with ([EvFopen fn1 (Some mapf)] ++ l).
    rewrite !scanned_extents_app, scanned_extents_walk.
    destruct (_ =? _), (negb _); simpl; by rewrite ?app_nil_r.
Qed.

(** Rounding [size] up to a whole number of blocks gives [size] itself
    exactly when the block size divides [size]. *)
Lemma h_total_exact h :
  0 < h_size h → 0 < h_blksize h →
  h_total h = h_size h ↔ (h_blksize h | h_size h).
Proof.
  intros Hs Hb. pose proof (h_total_bounds h Hs Hb) as Hbound.
  split.
  - intros <-. unfold h_total. apply Z.divide_factor_r.
  - intros [k Hk]. unfold h_total in *.
    set (m := h_blocks h) in *. set (b := h_blksize h) in *.
    rewrite Hk in *.
    assert (k ≤ m) by nia. assert (m < k + 1) by nia.
    replace m with k by lia. done.
Qed.

(** C2, as the code has it: the lengths of the ranges of a handle built by
    the block-map strategy add up to the size of the reservation, which is
    the logical length rounded up to a whole number of blocks; the sum is
    the logical length itself exactly when the block size divides it. *)
Theorem C2_range_lengths_sum (fn : option string) (fn1 : string)
    (pMap pMap' : MemMapping) (w w' : World) :
  block_map_name fn = Some fn1 →
  sysMapFile fn pMap w = Ok (0, pMap') w' →
  ∃ arr d mapf blksize,
    os_heap w' !! mm_ranges pMap' = Some arr
    ∧ os_trace w' = os_trace w ++ d
    ∧ In (EvFscanf mapf FmtHeader 3 [mm_length pMap'; blksize; mm_range_count pMap']) d
    ∧ 0 < blksize
    ∧ sum_lengths arr = ((mm_length pMap' - 1) / blksize + 1) * blksize
    ∧ mm_length pMap' ≤ sum_lengths arr < mm_length pMap' + blksize
    ∧ (sum_lengths arr = mm_length pMap' ↔ (blksize | mm_length pMap')).
Proof.
  intros Hname Hrun.
  destruct (block_success _ _ _ _ _ _ Hname Hrun)
    as (mapf & h & p & reserve & fd & exts & Htr & Hv & Hgood & Hbytes
        & Hlen & -> & Hheap & _).
  destruct Hv as (Hs & Hb & Hc & Htot).
  exists (layout (h_blksize h) reserve exts),
    (run_events fn (RBlock fn1 mapf (OWalked h p reserve fd exts None))),
    mapf, (h_blksize h).
  cbn [mm_ranges mm_length mm_range_count].
  rewrite sum_lengths_layout, Hbytes.
  repeat split; try done; try lia.
  - apply block_success_trace.
  - apply h_total_bounds; lia.
  - apply h_total_bounds; lia.
  - apply h_total_exact; lia.
  - apply h_total_exact; lia.
Qed.

Lemma C2_range_lengths_witness :
  ∃ pMap' w' arr d mapf blksize,
    sysMapFile (Some "@/cache/block.map") zeroed
      (demo_world padded_map [Some 4096; Some 0] [Some 64]) = Ok (0, pMap') w'
    ∧ os_heap w' !! mm_ranges pMap' = Some arr
    ∧ os_trace w' = d
    ∧ In (EvFscanf mapf FmtHeader 3 [mm_length pMap'; blksize; mm_range_count pMap']) d
    ∧ 0 < blksize
    ∧ sum_lengths arr = ((mm_length pMap' - 1) / blksize + 1) * blksize
    ∧ mm_length pMap' ≤ sum_lengths arr < mm_length pMap' + blksize
    ∧ (sum_lengths arr = mm_length pMap' ↔ (blksize | mm_length pMap')).
Proof.
  eexists _, _.
  assert (H : sysMapFile (Some "@/cache/block.map") zeroed
      (demo_world padded_map [Some 4096; Some 0] [Some 64])
      = Ok (0, _) _) by (vm_compute; reflexivity).
  destruct (C2_range_lengths_sum (Some "@/cache/block.map")
              "/cache/block.map" _ _ _ _ eq_refl H)
    as (arr & d & mapf & blksize & Hc).
  exists arr, d, mapf, blksize. split; [exact H | exact Hc].
Defined.

(** C2 as stated fails: a block map of 95 bytes in blocks of 10 with the
    single extent [0,10) is mapped with logical length 95 and one range of
    100 bytes. *)
Lemma C2_counterexample :
  ∃ pMap' w' arr,
    sysMapFile (Some "@/cache/block.map") zeroed
      (demo_world padded_map [Some 4096; Some 0] [Some 64]) = Ok (0, pMap') w'
    ∧ os_heap w' !! mm_ranges pMap' = Some arr
    ∧ mm_length pMap' = 95 ∧ sum_lengths arr = 100
    ∧ sum_lengths arr ≠ mm_length pMap'.
Proof.
  eexists _, _, _. split; [vm_compute; reflexivity |].
  split; [vm_compute; reflexivity |]. by vm_compute.
Qed.

(** C5: in a handle built by the block-map strategy the ranges are those of
    the extents in the order in which they were read, placed one after the
    other from the base: the first range starts at the base, every next one
    where the previous one ends, and each has the length
    [(block_end - block_start) * block_size] of its extent. In particular
    the extents [0,5) and [5,10) under the header [100 10] give two ranges
    of 50 bytes, the second 50 bytes after the first. *)
Theorem C5_ranges_in_file_order (fn : option string) (fn1 : string)
    (pMap pMap' : MemMapping) (w w' : World) :
  block_map_name fn = Some fn1 →
  sysMapFile fn pMap w = Ok (0, pMap') w' →
  ∃ arr d mapf size blksize count,
    os_heap w' !! mm_ranges pMap' = Some arr
    ∧ os_trace w' = os_trace w ++ d
    ∧ In (EvFscanf mapf FmtHeader 3 [size; blksize; count]) d
    ∧ arr = layout blksize (mm_addr pMap') (scanned_extents d)
    ∧ length arr = length (scanned_extents d)
    ∧ (∀ i r x, arr !! i = Some r → scanned_extents d !! i = Some x →
         mr_length r = (x.2 - x.1) * blksize)
    ∧ (∀ r, arr !! 0%nat = Some r → mr_addr r = mm_addr pMap')
    ∧ (∀ i r r', arr !! i = Some r → arr !! S i = Some r' →
         mr_addr r' = mr_addr r + mr_length r)
    ∧ (size = 100 → blksize = 10 → scanned_extents d = [(0, 5); (5, 10)] →
       arr = [mkRange (mm_addr pMap') 50; mkRange (mm_addr pMap' + 50) 50]).
Proof.
  intros Hname Hrun.
  destruct (block_success _ _ _ _ _ _ Hname Hrun)
    as (mapf & h & p & reserve & fd & exts & Htr & Hv & Hgood & Hbytes
        & Hlen & -> & Hheap & _).
  destruct (block_success_trace fn fn1 mapf h p reserve fd exts)
    as [Hin Hscan].
  exists (layout (h_blksize h) reserve exts),
    (run_events fn (RBlock fn1 mapf (OWalked h p reserve fd exts None))),
    mapf, (h_size h), (h_blksize h), (h_count h).
  cbn [mm_ranges mm_addr]. rewrite Hscan.
  split; [done |]. split; [done |]. split; [done |]. split; [done |].
  split; [apply length_layout |].
  split; [apply layout_lookup_length |].
  split; [intros r; apply layout_head |].
  split; [apply layout_consecutive |].
  by intros _ -> ->.
Qed.

Lemma C5_ranges_witness :
  ∃ pMap' w' arr d mapf size blksize count,
    sysMapFile (Some "@/cache/block.map") zeroed
      (demo_world two_extents [Some 4096; Some 0; Some 0] [Some 64])
    = Ok (0, pMap') w'
    ∧ os_heap w' !! mm_ranges pMap' = Some arr
    ∧ os_trace w' = d
    ∧ In (EvFscanf mapf FmtHeader 3 [size; blksize; count]) d
    ∧ arr = layout blksize (mm_addr pMap') (scanned_extents d)
    ∧ length arr = length (scanned_extents d)
    ∧ (∀ i r x, arr !! i = Some r → scanned_extents d !! i = Some x →
         mr_length r = (x.2 - x.1) * blksize)
    ∧ (∀ r, arr !! 0%nat = Some r → mr_addr r = mm_addr pMap')
    ∧ (∀ i r r', arr !! i = Some r → arr !! S i = Some r' →
         mr_addr r' = mr_addr r + mr_length r)
    ∧ (size = 100 → blksize = 10 → scanned_extents d = [(0, 5); (5, 10)] →
       arr = [mkRange (mm_addr pMap') 50; mkRange (mm_addr pMap' + 50) 50]).
Proof.
  eexists _, _.
  assert (H : sysMapFile (Some "@/cache/block.map") zeroed
      (demo_world two_extents [Some 4096; Some 0; Some 0] [Some 64])
      = Ok (0, _) _) by (vm_compute; reflexivity).
  destruct (C5_ranges_in_file_order (Some "@/cache/block.map")
              "/cache/block.map" _ _ _ _ eq_refl H)
    as (arr & d & mapf & size & blksize & count & Hc).
  exists arr, d, mapf, size, blksize, count. split; [exact H | exact Hc].
Defined.

(** The example of the specification, run: two ranges of 50 bytes, the
    second 50 bytes after the first. *)
Example two_extents_mapped :
  ∃ w',
    sysMapFile (Some "@/cache/block.map") zeroed
      (demo_world two_extents [Some 4096; Some 0; Some 0] [Some 64])
    = Ok (0, mkMap 4096 100 2 64) w'
    ∧ os_heap w' !! 64 = Some [mkRange 4096 50; mkRange 4146 50].
Proof. eexists. split; vm_compute; reflexivity. Qed.

(** ** Dispatch and descriptors *)

Lemma opened_walk mapf fd blksize exts : ∀ next,
  opened (walk_events mapf fd blksize next exts) = [].
Proof.
  induction exts as [| x t IH]; intros next; [done |].
  simpl. unfold opened in *. simpl. apply IH.
Qed.

Lemma opened_stop mapf fd blksize i next st :
  opened (stop_events mapf fd blksize i next st) = [].
Proof. by destruct st as [[] |]. Qed.

Lemma block_events_closed mapf o x :
  block_wf o →
  In x (opened (block_events mapf o)) → In x (closed (block_events mapf o)).
Proof.
  intros Hwf.
  destruct o as [| line n vs | h | h | h p | h p reserve
                 | h p reserve fd exts st]; try done.
  destruct Hwf as (_ & _ & Hfd & _).
  unfold block_events, opened, closed. rewrite !omap_app.
  fold (opened (walk_events mapf fd (h_blksize h) reserve exts)).
  fold (opened (stop_events mapf fd (h_blksize h) (Z.of_nat (length exts))
                  (reserve + bytes (h_blksize h) exts) st)).
  rewrite opened_walk, opened_stop. simpl.
  destruct (fd <? 0) eqn:E; [lia |]. simpl.
  intros [<- | H].
  - rewrite !in_app_iff. do 2 right.
    destruct st as [st |]; [simpl; auto |].
    destruct (_ =? _); simpl; auto.
  - exfalso. destruct st as [st |]; [done |].
    destruct (_ =? _); done.
Qed.

Lemma fd_events_opened fd start end_ r o :
  opened (fd_events fd start end_ r o) = [].
Proof. by destruct o. Qed.

(** A call of [sysMapFile], by the outcome of its test on the first
    character of the path: the first call, the strategy that gives the
    result, and the descriptors opened and closed. *)
Lemma sysMapFile_dispatch (fn : option string) (pMap : MemMapping)
    (w : World) :
  ∃ res w' d,
    sysMapFile fn pMap w = Ok res w'
    ∧ os_trace w' = os_trace w ++ d
    ∧ os_fds w' = os_fds w
    ∧ (∀ fd, In fd (opened d) → In fd (closed d))
    ∧ match block_map_name fn with
      | Some fn1 =>
          (∃ ret tl, d = EvFopen fn1 ret :: tl)
          ∧ ∀ mapf w1,
              fopen fn1 w = Ok (Some mapf) w1 →
              ∃ r pMap1 w2,
                sysMapBlockFile mapf zeroed w1 = Ok (r, pMap1) w2
                ∧ res = (if r =? 0 then 0 else -1, pMap1)
                ∧ os_trace w' =
                    os_trace w2
                    ++ (if r =? 0 then [] else [EvLog (LogMapOfFailed fn)])
                    ++ [EvFclose mapf]
      | None =>
          (∃ ret tl, d = EvOpen fn ret :: tl)
          ∧ ∀ fd w1,
              open fn w = Ok fd w1 → fd ≠ -1 →
              ∃ ok pMap1 w2,
                sysMapFD fd zeroed w1 = Ok (ok, pMap1) w2
                ∧ res = (if ok then 0 else -1, pMap1)
                ∧ os_trace w' =
                    os_trace w2
                    ++ (if ok then [] else [EvLog (LogMapOfFailed fn)])
                    ++ [EvClose fd]
      end.
Proof.
  destruct (sysMapFile_returns fn pMap w)
    as (res & w' & Hrun & run & Htr & Hres & Hwf & Hfds & _).
  exists res, w', (run_events fn run).
  split; [done |]. split; [done |]. split; [done |]. split.
  { (* what is opened is closed *)
    intros x. destruct run as [fn1 | fn1 mapf o | | fd start end_ r0 o];
      cbn [run_wf] in Hwf; try done.
    - destruct Hwf as (_ & _ & _ & Hwf).
      unfold run_events.
      change (EvFopen fn1 (Some mapf) :: ?l)
        with ([EvFopen fn1 (Some mapf)] ++ l).
      unfold opened, closed. rewrite !omap_app.
      fold (opened (block_events mapf o)). fold (closed (block_events mapf o)).
      rewrite !in_app_iff. intros [H | [H | [H | H]]].
      + in_cases H. subst x. do 3 right. simpl. auto.
      + right. left. by apply block_events_closed.
      + destruct (negb _); done.
      + done.
    - destruct Hwf as (_ & _ & Hfd & _).
      unfold run_events.
      change (EvOpen fn fd :: ?l) with ([EvOpen fn fd] ++ l).
      unfold opened, closed. rewrite !omap_app.
      fold (opened (fd_events fd start end_ r0 o)).
      rewrite fd_events_opened, !in_app_iff. simpl.
      destruct (fd <? 0) eqn:E; [lia |]. simpl.
      intros [[<- | []] | [[] | [H | []]]]; [auto |].
      destruct (negb _); done. }
  unfold sysMapFile, bind in Hrun.
  destruct (block_map_name fn) as [fn1 |] eqn:Efn.
  - split.
    { destruct run as [fn1' | fn1' mapf o | |]; cbn [run_wf] in Hwf;
        try (destruct Hwf as [E _]; congruence).
      - destruct Hwf as [E _]. rewrite Efn in E. injection E as <-.
        simpl. eauto.
      - destruct Hwf as [E _]. rewrite Efn in E. injection E as <-.
        simpl. eauto. }
    intros mapf w1 Hopen. rewrite Hopen in Hrun.
    assert (Hstream : is_Some (os_fds w1 !! mapf)).
    { unfold fopen in Hopen. destruct (os_files w !! fn1); [| done].
      injection Hopen as <- <-. wsimpl. rewrite lookup_insert_eq.
      by eexists. }
    destruct (wp_returns _ _ _ (sysMapBlockFile_spec mapf zeroed w1 Hstream))
      as ([r pMap1] & w2 & Hblock & o & o' & _ & _ & _ & Hfds2 & _).
    rewrite Hblock in Hrun. cbn [fst snd] in Hrun.
    assert (Hlive : os_fds w2 !! mapf = Some o').
    { by rewrite Hfds2, lookup_insert_eq. }
    exists r, pMap1, w2. split; [done |].
    unfold LOG, fclose, ret in Hrun.
    destruct (r =? 0); cbn [negb] in Hrun; wsimpl; rewrite Hlive in Hrun;
      injection Hrun as <- <-; wsimpl; by rewrite <- ?app_assoc.
  - split.
    { destruct run as [fn1' | fn1' mapf o | |]; cbn [run_wf] in Hwf;
        try (destruct Hwf as [E _]; congruence); simpl; eauto. }
    intros fd w1 Hopen Hfd. rewrite Hopen in Hrun.
    destruct (fd =? -1) eqn:E; [lia |].
    destruct (wp_returns _ _ _ (sysMapFD_spec fd zeroed w1))
      as ([ok pMap1] & w2 & Hmap & _).
    rewrite Hmap in Hrun. cbn [fst snd] in Hrun.
    exists ok, pMap1, w2. split; [done |].
    unfold LOG, close, ret in Hrun.
    destruct ok; cbn [negb] in Hrun;
      injection Hrun as <- <-; wsimpl; by rewrite <- ?app_assoc.
Qed.

(** The test of [sysMapFile] on the first character of the path: a path
    that begins with '@' is a block-map name, its rest the name of the map
    file; no other path is, and neither is NULL. *)
Lemma block_map_name_at (fn1 : string) :
  block_map_name (Some ("@" +:+ fn1)) = Some fn1.
Proof. done. Qed.

Lemma block_map_name_other (fn : option string) :
  (∀ fn1, fn ≠ Some ("@" +:+ fn1)) → block_map_name fn = None.
Proof.
  intros Hn. destruct fn as [[| c t] |]; [done | | done]. simpl.
  destruct (Ascii.eqb_spec c "@") as [-> |]; [| done].
  by destruct (Hn t).
Qed.

(** C9: [sysMapFile] always returns. For a path that begins with '@' its
    first call opens the rest of the path as a stream, and when that
    succeeds the result is that of [sysMapBlockFile] on this stream; for
    any other path (and for NULL) its first call opens the path itself, and
    when that succeeds the result is that of [sysMapFD] on this descriptor.
    Either way every descriptor opened during the call is closed during the
    call, and the descriptor table is left as it was. *)
Theorem C9_dispatch_and_descriptors (fn : option string) (pMap : MemMapping)
    (w : World) :
  ∃ res w' d,
    sysMapFile fn pMap w = Ok res w'
    ∧ os_trace w' = os_trace w ++ d
    ∧ os_fds w' = os_fds w
    ∧ (∀ fd, In fd (opened d) → In fd (closed d))
    ∧ (∀ fn1,
         fn = Some ("@" +:+ fn1) →
         (∃ ret tl, d = EvFopen fn1 ret :: tl)
         ∧ ∀ mapf w1,
             fopen fn1 w = Ok (Some mapf) w1 →
             ∃ r pMap1 w2,
               sysMapBlockFile mapf zeroed w1 = Ok (r, pMap1) w2
               ∧ res = (if r =? 0 then 0 else -1, pMap1)
               ∧ os_trace w' =
                   os_trace w2
                   ++ (if r =? 0 then [] else [EvLog (LogMapOfFailed fn)])
                   ++ [EvFclose mapf])
    ∧ ((∀ fn1, fn ≠ Some ("@" +:+ fn1)) →
         (∃ ret tl, d = EvOpen fn ret :: tl)
         ∧ ∀ fd w1,
             open fn w = Ok fd w1 → fd ≠ -1 →
             ∃ ok pMap1 w2,
               sysMapFD fd zeroed w1 = Ok (ok, pMap1) w2
               ∧ res = (if ok then 0 else -1, pMap1)
               ∧ os_trace w' =
                   os_trace w2
                   ++ (if ok then [] else [EvLog (LogMapOfFailed fn)])
                   ++ [EvClose fd]).
Proof.
  destruct (sysMapFile_dispatch fn pMap w)
    as (res & w' & d & Hrun & Htr & Hfds & Hclosed & Hd).
  exists res, w', d. do 4 (split; [done |]). split.
  - intros fn1 ->. by rewrite block_map_name_at in Hd.
  - intros Hn. by rewrite (block_map_name_other fn Hn) in Hd.
Qed.

Lemma C9_dispatch_witness :
  (∃ res w' ret tl,
     sysMapFile (Some "@/cache/block.map") zeroed
       (demo_world two_extents [Some 4096; Some 0; Some 0] [Some 64])
     = Ok res w'
     ∧ os_trace w' = EvFopen "/cache/block.map" ret :: tl)
  ∧ (∃ res w' ret tl,
       sysMapFile (Some "/sdcard/ota.zip") zeroed
         (demo_world two_extents [Some 4096] [Some 64])
       = Ok res w'
       ∧ os_trace w' = EvOpen (Some "/sdcard/ota.zip") ret :: tl).
Proof.
  split.
  - destruct (C9_dispatch_and_descriptors (Some "@/cache/block.map") zeroed
                (demo_world two_extents [Some 4096; Some 0; Some 0]
                            [Some 64]))
      as (res & w' & d & Hrun & Htr & _ & _ & Hat & _).
    destruct (Hat "/cache/block.map" eq_refl) as [(ret & tl & Hd) _].
    exists res, w', ret, tl. split; [exact Hrun |].
    rewrite Htr, Hd. reflexivity.
  - destruct (C9_dispatch_and_descriptors (Some "/sdcard/ota.zip") zeroed
                (demo_world two_extents [Some 4096] [Some 64]))
      as (res & w' & d & Hrun & Htr & _ & _ & _ & Hother).
    destruct Hother as [(ret & tl & Hd) _].
    { intros fn1 H. discriminate H. }
    exists res, w', ret, tl. split; [exact Hrun |].
    rewrite Htr, Hd. reflexivity.
Defined.

(** ** The handle after a failed call *)

(** C8: there are failing calls of [sysMapFile] that leave the handle with
    a range count that is not 0 and a range pointer that is NULL or freed,
    on which [sysReleaseMap] is not a no-op (it reads through that
    pointer): the direct-file strategy when [malloc] fails, the block-map
    strategy when [calloc] fails, and the block-map strategy when an extent
    is rejected after the array was allocated. *)
Theorem C8_failed_map_leaves_stale_handle :
  (∃ pMap' w',
     sysMapFile (Some "/sdcard/ota.zip") zeroed
                (demo_world "" [Some 4096] [None]) = Ok (-1, pMap') w'
     ∧ mm_range_count pMap' = 1 ∧ mm_ranges pMap' = 0
     ∧ pMap' ≠ zeroed
     ∧ sysReleaseMap pMap' w' = Crash NullDeref)
  ∧ (∃ pMap' w',
       sysMapFile (Some "@/cache/block.map") zeroed
                  (demo_world two_extents [Some 4096; Some 0; Some 0] [None])
       = Ok (-1, pMap') w'
       ∧ mm_range_count pMap' = 2 ∧ mm_ranges pMap' = 0
       ∧ pMap' ≠ zeroed
       ∧ sysReleaseMap pMap' w' = Crash NullDeref)
  ∧ (∃ pMap' w',
       sysMapFile (Some "@/cache/block.map") zeroed
                  (demo_world reversed_extent [Some 4096; Some 0] [Some 64])
       = Ok (-1, pMap') w'
       ∧ mm_range_count pMap' = 2 ∧ mm_ranges pMap' = 64
       ∧ os_heap w' !! 64 = None
       ∧ pMap' ≠ zeroed
       ∧ sysReleaseMap pMap' w' = Crash Dangling).
Proof.
  split; [| split]; eexists _, _;
    (split; [vm_compute; reflexivity |]); repeat split; done.
Qed.

(** ** Reserved and placed bytes *)

Lemma mmaps_app flag tr1 tr2 :
  mmaps flag (tr1 ++ tr2) = mmaps flag tr1 ++ mmaps flag tr2.
Proof. apply omap_app. Qed.

Lemma total_len_app l1 l2 : total_len (l1 ++ l2) = total_len l1 + total_len l2.
Proof.
  induction l1 as [| x l1 IH]; simpl; [done |].
  unfold total_len in *. simpl. rewrite IH. lia.
Qed.

Lemma reserved_app tr1 tr2 : reserved (tr1 ++ tr2) = reserved tr1 + reserved tr2.
Proof. unfold reserved. by rewrite mmaps_app, total_len_app. Qed.

Lemma placed_app tr1 tr2 : placed (tr1 ++ tr2) = placed tr1 + placed tr2.
Proof. unfold placed. by rewrite mmaps_app, total_len_app. Qed.

Lemma bytes_app blksize l1 l2 :
  bytes blksize (l1 ++ l2) = bytes blksize l1 + bytes blksize l2.
Proof.
  induction l1 as [| x l1 IH]; [done |].
  simpl app. rewrite !bytes_cons, IH. lia.
Qed.

Lemma ext_len_positive blksize x : 0 < blksize → good_ext x → 0 < ext_len blksize x.
Proof. intros Hb [Hx _]. unfold ext_len. nia. Qed.

Lemma mmaps_anon_walk mapf fd blksize exts : ∀ next,
  mmaps MAP_ANON (walk_events mapf fd blksize next exts) = [].
Proof.
  induction exts as [| x t IH]; intros next; [done |].
  simpl. unfold mmaps in *. simpl. apply IH.
Qed.

Lemma mmaps_fixed_walk mapf fd blksize exts : ∀ next,
  0 < blksize → Forall good_ext exts →
  next + bytes blksize exts ≤ MAP_FAILED →
  mmaps MAP_FIXED (walk_events mapf fd blksize next exts)
  = map (λ r, (mr_addr r, mr_length r)) (layout blksize next exts).
Proof.
  induction exts as [| x t IH]; intros next Hb Hg Hle; [done |].
  inversion Hg as [| ? ? Hx Ht]; subst. rewrite bytes_cons in Hle.
  pose proof (ext_len_positive blksize x Hb Hx).
  pose proof (bytes_nonneg blksize t Hb Ht).
  simpl. unfold mmaps in *. simpl.
  destruct (next =? MAP_FAILED) eqn:E; [lia |]. simpl.
  f_equal. apply IH; [done | done | lia].
Qed.

Lemma placed_walk mapf fd blksize exts next :
  0 < blksize → Forall good_ext exts →
  next + bytes blksize exts ≤ MAP_FAILED →
  placed (walk_events mapf fd blksize next exts) = bytes blksize exts.
Proof.
  intros Hb Hg Hle. unfold placed. rewrite mmaps_fixed_walk by done.
  clear Hle Hg. revert next.
  induction exts as [| x t IH]; intros next; [done |].
  rewrite bytes_cons. simpl. unfold total_len in *. simpl. by rewrite IH.
Qed.

Lemma length_mmaps_fixed_walk mapf fd blksize exts next :
  0 < blksize → Forall good_ext exts →
  next + bytes blksize exts ≤ MAP_FAILED →
  length (mmaps MAP_FIXED (walk_events mapf fd blksize next exts))
  = length exts.
Proof.
  intros. rewrite mmaps_fixed_walk by done.
  by rewrite length_map, length_layout.
Qed.

Lemma reserved_walk mapf fd blksize exts next :
  reserved (walk_events mapf fd blksize next exts) = 0.
Proof. unfold reserved. by rewrite mmaps_anon_walk. Qed.

(** The per-extent test, on values of type [size_t], in plain
    arithmetic. *)
Lemma bad_range_iff s e blksize rem :
  0 ≤ s < 2 ^ 64 → 0 ≤ e < 2 ^ 64 → 0 < blksize →
  bad_range s e blksize rem = true
  ↔ e ≤ s ∨ e - s > SIZE_MAX / blksize ∨ (e - s) * blksize > rem.
Proof.
  intros Hs He Hb. destruct (bad_range s e blksize rem) eqn:E.
  - split; [intros _ | done]. unfold bad_range in E.
    destruct (e <=? s) eqn:E1; [lia |].
    assert (E' : to_size_t (e - s) = e - s).
    { unfold to_size_t. apply Z.mod_small. lia. }
    rewrite E' in E.
    destruct (e - s >? SIZE_MAX / blksize) eqn:E2; [lia |].
    cbn [orb] in E.
    assert ((e - s) * blksize ≤ SIZE_MAX).
    { transitivity (SIZE_MAX / blksize * blksize); [nia |].
      rewrite Z.mul_comm. apply Z.mul_div_le. lia. }
    assert (E'' : to_size_t ((e - s) * blksize) = (e - s) * blksize).
    { unfold to_size_t. apply Z.mod_small. unfold SIZE_MAX in *. nia. }
    rewrite E'' in E. lia.
  - split; [done |]. intros H.
    destruct (good_range s e blksize rem Hs He Hb E) as (Hse & Hlen & Hle & _).
    assert ((e - s) * blksize ≤ SIZE_MAX).
    { rewrite <- Hlen. unfold SIZE_MAX. unfold to_size_t at 1.
      pose proof (Z.mod_pos_bound (to_size_t (e - s) * blksize) (2 ^ 64)).
      lia. }
    assert (e - s ≤ SIZE_MAX / blksize).
    { apply Z.div_le_lower_bound; lia. }
    lia.
Qed.

(** *** Cutting a trace at an event *)

Lemma split_after_prefix {A} (P0 L pre post : list A) ev :
  P0 ++ L = pre ++ ev :: post → ¬ In ev P0 →
  ∃ pre', pre = P0 ++ pre' ∧ L = pre' ++ ev :: post.
Proof.
  revert pre. induction P0 as [| a P0 IH]; intros pre H Hn.
  - by exists pre.
  - destruct pre as [| a' pre]; simpl in H.
    + injection H as -> _. exfalso. apply Hn. by left.
    + injection H as -> H.
      destruct (IH pre H) as (pre' & -> & HL).
      { intros Hin. apply Hn. by right. }
      by exists pre'.
Qed.

Lemma split_head_unique {A} (R pre post : list A) ev :
  ev :: R = pre ++ ev :: post → ¬ In ev R → pre = [] ∧ post = R.
Proof.
  intros H Hn. destruct pre as [| a pre]; simpl in H.
  - by injection H as ->.
  - injection H as -> H. exfalso. apply Hn. rewrite H. apply in_elt.
Qed.

Lemma walk_split mapf mapf' fd blksize s e exts : ∀ next R pre post,
  walk_events mapf fd blksize next exts ++ R
  = pre ++ EvFscanf mapf' FmtRange 2 [s; e] :: post →
  (∃ j, exts !! j = Some (s, e)
        ∧ pre = walk_events mapf fd blksize next (take j exts))
  ∨ (∃ pre', pre = walk_events mapf fd blksize next exts ++ pre'
             ∧ R = pre' ++ EvFscanf mapf' FmtRange 2 [s; e] :: post).
Proof.
  induction exts as [| [s0 e0] t IH]; intros next R pre post H.
  - right. by exists pre.
  - simpl in H. destruct pre as [| a [| a' pre]]; simpl in H.
    + simplify_eq. left. by exists 0%nat.
    + simplify_eq.
    + injection H as <- <- H.
      destruct (IH _ _ _ _ H) as [(j & Hj & ->) | (pre' & -> & HR)].
      * left. by exists (S j).
      * right. by exists pre'.
Qed.

(** ** Failures of the walk *)

Lemma walked_run_events fn fn1 mapf h p reserve fd exts st :
  run_events fn (RBlock fn1 mapf (OWalked h p reserve fd exts st))
  = walk_prefix fn1 mapf h p reserve fd
    ++ walk_events mapf fd (h_blksize h) reserve exts
    ++ stop_events mapf fd (h_blksize h) (Z.of_nat (length exts))
         (reserve + bytes (h_blksize h) exts) st
    ++ match st with
       | Some _ =>
           unwind_events h p reserve fd
           ++ [EvLog (LogMapOfFailed fn); EvFclose mapf]
       | None =>
           if bytes (h_blksize h) exts =? h_total h
           then [EvClose fd; EvLog (LogMmappedRanges (h_count h));
                 EvFclose mapf]
           else EvLog (LogRangesInvalid
                         (h_total h - bytes (h_blksize h) exts))
                :: unwind_events h p reserve fd
                ++ [EvLog (LogMapOfFailed fn); EvFclose mapf]
       end.
Proof.
  unfold run_events, walk_prefix, block_events. simpl.
  rewrite <- !app_assoc. simpl. do 8 f_equal.
  destruct st as [st |]; [done |].
  by destruct (_ =? _).
Qed.

Lemma walk_prefix_measures fn1 mapf h p reserve fd :
  0 < h_total h → reserve + h_total h ≤ MAP_FAILED →
  reserved (walk_prefix fn1 mapf h p reserve fd) = h_total h
  ∧ placed (walk_prefix fn1 mapf h p reserve fd) = 0.
Proof.
  intros H0 H1. unfold reserved, placed, walk_prefix, mmaps. simpl.
  destruct (reserve =? MAP_FAILED) eqn:E; [lia |]. simpl. lia.
Qed.

Lemma valid_header_total h : valid_header h → 0 < h_total h.
Proof.
  intros (Hs & Hb & _). pose proof (h_total_bounds h). lia.
Qed.

(** C4: when an extent line is read whose values fail the per-extent
    validation - the end is not after the start, or the number of blocks
    is above [SIZE_MAX / blksize], or the byte length is above what is left
    of the reservation at that point - the calls that follow are exactly:
    the diagnostic (a ValidationError), the closing of the device, one
    [munmap] of the whole reservation, the [free] of the range array, and
    the exit of [sysMapFile]. No [mmap] is issued for that extent,
    [sysMapFile] returns -1, and the address space, the heap and the
    descriptor table are as before the call. *)
Theorem C4_rejected_extent_unwinds (fn : option string) (fn1 : string)
    (pMap : MemMapping) (w w' : World) (res : Z * MemMapping)
    (pre post : list Event) (mapf size blksize count s e : Z) :
  block_map_name fn = Some fn1 →
  sysMapFile fn pMap w = Ok res w' →
  os_trace w' = os_trace w ++ pre ++ EvFscanf mapf FmtRange 2 [s; e] :: post →
  In (EvFscanf mapf FmtHeader 3 [size; blksize; count]) pre →
  e ≤ s ∨ e - s > SIZE_MAX / blksize
  ∨ (e - s) * blksize > reserved pre - placed pre →
  res.1 = -1
  ∧ (∃ reserve fd p dev,
       post = [EvLog (LogUnexpectedRange s e); EvClose fd;
               EvMunmap reserve (reserved pre) 0; EvFree p;
               EvLog (LogMapOfFailed fn); EvFclose mapf]
       ∧ In (EvMmap 0 (reserved pre) PROT_NONE [MAP_PRIVATE; MAP_ANON]
                    (-1) 0 reserve) pre
       ∧ In (EvOpen (Some dev) fd) pre
       ∧ In (EvCalloc count p) pre)
  ∧ reported post = [ValidationError]
  ∧ os_vm w' = os_vm w ∧ os_heap w' = os_heap w ∧ os_fds w' = os_fds w.
Proof.
  intros Hname Hrun Htr Hhdr Hbad.
  destruct (sysMapFile_run _ _ _ _ _ Hrun)
    as (run & Htr' & -> & Hwf & Hfds & _ & Hmem).
  rewrite Htr' in Htr. apply app_inv_head in Htr.
  assert (Hin : In (EvFscanf mapf FmtRange 2 [s; e]) (run_events fn run)).
  { rewrite Htr. apply in_elt. }
  destruct run as [fn1' | fn1' mapf' o | | fd start end_ r0 o];
    cbn [run_wf] in Hwf; try (destruct Hwf as [E _]; congruence).
  { in_cases Hin; done. }
  destruct Hwf as (E & _ & _ & Hwf). rewrite Hname in E. injection E as <-.
  destruct o as [| line n vs | h | h | h p | h p reserve
                 | h p reserve fd exts st];
    try (in_cases Hin; by simplify_eq).
  rewrite walked_run_events in Htr. clear Hin.
  destruct Hwf as (Hv & Hp & Hfd & Hr0 & Hr1 & Hgood & Hbytes & _ & _ & Hst).
  pose proof (valid_header_total h Hv) as Htot.
  destruct (walk_prefix_measures fn1 mapf' h p reserve fd Htot Hr1)
    as [Hres0 Hpl0].
  destruct Hv as (Hs & Hb & Hc & HtotM).
  apply split_after_prefix in Htr as (pre1 & -> & Htr).
  2:{ unfold walk_prefix. intros H. in_cases H; by simplify_eq. }
  (* the header read is the one of the run *)
  assert (mapf' = mapf ∧ size = h_size h ∧ blksize = h_blksize h
          ∧ count = h_count h) as (-> & -> & -> & ->).
  { apply in_app_or in Hhdr as [H | H].
    - unfold walk_prefix in H. in_cases H; by simplify_eq.
    - apply walk_split in Htr as [(j & _ & ->) | (pre' & -> & Htr)].
      + apply walk_events_In in H as [(? & ? & ?) | (? & ? & ? & ?)]; done.
      + apply in_app_or in H as [H | H].
        * apply walk_events_In in H as [(? & ? & ?) | (? & ? & ? & ?)]; done.
        * exfalso.
          assert (Hin : In (EvFscanf mapf FmtHeader 3 [size; blksize; count])
                           (pre' ++ EvFscanf mapf FmtRange 2 [s; e] :: post)).
          { apply in_or_app. by left. }
          rewrite <- Htr in Hin.
          destruct st as [[] |]; [| | | destruct (_ =? _)];
            in_cases Hin; by simplify_eq. }
  apply walk_split in Htr as [(j & Hj & ->) | (pre' & -> & Htr)].
  - (* the extent was placed: it passed the validation *)
    exfalso.
    pose proof (take_drop_middle _ _ _ Hj) as Hmid.
    assert (Hsplit : bytes (h_blksize h) exts
                     = bytes (h_blksize h) (take j exts)
                       + (e - s) * h_blksize h
                       + bytes (h_blksize h) (drop (S j) exts)).
    { rewrite <- Hmid at 1. rewrite bytes_app, bytes_cons. unfold ext_len.
      simpl. lia. }
    assert (Hg1 : Forall good_ext (take j exts)) by by apply Forall_take.
    assert (Hg2 : Forall good_ext (drop (S j) exts)) by by apply Forall_drop.
    pose proof (bytes_nonneg _ _ (proj1 Hb) Hg1).
    pose proof (bytes_nonneg _ _ (proj1 Hb) Hg2).
    rewrite Forall_forall in Hgood.
    destruct (Hgood (s, e)) as [Hse He].
    { apply list_elem_of_lookup. eauto. }
    simpl in Hse, He.
    assert (0 < (e - s) * h_blksize h) by nia.
    rewrite reserved_app, placed_app, Hres0, Hpl0, reserved_walk in Hbad.
    rewrite placed_walk in Hbad by (try done; lia).
    assert (e - s ≤ SIZE_MAX / h_blksize h).
    { apply Z.div_le_lower_bound; [lia |]. nia. }
    lia.
  - (* the extent is the one the loop stopped at *)
    rewrite !reserved_app, !placed_app, Hres0, Hpl0, reserved_walk in Hbad.
    rewrite placed_walk in Hbad by (try done; lia).
    assert (Hin : In (EvFscanf mapf FmtRange 2 [s; e])
                     (pre' ++ EvFscanf mapf FmtRange 2 [s; e] :: post))
      by apply in_elt.
    rewrite <- Htr in Hin.
    destruct st as [[n vals | s' e' | s' e'] |]; cbn [stop_wf] in Hst.
    + in_cases Hin; simplify_eq. lia.
    + (* the validation failed *)
      in_cases Hin; simplify_eq. simpl in Htr.
      apply split_head_unique in Htr as [-> ->].
      2:{ intros H. in_cases H; by simplify_eq. }
      rewrite !reserved_app, Hres0, reserved_walk.
      change (reserved []) with 0. rewrite !Z.add_0_r.
      split; [done |]. split.
      { exists reserve, fd, p, (h_dev h). split; [done |].
        repeat split; apply in_or_app; left; unfold walk_prefix; simpl;
          auto 10. }
      split; [done |]. simpl in Hmem. by destruct Hmem.
    + (* the extent passed the validation and its mapping failed *)
      exfalso. in_cases Hin; simplify_eq. simpl in Htr.
      apply split_head_unique in Htr as [-> _].
      2:{ intros H. in_cases H; by simplify_eq. }
      change (reserved []) with 0 in Hbad. change (placed []) with 0 in Hbad.
      destruct Hst as (Hok & Hs' & He').
      assert (bad_range s e (h_blksize h)
                (h_total h - bytes (h_blksize h) exts) = true);
        [| congruence].
      apply bad_range_iff; [done | done | lia | lia].
    + destruct (_ =? _); in_cases Hin; by simplify_eq.
Qed.

Lemma C4_rejected_extent_witness :
  ∃ res w' pre post,
    sysMapFile (Some "@/cache/block.map") zeroed
      (demo_world reversed_extent [Some 4096; Some 0] [Some 64]) = Ok res w'
    ∧ os_trace w' = pre ++ EvFscanf 0 FmtRange 2 [7; 6] :: post
    ∧ res.1 = -1
    ∧ post = [EvLog (LogUnexpectedRange 7 6); EvClose 1;
              EvMunmap 4096 100 0; EvFree 64;
              EvLog (LogMapOfFailed (Some "@/cache/block.map")); EvFclose 0]
    ∧ reported post = [ValidationError]
    ∧ os_vm w' = [] ∧ os_heap w' = ∅ ∧ os_fds w' = ∅.
Proof.
  set (pre :=
    [EvFopen "/cache/block.map" (Some 0);
     EvFgets 0 (Some ("/dev/block/sda1" +:+ nl));
     EvFscanf 0 FmtHeader 3 [100; 10; 2]; EvCalloc 2 64;
     EvMmap 0 100 PROT_NONE [MAP_PRIVATE; MAP_ANON] (-1) 0 4096;
     EvOpen (Some "/dev/block/sda1") 1; EvFscanf 0 FmtRange 2 [0; 5];
     EvMmap 4096 50 PROT_READ [MAP_PRIVATE; MAP_FIXED] 1 0 4096]).
  set (post :=
    [EvLog (LogUnexpectedRange 7 6); EvClose 1; EvMunmap 4096 100 0;
     EvFree 64; EvLog (LogMapOfFailed (Some "@/cache/block.map"));
     EvFclose 0]).
  eexists _, _, pre, post.
  assert (H : sysMapFile (Some "@/cache/block.map") zeroed
      (demo_world reversed_extent [Some 4096; Some 0] [Some 64])
      = Ok _ _) by (vm_compute; reflexivity).
  split; [exact H |]. split; [reflexivity |].
  destruct (C4_rejected_extent_unwinds (Some "@/cache/block.map")
              "/cache/block.map" _ _ _ _ pre post 0 100 10 2 7 6
              eq_refl H eq_refl)
    as (Hret & _ & Hrep & Hvm & Hheap & Hfds).
  - simpl. auto.
  - left. lia.
  - repeat split; done.
Defined.

(** ** Reservations that are not filled *)

Lemma reported_app tr1 tr2 : reported (tr1 ++ tr2) = reported tr1 ++ reported tr2.
Proof. apply omap_app. Qed.

Lemma reported_walk mapf fd blksize exts : ∀ next,
  reported (walk_events mapf fd blksize next exts) = [].
Proof.
  induction exts as [| x t IH]; intros next; [done |].
  simpl. unfold reported in *. simpl. apply IH.
Qed.

Lemma mmaps_stop flag mapf fd blksize i next st :
  mmaps flag (stop_events mapf fd blksize i next st) = [].
Proof.
  destruct st as [[] |]; try done.
  unfold mmaps. simpl. by rewrite andb_false_r.
Qed.

(** What a run that reached the walk reserved and placed. *)
Lemma walked_measures fn fn1 mapf h p reserve fd exts st :
  block_wf (OWalked h p reserve fd exts st) →
  let d := run_events fn (RBlock fn1 mapf (OWalked h p reserve fd exts st)) in
  reserved d = h_total h
  ∧ placed d = bytes (h_blksize h) exts
  ∧ length (mmaps MAP_FIXED d) = length exts.
Proof.
  intros (Hv & Hp & Hfd & Hr0 & Hr1 & Hgood & Hbytes & _) d.
  pose proof (valid_header_total h Hv) as Htot.
  destruct (walk_prefix_measures fn1 mapf h p reserve fd Htot Hr1)
    as [Hres0 Hpl0].
  destruct Hv as (_ & Hb & _).
  assert (Htail : ∀ flag,
    mmaps flag
      match st with
      | Some _ =>
          unwind_events h p reserve fd
          ++ [EvLog (LogMapOfFailed fn); EvFclose mapf]
      | None =>
          if bytes (h_blksize h) exts =? h_total h
          then [EvClose fd; EvLog (LogMmappedRanges (h_count h));
                EvFclose mapf]
          else EvLog (LogRangesInvalid
                        (h_total h - bytes (h_blksize h) exts))
               :: unwind_events h p reserve fd
               ++ [EvLog (LogMapOfFailed fn); EvFclose mapf]
      end = []).
  { intros flag. destruct st; [done |]. by destruct (_ =? _). }
  subst d. rewrite walked_run_events.
  unfold reserved, placed in *. rewrite !mmaps_app, !mmaps_stop, !Htail.
  rewrite mmaps_anon_walk, !app_nil_r, !total_len_app, Hres0, Hpl0.
  rewrite length_app.
  fold (placed (walk_events mapf fd (h_blksize h) reserve exts)).
  rewrite placed_walk by (try done; lia).
  rewrite length_mmaps_fixed_walk by (try done; lia).
  change (total_len []) with 0.
  assert (Hlen0 : mmaps MAP_FIXED (walk_prefix fn1 mapf h p reserve fd) = []).
  { unfold walk_prefix, mmaps. simpl. done. }
  rewrite Hlen0. simpl. lia.
Qed.

(** C3, as the code has it: when the bytes placed are not exactly the bytes
    reserved, [sysMapFile] returns -1 and leaves the address space, the
    heap and the descriptor table as they were. The failure is reported by
    the "remaining_size" diagnostic (a ValidationError) when all of the
    declared extents were read and placed; when the read of an extent line
    fails, it is reported as the parse failure of that range instead. *)
Theorem C3_unfilled_reservation_fails (fn : option string) (fn1 : string)
    (pMap : MemMapping) (w w' : World) (res : Z * MemMapping)
    (d : list Event) :
  block_map_name fn = Some fn1 →
  sysMapFile fn pMap w = Ok res w' →
  os_trace w' = os_trace w ++ d →
  placed d ≠ reserved d →
  res.1 = -1
  ∧ os_vm w' = os_vm w ∧ os_heap w' = os_heap w ∧ os_fds w' = os_fds w
  ∧ (∀ mapf size blksize count,
       In (EvFscanf mapf FmtHeader 3 [size; blksize; count]) d →
       Z.of_nat (length (mmaps MAP_FIXED d)) = count →
       In (EvLog (LogRangesInvalid (reserved d - placed d))) d
       ∧ reported d = [ValidationError])
  ∧ (∀ mapf n vals,
       In (EvFscanf mapf FmtRange n vals) d → n ≠ 2 →
       In (EvLog (LogParseRangeFailed
                    (Z.of_nat (length (mmaps MAP_FIXED d))))) d
       ∧ reported d = [ParseError]).
Proof.
  intros Hname Hrun Htr Hne.
  destruct (sysMapFile_run _ _ _ _ _ Hrun)
    as (run & Htr' & -> & Hwf & Hfds & _ & Hmem).
  rewrite Htr' in Htr. apply app_inv_head in Htr. subst d.
  destruct run as [fn1' | fn1' mapf' o | | fd start end_ r0 o];
    cbn [run_wf] in Hwf; try (destruct Hwf as [E _]; congruence).
  { by exfalso. }
  destruct Hwf as (E & _ & _ & Hwf). rewrite Hname in E. injection E as <-.
  destruct o as [| line n vs | h | h | h p | h p reserve
                 | h p reserve fd exts st];
    try (exfalso; apply Hne; unfold placed, reserved, mmaps; simpl;
         by rewrite ?andb_false_r).
  - (* the device did not open *)
    destruct Hwf as [(_ & _ & Hc & _) _].
    simpl in Hmem. destruct Hmem as [Hvm Hheap].
    split; [done |]. split; [done |]. split; [done |]. split; [done |].
    split.
    + intros mapf size blksize count Hin Hcount. exfalso.
      in_cases Hin; simplify_eq. lia.
    + intros mapf n vals Hin Hn. exfalso. in_cases Hin; simplify_eq.
  - (* the walk was reached *)
    destruct (walked_measures fn fn1 mapf' h p reserve fd exts st Hwf)
      as (Hres & Hpl & Hlen).
    rewrite Hres, Hpl, Hlen in *.
    destruct Hwf as (Hv & Hp & Hfd & Hr0 & Hr1 & Hgood & Hbytes & Hnone
                     & Hsome & Hst).
    assert (Hret : (run_ret (RBlock fn1 mapf'
                               (OWalked h p reserve fd exts st))) = -1).
    { simpl. destruct st; [done |].
      destruct (bytes _ _ =? _) eqn:E; [lia | done]. }
    assert (Hnot : (block_ret (OWalked h p reserve fd exts st) =? 0) = false).
    { simpl. destruct st; [done |].
      destruct (bytes _ _ =? _) eqn:E; [lia | done]. }
    cbn [run_ranges] in Hmem. rewrite Hnot in Hmem.
    split; [done |]. split; [apply Hmem |]. split; [apply Hmem |].
    split; [done |].
    rewrite walked_run_events.
    assert (Hrep0 : reported (walk_prefix fn1 mapf' h p reserve fd) = [])
      by done.
    rewrite !reported_app, reported_walk, Hrep0.
    split.
    + intros mapf size blksize count Hin Hcount.
      assert (Hc : count = h_count h).
      { apply in_app_or in Hin as [Hin | Hin].
        { unfold walk_prefix in Hin. in_cases Hin; by simplify_eq. }
        apply in_app_or in Hin as [Hin | Hin].
        { apply walk_events_In in Hin as [(? & ? & ?) | (? & ? & ? & ?)];
            simplify_eq. }
        destruct st as [[] |]; [| | | destruct (bytes _ _ =? _)];
          in_cases Hin; simplify_eq. }
      destruct st as [st |].
      * exfalso. assert (Some st ≠ None) as Hs by done.
        specialize (Hsome Hs). lia.
      * destruct (bytes _ _ =? _) eqn:E; [lia |]. split; [| done].
        do 3 (apply in_or_app; right). simpl. auto.
    + intros mapf n vals Hin Hn.
      apply in_app_or in Hin as [Hin | Hin].
      { unfold walk_prefix in Hin. in_cases Hin; simplify_eq. }
      apply in_app_or in Hin as [Hin | Hin].
      { apply walk_events_In in Hin as [(? & ? & ?) | (? & ? & ? & ?)];
          simplify_eq. }
      destruct st as [[n' vals' | s' e' | s' e'] |].
      * in_cases Hin; simplify_eq. split; [| done].
        do 2 (apply in_or_app; right). simpl. auto.
      * in_cases Hin; simplify_eq.
      * in_cases Hin; simplify_eq.
      * destruct (bytes _ _ =? _); in_cases Hin; simplify_eq.
Qed.

Lemma C3_unfilled_reservation_witness :
  ∃ res w',
    sysMapFile (Some "@/cache/block.map") zeroed
      (demo_world one_of_two [Some 4096; Some 0] [Some 64]) = Ok res w'
    ∧ placed (os_trace w') ≠ reserved (os_trace w')
    ∧ res.1 = -1
    ∧ os_vm w' = [] ∧ os_heap w' = ∅ ∧ os_fds w' = ∅
    ∧ In (EvLog (LogParseRangeFailed 1)) (os_trace w')
    ∧ reported (os_trace w') = [ParseError].
Proof.
  eexists _, _.
  assert (H : sysMapFile (Some "@/cache/block.map") zeroed
      (demo_world one_of_two [Some 4096; Some 0] [Some 64])
      = Ok _ _) by (vm_compute; reflexivity).
  split; [exact H |].
  match type of H with
  | _ = Ok _ ?w1 =>
      assert (Hne : placed (os_trace w1) ≠ reserved (os_trace w1))
  end.
  2:{ split; [exact Hne |].
      destruct (C3_unfilled_reservation_fails (Some "@/cache/block.map")
                  "/cache/block.map" _ _ _ _ _ eq_refl H eq_refl Hne)
        as (Hret & Hvm & Hheap & Hfds & _ & Hparse).
      destruct (Hparse 0 (-1) []) as [Hin Hrep]; [simpl; auto 12 | lia |].
      repeat split; try done. }
  vm_compute. discriminate.
Defined.

(** C3 as stated fails: for the block map that declares two extents and
    gives one, the bytes placed (50) are not the bytes reserved (100), and
    the failure is reported as the parse failure of range 1; no
    ValidationError is reported, the "remaining_size" diagnostic is not
    issued. *)
Lemma C3_counterexample :
  ∃ res w',
    sysMapFile (Some "@/cache/block.map") zeroed
      (demo_world one_of_two [Some 4096; Some 0] [Some 64]) = Ok res w'
    ∧ placed (os_trace w') = 50 ∧ reserved (os_trace w') = 100
    ∧ reported (os_trace w') = [ParseError]
    ∧ ¬ In ValidationError (reported (os_trace w'))
    ∧ ∀ rem, ¬ In (EvLog (LogRangesInvalid rem)) (os_trace w').
Proof.
  eexists _, _. split; [vm_compute; reflexivity |].
  split; [vm_compute; reflexivity |]. split; [vm_compute; reflexivity |].
  split; [vm_compute; reflexivity |]. split.
  - intros H. in_cases H; done.
  - intros rem H. in_cases H; done.
Qed.

Lemma replay_app evs1 evs2 vm :
  replay (evs1 ++ evs2) vm = replay evs1 vm ≫= replay evs2.
Proof.
  revert vm. induction evs1 as [| ev t IH]; intros vm; simpl; [done |].
  destruct (apply_event ev vm) as [vm' |]; simpl; [apply IH | done].
Qed.

Lemma tracks_ret {A} (a : A) : tracks (ret a).
Proof.
  intros w a' w' [= <- <-]. exists []. by rewrite app_nil_r.
Qed.

Lemma tracks_bind {A B} (m : M A) (k : A → M B) :
  tracks m → (∀ a, tracks (k a)) → tracks (bind m k).
Proof.
  intros Hm Hk w b w' H. unfold bind in H.
  destruct (m w) as [a w1 |] eqn:E; [| done].
  destruct (Hm _ _ _ E) as (evs1 & Htr1 & Hvm1).
  destruct (Hk a _ _ _ H) as (evs2 & Htr2 & Hvm2).
  exists (evs1 ++ evs2). split.
  - by rewrite Htr2, Htr1, app_assoc.
  - by rewrite replay_app, Hvm1.
Qed.

(** A call that leaves the address space alone and adds the events [evs]. *)
Lemma tracks_quiet {A} (m : M A) :
  (∀ w a w', m w = Ok a w' →
     os_vm w' = os_vm w
     ∧ ∃ evs, os_trace w' = os_trace w ++ evs
              ∧ Forall (λ ev, ∀ vm, apply_event ev vm = Some vm) evs) →
  tracks m.
Proof.
  intros H w a w' E. destruct (H _ _ _ E) as (Hvm & evs & Htr & Hq).
  exists evs. split; [done |]. rewrite Hvm. clear -Hq.
  induction Hq as [| ev t Hev _ IH]; simpl; [done |]. by rewrite Hev.
Qed.

Ltac quiet :=
  apply tracks_quiet; intros w a w' E;
  repeat match type of E with
         | context [match ?x with _ => _ end] => destruct x eqn:?
         end;
  simplify_eq; wsimpl; (split; [done |]);
  first [ by (exists []; rewrite app_nil_r)
        | by (eexists [_]; split; [done | by repeat constructor]) ].

Lemma tracks_LOG m : tracks (LOG m).
Proof. unfold LOG. quiet. Qed.

Lemma tracks_open path : tracks (open path).
Proof. unfold open. quiet. Qed.

Lemma tracks_close fd : tracks (close fd).
Proof. unfold close. quiet. Qed.

Lemma tracks_lseek64 fd off whence : tracks (lseek64 fd off whence).
Proof. unfold lseek64. quiet. Qed.

Lemma tracks_alloc_ranges ev count :
  (∀ c p vm, apply_event (ev c p) vm = Some vm) →
  tracks (alloc_ranges ev count).
Proof.
  intros Hev. unfold alloc_ranges. apply tracks_quiet; intros w a w' E.
  repeat match type of E with
         | context [match ?x with _ => _ end] => destruct x eqn:?
         end;
  simplify_eq; wsimpl; (split; [done |]);
  eexists [_]; (split; [done | by repeat constructor]).
Qed.

Lemma tracks_malloc_ranges count : tracks (malloc_ranges count).
Proof. by apply tracks_alloc_ranges. Qed.

Lemma tracks_calloc_ranges count : tracks (calloc_ranges count).
Proof. by apply tracks_alloc_ranges. Qed.

Lemma tracks_free p : tracks (free p).
Proof. unfold free. quiet. Qed.

Lemma tracks_load_range p i : tracks (load_range p i).
Proof. unfold load_range. quiet. Qed.

Lemma tracks_store_range p i r : tracks (store_range p i r).
Proof. unfold store_range. quiet. Qed.

Lemma tracks_fopen path : tracks (fopen path).
Proof. unfold fopen. quiet. Qed.

Lemma tracks_fclose f : tracks (fclose f).
Proof. unfold fclose. quiet. Qed.

Lemma tracks_fgets size f : tracks (fgets size f).
Proof. unfold fgets. quiet. Qed.

Lemma tracks_fscanf f fmt : tracks (fscanf f fmt).
Proof. unfold fscanf. quiet. Qed.

Lemma tracks_mmap addr len prot flags fd off :
  tracks (mmap addr len prot flags fd off).
Proof.
  intros w a w' E. unfold mmap in E.
  destruct (os_mmap_script w) as [| [place |] ?];
    [simplify_eq; wsimpl; by eexists [_]
    | | simplify_eq; wsimpl; by eexists [_]].
  destruct ((0 <? len)
            && (0 <? (if has_flag MAP_FIXED flags then addr else place))
            && ((if has_flag MAP_FIXED flags then addr else place) + len
                <=? MAP_FAILED)
            && (has_flag MAP_FIXED flags
                || is_free (if has_flag MAP_FIXED flags then addr else place)
                           len (os_vm w))) eqn:Eok;
    [| simplify_eq; wsimpl; by eexists [_]].
  injection E as <- <-. wsimpl. eexists [_]. split; [done |].
  apply andb_prop in Eok as [Eok Efree].
  apply andb_prop in Eok as [Eok Hhi]. apply andb_prop in Eok as [Hlen Hlo].
  cbn [replay apply_event].
  destruct (_ =? MAP_FAILED) eqn:Em; [lia |].
  destruct (has_flag MAP_FIXED flags); [done |]. simpl in Efree.
  by rewrite Efree.
Qed.

Lemma tracks_munmap addr len : tracks (munmap addr len).
Proof.
  intros w a w' E. unfold munmap in E.
  destruct (0 <? len); injection E as <- <-; wsimpl; by eexists [_].
Qed.

Create HintDb tracks discriminated.
#[export] Hint Resolve tracks_ret tracks_LOG tracks_open tracks_close
  tracks_lseek64 tracks_malloc_ranges tracks_calloc_ranges tracks_free
  tracks_load_range tracks_store_range tracks_fopen tracks_fclose tracks_fgets
  tracks_fscanf tracks_mmap tracks_munmap : tracks.

Ltac tracking :=
  repeat first
    [ progress (cbv zeta)
    | solve [auto with tracks]
    | apply tracks_bind; [| intros ?]
    | match goal with
      | |- tracks (if ?b then _ else _) => destruct b
      | |- tracks (match ?x with _ => _ end) => destruct x
      end ].

Lemma tracks_getFileStartAndLength fd : tracks (getFileStartAndLength fd).
Proof. unfold getFileStartAndLength. tracking. Qed.

Lemma tracks_sysMapFD fd pMap : tracks (sysMapFD fd pMap).
Proof.
  unfold sysMapFD. pose proof tracks_getFileStartAndLength. tracking.
Qed.

Lemma tracks_map_ranges n mapf fd blksize ranges : ∀ i next rem,
  tracks (map_ranges n mapf fd blksize ranges i next rem).
Proof.
  induction n as [| n IH]; intros i next rem; simpl; tracking.
Qed.

Lemma tracks_sysMapBlockFile mapf pMap : tracks (sysMapBlockFile mapf pMap).
Proof.
  unfold sysMapBlockFile. pose proof tracks_map_ranges. tracking.
Qed.

Lemma tracks_sysMapFile fn pMap : tracks (sysMapFile fn pMap).
Proof.
  unfold sysMapFile.
  pose proof tracks_sysMapBlockFile. pose proof tracks_sysMapFD. tracking.
Qed.

Lemma tracks_release_ranges n ranges : ∀ i, tracks (release_ranges n ranges i).
Proof. induction n as [| n IH]; intros i; simpl; tracking. Qed.

Lemma tracks_sysReleaseMap pMap : tracks (sysReleaseMap pMap).
Proof. unfold sysReleaseMap. pose proof tracks_release_ranges. tracking. Qed.

(** *** The address space along the walk and the release *)

Lemma apart_sub a l a' l' r :
  apart a l r = true → a ≤ a' → a' + l' ≤ a + l → apart a' l' r = true.
Proof. unfold apart. intros H Ha Hl. apply orb_true_iff in H. lia. Qed.

Lemma Forall_apart_sub a l a' l' vm :
  Forall (λ r, apart a l r = true) vm → a ≤ a' → a' + l' ≤ a + l →
  Forall (λ r, apart a' l' r = true) vm.
Proof.
  intros H Ha Hl. eapply Forall_impl; [exact H |].
  intros r Hr. by apply (apart_sub a l).
Qed.

Lemma unmap_hole next len rem :
  0 < len ≤ rem →
  unmap_range next len (hole next rem) = hole (next + len) (rem - len).
Proof.
  intros H. unfold hole.
  destruct (0 <? rem) eqn:E; [| lia].
  rewrite unmap_range_cons. unfold unmap_range at 1. simpl mbind.
  unfold cut, apart. simpl.
  destruct (_ || _) eqn:Ea; [apply orb_true_iff in Ea; lia |].
  destruct (next <? next) eqn:E1; [lia |].
  destruct (next + len <? next + rem) eqn:E2, (0 <? rem - len) eqn:E3;
    try lia; [| done].
  simpl. do 2 f_equal. lia.
Qed.

Lemma replay_walk mapf fd blksize exts : ∀ next rem done vm0,
  0 < blksize → Forall good_ext exts → bytes blksize exts ≤ rem →
  next + rem ≤ MAP_FAILED →
  Forall (λ r, apart next rem r = true) done →
  Forall (λ r, apart next rem r = true) vm0 →
  replay (walk_events mapf fd blksize next exts) (done ++ hole next rem ++ vm0)
  = Some (rev (ext_regions blksize next exts) ++ done
          ++ hole (next + bytes blksize exts) (rem - bytes blksize exts)
          ++ vm0).
Proof.
  induction exts as [| x t IH]; intros next rem done vm0 Hb Hg Hle Hhi Hd H0.
  { simpl. by rewrite Z.add_0_r, Z.sub_0_r. }
  apply Forall_cons in Hg as [Hx Hg]. rewrite bytes_cons in *.
  pose proof (ext_len_positive blksize x Hb Hx) as Hlen.
  pose proof (bytes_nonneg blksize t Hb Hg) as Ht.
  cbn [walk_events replay apply_event ext_mmap mbind option_bind].
  destruct (next =? MAP_FAILED) eqn:Em; [lia |].
  cbn [has_flag existsb flag_eqb orb].
  rewrite !unmap_range_app, unmap_hole by lia.
  rewrite (unmap_outside next rem next _ done) by (done || lia).
  rewrite (unmap_outside next rem next _ vm0) by (done || lia).
  cbn [mbind option_bind]. rewrite app_comm_cons, IH; try done; try lia.
  - cbn [ext_regions rev]. rewrite <- !app_assoc. simpl.
    by rewrite Z.add_assoc, Z.sub_add_distr.
  - constructor.
    + unfold apart. simpl. apply orb_true_iff. lia.
    + apply (Forall_apart_sub next rem); [done | lia | lia].
  - apply (Forall_apart_sub next rem); [done | lia | lia].
Qed.

Lemma unmap_ranges_app arr : ∀ vm1 vm2,
  unmap_ranges arr (vm1 ++ vm2) = unmap_ranges arr vm1 ++ unmap_ranges arr vm2.
Proof.
  induction arr as [| r t IH]; intros vm1 vm2; [done |].
  unfold unmap_ranges in *. simpl.
  destruct (0 <? mr_length r); [| apply IH].
  rewrite unmap_range_app. apply IH.
Qed.

Lemma unmap_ranges_nil arr : unmap_ranges arr [] = [].
Proof.
  induction arr as [| r t IH]; [done |].
  unfold unmap_ranges in *. simpl. by destruct (0 <? mr_length r).
Qed.

Lemma unmap_ranges_cons r t vm :
  0 < mr_length r →
  unmap_ranges (r :: t) vm
  = unmap_ranges t (unmap_range (mr_addr r) (mr_length r) vm).
Proof.
  intros H. unfold unmap_ranges. simpl.
  by destruct (0 <? mr_length r) eqn:E; [| lia].
Qed.

Lemma unmap_ranges_outside a0 l0 arr : ∀ vm,
  Forall (λ r, apart a0 l0 r = true) vm →
  Forall (λ r, a0 ≤ mr_addr r ∧ mr_addr r + mr_length r ≤ a0 + l0) arr →
  unmap_ranges arr vm = vm.
Proof.
  induction arr as [| r t IH]; intros vm Hvm Harr; [done |].
  apply Forall_cons in Harr as [[Hr1 Hr2] Harr].
  unfold unmap_ranges in *. simpl.
  destruct (0 <? mr_length r); [| by apply IH].
  rewrite (unmap_outside a0 l0) by done. by apply IH.
Qed.

Lemma layout_within blksize exts : ∀ next,
  0 < blksize → Forall good_ext exts →
  Forall (λ r, next ≤ mr_addr r
               ∧ mr_addr r + mr_length r ≤ next + bytes blksize exts)
         (layout blksize next exts).
Proof.
  induction exts as [| x t IH]; intros next Hb Hg; [constructor |].
  apply Forall_cons in Hg as [Hx Hg]. rewrite bytes_cons.
  pose proof (ext_len_positive blksize x Hb Hx) as Hlen.
  pose proof (bytes_nonneg blksize t Hb Hg) as Ht.
  simpl. constructor; [simpl; lia |].
  eapply Forall_impl; [apply (IH (next + ext_len blksize x)); done |].
  simpl. intros r [H1 H2]. lia.
Qed.

Lemma ext_regions_lower blksize exts : ∀ next r,
  0 < blksize → Forall good_ext exts →
  In r (ext_regions blksize next exts) → next ≤ rg_addr r.
Proof.
  induction exts as [| x t IH]; intros next r Hb Hg Hin; [done |].
  apply Forall_cons in Hg as [Hx Hg].
  pose proof (ext_len_positive blksize x Hb Hx) as Hlen.
  destruct Hin as [<- | Hin]; [simpl; lia |].
  specialize (IH _ _ Hb Hg Hin). lia.
Qed.

Lemma unmap_ranges_region blksize exts : ∀ next r,
  0 < blksize → Forall good_ext exts →
  In r (ext_regions blksize next exts) →
  unmap_ranges (layout blksize next exts) [r] = [].
Proof.
  induction exts as [| x t IH]; intros next r Hb Hg Hin; [done |].
  apply Forall_cons in Hg as [Hx Hg].
  pose proof (ext_len_positive blksize x Hb Hx) as Hlen.
  cbn [layout]. rewrite unmap_ranges_cons by done. cbn [mr_addr mr_length].
  rewrite unmap_range_cons. unfold unmap_range. simpl mbind.
  rewrite app_nil_r.
  destruct Hin as [<- | Hin].
  - unfold cut, apart. simpl.
    destruct (_ || _) eqn:Ea; [apply orb_true_iff in Ea; lia |].
    rewrite !Z.ltb_irrefl. apply unmap_ranges_nil.
  - pose proof (ext_regions_lower _ _ _ _ Hb Hg Hin) as Hlow.
    rewrite cut_apart; [by apply IH |].
    unfold apart. apply orb_true_iff. lia.
Qed.

Lemma unmap_ranges_regions blksize exts next regs :
  0 < blksize → Forall good_ext exts →
  (∀ r, In r regs → In r (ext_regions blksize next exts)) →
  unmap_ranges (layout blksize next exts) regs = [].
Proof.
  intros Hb Hg. induction regs as [| r t IH]; intros Hin.
  { apply unmap_ranges_nil. }
  change (r :: t) with ([r] ++ t).
  rewrite unmap_ranges_app, (unmap_ranges_region _ _ _ r), IH; try done.
  - intros r' Hr'. apply Hin. by right.
  - apply Hin. by left.
Qed.

Lemma release_events_cons r t :
  release_events (r :: t)
  = (if 0 <? mr_length r then [EvMunmap (mr_addr r) (mr_length r) 0]
     else [EvMunmap (mr_addr r) (mr_length r) (-1);
           EvLog (LogMunmapFailed (mr_addr r) (mr_length r))])
    ++ release_events t.
Proof. done. Qed.

Lemma replay_release arr : ∀ vm,
  replay (release_events arr) vm = Some (unmap_ranges arr vm).
Proof.
  induction arr as [| r t IH]; intros vm; [done |].
  rewrite release_events_cons, replay_app.
  unfold unmap_ranges in *. simpl foldl.
  destruct (0 <? mr_length r); simpl; apply IH.
Qed.

(** *** The address space of a handle *)


Lemma replay_some_app evs1 evs2 vm vm' :
  replay (evs1 ++ evs2) vm = Some vm' →
  ∃ vm1, replay evs1 vm = Some vm1 ∧ replay evs2 vm1 = Some vm'.
Proof.
  rewrite replay_app. destruct (replay evs1 vm) as [vm1 |]; [| done].
  simpl. eauto.
Qed.

Lemma replay_walk_prefix fn1 mapf h p reserve fd vm :
  reserve ≠ MAP_FAILED →
  replay (walk_prefix fn1 mapf h p reserve fd) vm
  = if is_free reserve (h_total h) vm
    then Some (mkRegion reserve (h_total h) PROT_NONE None :: vm) else None.
Proof.
  intros Hr. unfold walk_prefix, header_events, reserve_event. simpl.
  destruct (reserve =? MAP_FAILED) eqn:E; [lia |].
  by destruct (is_free _ _ _).
Qed.

(** The address space a run of [sysMapFile] leaves is the one its trace
    tells. *)
Lemma sysMapFile_replay fn pMap w res w' d :
  sysMapFile fn pMap w = Ok res w' → os_trace w' = os_trace w ++ d →
  replay d (os_vm w) = Some (os_vm w').
Proof.
  intros Hrun Htr.
  destruct (tracks_sysMapFile _ _ _ _ _ Hrun) as (evs & Htr' & Hvm).
  rewrite Htr' in Htr. by apply app_inv_head in Htr as ->.
Qed.

(** The address space after the calls of a block-map run that returned 0. *)
Lemma replay_success_run fn fn1 mapf h p reserve fd exts vm vm' :
  valid_header h → Forall good_ext exts →
  bytes (h_blksize h) exts = h_total h →
  0 < reserve → reserve + h_total h ≤ MAP_FAILED →
  replay (run_events fn (RBlock fn1 mapf (OWalked h p reserve fd exts None)))
         vm = Some vm' →
  is_free reserve (h_total h) vm = true
  ∧ vm' = rev (ext_regions (h_blksize h) reserve exts) ++ vm.
Proof.
  intros Hv Hgood Hbytes Hr0 Hr1 Hvm.
  pose proof (valid_header_total h Hv) as Htot.
  rewrite walked_run_events in Hvm. cbn [stop_events app] in Hvm.
  apply replay_some_app in Hvm as (vm1 & Hvm1 & Hvm).
  apply replay_some_app in Hvm as (vm2 & Hvm2 & Hvm).
  rewrite replay_walk_prefix in Hvm1 by lia.
  destruct (is_free reserve (h_total h) vm) eqn:Hfree; [| done].
  injection Hvm1 as <-.
  pose proof Hv as (Hs & Hb & Hc & Htotal).
  assert (Hshape : mkRegion reserve (h_total h) PROT_NONE None :: vm
                   = [] ++ hole reserve (h_total h) ++ vm).
  { unfold hole. destruct (0 <? h_total h) eqn:E; [done | lia]. }
  rewrite Hshape, replay_walk in Hvm2;
    [| lia | done | lia | lia | constructor | by apply is_free_apart].
  injection Hvm2 as <-. rewrite Hbytes, Z.eqb_refl in Hvm.
  injection Hvm as <-.
  rewrite Z.sub_diag. unfold hole at 1.
  by rewrite Z.ltb_irrefl.
Qed.

Lemma block_success_vm fn fn1 pMap pMap' w w' :
  block_map_name fn = Some fn1 →
  sysMapFile fn pMap w = Ok (0, pMap') w' →
  ∃ mapf h p reserve fd exts,
    os_trace w' = os_trace w
                  ++ run_events fn
                       (RBlock fn1 mapf (OWalked h p reserve fd exts None))
    ∧ valid_header h ∧ Forall good_ext exts
    ∧ bytes (h_blksize h) exts = h_total h
    ∧ Z.of_nat (length exts) = h_count h
    ∧ pMap' = mkMap reserve (h_size h) (h_count h) p
    ∧ p ≠ 0 ∧ os_heap w !! p = None
    ∧ os_heap w' = <[p := layout (h_blksize h) reserve exts]> (os_heap w)
    ∧ 0 < reserve ∧ reserve + h_total h ≤ MAP_FAILED
    ∧ is_free reserve (h_total h) (os_vm w) = true
    ∧ os_vm w' = rev (ext_regions (h_blksize h) reserve exts) ++ os_vm w
    ∧ os_fds w' = os_fds w ∧ os_files w' = os_files w
    ∧ 0 ≤ fd.
Proof.
  intros Hname Hrun.
  destruct (sysMapFile_run _ _ _ _ _ Hrun)
    as (run & Htr & Hres & Hwf & Hfds & Hfiles & Hmem).
  destruct run as [fn1' | fn1' mapf o | | fd0 start end_ r0 o];
    cbn [run_wf] in Hwf; try (destruct Hwf as [E _]; congruence);
    try done.
  destruct Hwf as (E & _ & _ & Hwf).
  rewrite Hname in E. injection E as <-.
  cbn [run_ret run_map run_ranges] in *.
  destruct (block_ret o =? 0) eqn:Er; [| done]. cbn [negb] in Hres.
  destruct o as [| | | | | | h p reserve fd exts [st |]]; try done.
  cbn [block_ret] in Er.
  destruct (bytes (h_blksize h) exts =? h_total h) eqn:Eb; [| done].
  cbn [block_ranges block_map block_ret block_wf] in *. rewrite Eb in *.
  destruct Hmem as [Hpfree Hh].
  destruct Hwf as (Hv & Hp & Hfd & Hr0 & Hr1 & Hgood & _ & Hlen & _).
  specialize (Hlen eq_refl). apply Z.eqb_eq in Eb as Hbytes.
  injection Hres as ->.
  exists mapf, h, p, reserve, fd, exts.
  pose proof (sysMapFile_replay _ _ _ _ _ _ Hrun Htr) as Hvm.
  apply replay_success_run in Hvm as [Hfree ->];
    [| done | done | done | done | done].
  by repeat (split; [done |]).
Qed.

Lemma sysMapFD_placed fd pMap w :
  wp (sysMapFD fd pMap) w (λ res _,
    res.1 = true →
    res.2 = pMap
    ∨ (0 < mm_addr res.2 ∧ 0 < mm_length res.2
       ∧ mm_addr res.2 + mm_length res.2 ≤ MAP_FAILED)).
Proof.
  unfold sysMapFD. apply wp_bind. unfold getFileStartAndLength.
  apply position_queries. intros start end_ r w1 _.
  destruct (_ || _ || _).
  { apply wp_bind, wp_LOG, wp_ret, wp_ret. by left. }
  destruct (to_size_t _ =? 0).
  { apply wp_bind, wp_LOG, wp_ret, wp_ret. by left. }
  apply wp_ret. apply wp_bind, wp_mmap_anywhere; [done | |].
  { rewrite Z.eqb_refl. by apply wp_bind, wp_LOG, wp_ret. }
  intros memPtr Hlen Hm0 Hm1 Hfree.
  destruct (memPtr =? MAP_FAILED) eqn:Em; [lia |]. clear Em.
  apply wp_bind. unfold malloc_ranges. apply wp_alloc_ranges.
  { rewrite Z.eqb_refl. apply wp_bind, wp_LOG.
    by apply wp_bind, wp_munmap; [intros _ | lia]; apply wp_ret. }
  intros p Hp0 Hpfree. wsimpl.
  destruct (p =? 0) eqn:Ep; [lia |]. clear Ep.
  apply wp_bind.
  eapply wp_store_range; [wsimpl; apply lookup_insert_eq | lia | simpl; lia |].
  apply wp_ret. intros _. right. simpl. lia.
Qed.

(** A run of the direct strategy that returned 0: either no mapping was
    made at all (the position queries failed or found no byte), or one
    mapping backs the one range of the handle. *)
Lemma direct_success fn pMap pMap' w w' :
  block_map_name fn = None →
  sysMapFile fn pMap w = Ok (0, pMap') w' →
  ∃ fd start end_ r o,
    os_trace w' = os_trace w ++ run_events fn (RDirect fd start end_ r o)
    ∧ run_wf fn w (RDirect fd start end_ r o)
    ∧ os_fds w' = os_fds w ∧ os_files w' = os_files w
    ∧ ((o = FNoLength ∨ o = FEmpty)
       ∧ pMap' = zeroed ∧ os_vm w' = os_vm w ∧ os_heap w' = os_heap w
       ∨ ∃ addr p,
           o = FMapped addr p
           ∧ pMap' = mkMap addr (fd_length start end_) 1 p
           ∧ p ≠ 0 ∧ os_heap w !! p = None
           ∧ os_heap w' = <[p := [mkRange addr (fd_length start end_)]]>
                            (os_heap w)
           ∧ 0 < addr ∧ 0 < fd_length start end_
           ∧ addr + fd_length start end_ ≤ MAP_FAILED
           ∧ is_free addr (fd_length start end_) (os_vm w) = true
           ∧ os_vm w' = mkRegion addr (fd_length start end_) PROT_READ
                                 (Some start) :: os_vm w).
Proof.
  intros Hname Hrun.
  destruct (sysMapFile_run _ _ _ _ _ Hrun)
    as (run & Htr & Hres & Hwf & Hfds & Hfiles & Hmem).
  destruct run as [fn1' | fn1' mapf o | | fd start end_ r o];
    cbn [run_wf] in Hwf; try (destruct Hwf as [E _]; congruence);
    try done.
  exists fd, start, end_, r, o. do 4 (split; [done |]).
  cbn [run_ret run_map run_ranges] in *.
  destruct Hwf as (_ & _ & _ & Hwf & _).
  destruct o as [| | | memPtr | memPtr p]; try done;
    cbn [fd_ranges fd_map fd_wf] in *.
  - left. destruct Hmem as [? ?]. simpl in Hres. simplify_eq. auto.
  - left. destruct Hmem as [? ?]. simpl in Hres. simplify_eq. auto.
  - right. exists memPtr, p. injection Hres as ->.
    destruct Hwf as [Hlen Hp]. destruct Hmem as [Hpfree Hh].
    (* the mapping call did not fail *)
    assert (Hplaced : 0 < memPtr ∧ 0 < fd_length start end_
                      ∧ memPtr + fd_length start end_ ≤ MAP_FAILED).
    { unfold sysMapFile in Hrun. rewrite Hname in Hrun. unfold bind in Hrun.
      destruct (open fn w) as [fd' w0 |] eqn:Eo; [| done].
      destruct (fd' =? -1); [done |].
      destruct (sysMapFD fd' zeroed w0) as [[ok pm] w1 |] eqn:Efd; [| done].
      pose proof (wp_run _ _ _ _ _ (sysMapFD_placed fd' zeroed w0) Efd) as Hpl.
      cbn [fst snd] in *.
      destruct ok; cbn [negb] in Hrun; [| done].
      unfold close, ret in Hrun. injection Hrun as Hpm _.
      rewrite Hpm in Hpl. by destruct (Hpl eq_refl) as [? | ?]. }
    pose proof (sysMapFile_replay _ _ _ _ _ _ Hrun Htr) as Hvm.
    cbn [run_events fd_events fd_ret negb app replay apply_event fd_mmap
         mbind option_bind] in Hvm.
    destruct (memPtr =? MAP_FAILED) eqn:Em; [lia |].
    cbn [has_flag existsb flag_eqb orb] in Hvm.
    destruct (is_free memPtr (fd_length start end_) (os_vm w)) eqn:Hfree;
      [| done].
    simpl in Hvm. injection Hvm as <-.
    destruct Hplaced as (? & ? & ?). by repeat (split; [done |]).
Qed.

(** A call that does not return 0 returned -1 and gave back what it took. *)
Lemma failure_restores fn pMap w res w' :
  sysMapFile fn pMap w = Ok res w' → res.1 ≠ 0 →
  res.1 = -1
  ∧ os_vm w' = os_vm w ∧ os_heap w' = os_heap w
  ∧ os_fds w' = os_fds w ∧ os_files w' = os_files w.
Proof.
  intros Hrun Hret.
  destruct (sysMapFile_run _ _ _ _ _ Hrun)
    as (run & Htr & -> & Hwf & Hfds & Hfiles & Hmem).
  cbn [fst] in *.
  assert (Hnone : run_ret run = -1 ∧ run_ranges run = None).
  { destruct run as [fn1 | fn1 mapf o | | fd start end_ r o];
      cbn [run_ret run_ranges] in *; try done.
    - by destruct (block_ret o =? 0).
    - by destruct o. }
  destruct Hnone as [-> Hnone]. rewrite Hnone in Hmem.
  by destruct Hmem.
Qed.






(** X5: the address space after a successful direct call on a non-empty regular
    file: one new read-only mapping of the length of the file, from offset
    0, at the address of the handle, on a range that was free; the mappings
    that were there before are untouched. The mapping was made by the one
    [mmap] call of the run, on the descriptor that [open] returned for the
    path. *)
Theorem direct_map_address_space (p data : string) (pMap pMap' : MemMapping)
    (w w' : World) :
  (∀ fn1, p ≠ "@" +:+ fn1) →
  os_files w !! p = Some (RegularFile data) →
  0 < Z.of_nat (String.length data) ≤ LOFF_MAX →
  sysMapFile (Some p) pMap w = Ok (0, pMap') w' →
  os_vm w' = mkRegion (mm_addr pMap') (Z.of_nat (String.length data))
                      PROT_READ (Some 0) :: os_vm w
  ∧ is_free (mm_addr pMap') (Z.of_nat (String.length data)) (os_vm w) = true
  ∧ 0 < mm_addr pMap'
  ∧ mm_addr pMap' + Z.of_nat (String.length data) ≤ MAP_FAILED
  ∧ ∃ fd,
      0 ≤ fd
      ∧ os_trace w'
        = os_trace w
          ++ [EvOpen (Some p) fd; EvLseek fd 0 SEEK_CUR 0;
              EvLseek fd 0 SEEK_END (Z.of_nat (String.length data));
              EvLseek fd 0 SEEK_SET 0;
              EvMmap 0 (Z.of_nat (String.length data)) PROT_READ
                     [MAP_PRIVATE] fd 0 (mm_addr pMap');
              EvMalloc 1 (mm_ranges pMap'); EvClose fd].
Proof.
  intros Hpath Hfile HN Hrun.
  assert (Hname : block_map_name (Some p) = None).
  { apply block_map_name_other. intros fn1 [= ->]. by apply (Hpath fn1). }
  destruct (direct_success _ _ _ _ _ Hname Hrun)
    as (fd & start & end_ & r & o & Htr & Hwf & _ & _ & Hcase).
  destruct Hwf as (_ & _ & Hfd0 & Hfd & node & Hnode & Hfact).
  simpl in Hnode. rewrite Hfile in Hnode. injection Hnode as <-.
  destruct (Hfact _ eq_refl) as (-> & -> & ->); [lia |].
  assert (Elen : fd_length 0 (Z.of_nat (String.length data))
                 = Z.of_nat (String.length data)).
  { unfold fd_length, to_size_t. rewrite Z.sub_0_r.
    apply Z.mod_small. unfold LOFF_MAX in HN. lia. }
  destruct Hcase as [([-> | ->] & _) | (addr & q & -> & -> & Hrest)].
  - simpl in Hfd. lia.
  - simpl in Hfd. rewrite Elen in Hfd. lia.
  - cbn [run_events fd_events fd_ret negb app] in Htr.
    unfold fd_mmap in Htr. rewrite Elen in *. cbn [mm_addr mm_ranges].
    destruct Hrest as (_ & _ & _ & ? & _ & ? & ? & ?).
    do 4 (split; [done |]). by exists fd.
Qed.

Lemma direct_map_address_space_witness :
  ∃ pMap' w' fd,
    sysMapFile (Some "/sdcard/ota.zip") zeroed
               (demo_world "" [Some 4096] [Some 64]) = Ok (0, pMap') w'
    ∧ os_vm w' = [mkRegion (mm_addr pMap') 4 PROT_READ (Some 0)]
    ∧ is_free (mm_addr pMap') 4 [] = true
    ∧ 0 < mm_addr pMap' ∧ mm_addr pMap' + 4 ≤ MAP_FAILED
    ∧ os_trace w'
      = [EvOpen (Some "/sdcard/ota.zip") fd; EvLseek fd 0 SEEK_CUR 0;
         EvLseek fd 0 SEEK_END 4; EvLseek fd 0 SEEK_SET 0;
         EvMmap 0 4 PROT_READ [MAP_PRIVATE] fd 0 (mm_addr pMap');
         EvMalloc 1 (mm_ranges pMap'); EvClose fd].
Proof.
  assert (H : ∃ pMap' w',
             sysMapFile (Some "/sdcard/ota.zip") zeroed
               (demo_world "" [Some 4096] [Some 64]) = Ok (0, pMap') w')
    by (eexists _, _; vm_compute; reflexivity).
  destruct H as (pMap' & w' & H).
  destruct (direct_map_address_space "/sdcard/ota.zip" "PK34" zeroed pMap'
              (demo_world "" [Some 4096] [Some 64]) w')
    as (H1 & H2 & H3 & H4 & fd & H5 & H6);
    [intros fn1 E; discriminate E | reflexivity
    | simpl; unfold LOFF_MAX; lia | exact H |].
  exists pMap', w', fd. by repeat (split; [done |]).
Defined.

(** X7: mapping and then releasing leaves the process as it was: after
    [sysReleaseMap] on a handle that [sysMapFile] returned with 0, the
    address space, the heap, the descriptor table and the files are those
    from before the call of [sysMapFile]. *)
Theorem map_release_round_trip (fn : option string) (pMap pMap1 : MemMapping)
    (w w1 : World) :
  sysMapFile fn pMap w = Ok (0, pMap1) w1 →
  ∃ pMap2 w2,
    sysReleaseMap pMap1 w1 = Ok pMap2 w2
    ∧ os_vm w2 = os_vm w ∧ os_heap w2 = os_heap w
    ∧ os_fds w2 = os_fds w ∧ os_files w2 = os_files w.
Proof.
  intros Hrun.
  assert (Hgen : ∀ arr,
    holds pMap1 w1 arr →
    os_heap w1 = (if mm_ranges pMap1 =? 0 then os_heap w
                  else <[mm_ranges pMap1 := arr]> (os_heap w)) →
    (mm_ranges pMap1 ≠ 0 → os_heap w !! mm_ranges pMap1 = None) →
    unmap_ranges arr (os_vm w1) = os_vm w →
    os_fds w1 = os_fds w → os_files w1 = os_files w →
    ∃ pMap2 w2,
      sysReleaseMap pMap1 w1 = Ok pMap2 w2
      ∧ os_vm w2 = os_vm w ∧ os_heap w2 = os_heap w
      ∧ os_fds w2 = os_fds w ∧ os_files w2 = os_files w).
  { intros arr Hholds Hheap Hpfree Hvm Hfds Hfiles.
    destruct (wp_returns _ _ _ (sysReleaseMap_spec pMap1 w1 arr Hholds))
      as (pMap2 & w2 & Hrel & _ & Htr & Hh & Hf & Hfi).
    exists pMap2, w2. split; [done |].
    destruct (tracks_sysReleaseMap _ _ _ _ Hrel) as (evs & Htr' & Hvm').
    rewrite Htr' in Htr. apply app_inv_head in Htr as ->.
    rewrite replay_app, replay_release in Hvm'. simpl in Hvm'.
    injection Hvm' as <-. rewrite Hh, Hf, Hfi, Hfds, Hfiles.
    split; [done |]. split; [| done].
    rewrite Hheap. destruct (mm_ranges pMap1 =? 0) eqn:E; [done |].
    apply heap_restore, Hpfree. lia. }
  destruct (block_map_name fn) as [fn1 |] eqn:Hname.
  - destruct (block_success_vm _ _ _ _ _ _ Hname Hrun)
      as (mapf & h & p & reserve & fd & exts & Htr & Hv & Hgood & Hbytes
          & Hlen & -> & Hp & Hpfree & Hheap & Hr0 & Hr1 & Hfree & Hvm
          & Hfds & Hfiles & _).
    destruct Hv as (_ & Hb & _).
    apply (Hgen (layout (h_blksize h) reserve exts));
      cbn [mm_ranges mm_range_count]; try done.
    + split; cbn [mm_ranges mm_range_count].
      * by rewrite length_layout.
      * destruct (p =? 0) eqn:E; [lia |]. by rewrite Hheap, lookup_insert_eq.
    + by destruct (p =? 0) eqn:E; [lia |].
    + rewrite Hvm, unmap_ranges_app.
      rewrite (unmap_ranges_regions _ _ reserve); [| lia | done |].
      * apply (unmap_ranges_outside reserve (h_total h));
          [by apply is_free_apart |].
        rewrite <- Hbytes. apply layout_within; [lia | done].
      * intros r Hr. by apply in_rev.
  - destruct (direct_success _ _ _ _ _ Hname Hrun)
      as (fd & start & end_ & r & o & Htr & Hwf & Hfds & Hfiles & Hcase).
    destruct Hcase as [(_ & -> & Hvm & Hheap)
                      | (addr & p & -> & -> & Hp & Hpfree & Hheap & Ha0 & Hlen
                         & Ha1 & Hfree & Hvm)].
    + by apply (Hgen []).
    + apply (Hgen [mkRange addr (fd_length start end_)]);
        cbn [mm_ranges mm_range_count]; try done.
      * split; cbn [mm_ranges mm_range_count]; [done |].
        destruct (p =? 0) eqn:E; [lia |]. by rewrite Hheap, lookup_insert_eq.
      * by destruct (p =? 0) eqn:E; [lia |].
      * rewrite Hvm, unmap_ranges_cons by done. cbn [mr_addr mr_length].
        unfold unmap_ranges. simpl foldl.
        apply (unmap_span addr (fd_length start end_) [_]);
          [lia | repeat constructor; simpl; lia | by apply is_free_apart].
Qed.

Lemma map_release_round_trip_witness :
  ∃ pMap1 w1 pMap2 w2,
    sysMapFile (Some "@/cache/block.map") zeroed
      (demo_world two_extents [Some 4096; Some 0; Some 0] [Some 64])
    = Ok (0, pMap1) w1
    ∧ sysReleaseMap pMap1 w1 = Ok pMap2 w2
    ∧ os_vm w2 = [] ∧ os_heap w2 = ∅ ∧ os_fds w2 = ∅.
Proof.
  eexists _, _.
  assert (H : sysMapFile (Some "@/cache/block.map") zeroed
      (demo_world two_extents [Some 4096; Some 0; Some 0] [Some 64])
      = Ok (0, _) _) by (vm_compute; reflexivity).
  destruct (map_release_round_trip _ _ _ _ _ H)
    as (pMap2 & w2 & H1 & H2 & H3 & H4 & _).
  exists pMap2, w2. by repeat (split; [done |]).
Defined.

Lemma lseek64_seekable fd off whence w f size pos :
  os_fds w !! fd = Some f → node_size (of_node f) = Some size →
  pos = match whence with
        | SEEK_SET => off
        | SEEK_CUR => of_pos f + off
        | SEEK_END => size + off
        end →
  0 ≤ pos ≤ LOFF_MAX →
  lseek64 fd off whence w
  = Ok pos (emit (EvLseek fd off whence pos)
                 (upd_fds (insert fd (mkOpen (of_node f) pos)) w)).
Proof.
  intros Hf Hs -> Hp. unfold lseek64. rewrite Hf, Hs.
  destruct (_ && _) eqn:E; [done |]. apply andb_false_iff in E. lia.
Qed.

Lemma lseek64_unseekable fd off whence w :
  (∀ f, os_fds w !! fd = Some f → node_size (of_node f) = None) →
  lseek64 fd off whence w = Ok (-1) (emit (EvLseek fd off whence (-1)) w).
Proof.
  intros H. unfold lseek64.
  destruct (os_fds w !! fd) as [f |] eqn:Ef; [| done].
  by rewrite (H f eq_refl).
Qed.

Lemma getFileStartAndLength_run fd w f size :
  os_fds w !! fd = Some f → node_size (of_node f) = Some size →
  0 ≤ of_pos f ≤ LOFF_MAX → 0 ≤ size ≤ LOFF_MAX →
  getFileStartAndLength fd w
  = if size =? of_pos f
    then Ok None (emit (EvLog LogFileEmpty) (after_queries fd (of_pos f) size w))
    else Ok (Some (of_pos f, to_size_t (size - of_pos f)))
            (after_queries fd (of_pos f) size w).
Proof.
  intros Hf Hs Hpos Hsize. unfold getFileStartAndLength, bind.
  rewrite (lseek64_seekable _ _ _ _ f size (of_pos f)) by (done || lia).
  rewrite (lseek64_seekable _ _ _ _ (mkOpen (of_node f) (of_pos f)) size size);
    [| wsimpl; apply lookup_insert_eq | done | simpl; lia | done].
  rewrite (lseek64_seekable _ _ _ _ (mkOpen (of_node f) size) size (of_pos f));
    [| wsimpl; apply lookup_insert_eq | done | done | done].
  cbn [of_node of_pos].
  assert (Hfds : <[fd := mkOpen (of_node f) (of_pos f)]>
                   (<[fd := mkOpen (of_node f) size]>
                      (<[fd := mkOpen (of_node f) (of_pos f)]> (os_fds w)))
                 = os_fds w).
  { rewrite !insert_insert_eq. apply insert_id. by destruct f. }
  match goal with
  | |- _ ?w1 = _ =>
      assert (Hw : w1 = after_queries fd (of_pos f) size w)
        by (unfold after_queries; wsimpl; unfold emit, upd_fds; wsimpl;
            by rewrite Hfds, <- !app_assoc)
  end.
  rewrite Hw.
  destruct (_ || _ || _) eqn:E.
  { apply orb_true_iff in E as [E | E];
      [apply orb_true_iff in E as [E | E] |]; lia. }
  assert (Hlen : (to_size_t (size - of_pos f) =? 0) = (size =? of_pos f)).
  { unfold to_size_t, LOFF_MAX in *.
    destruct (size =? of_pos f) eqn:Eq.
    - apply Z.eqb_eq in Eq as ->. by rewrite Z.sub_diag.
    - apply Z.eqb_neq. intros Hm. apply Z.eqb_neq in Eq. apply Eq.
      apply Z.mod_divide in Hm as [k Hk]; lia. }
  rewrite Hlen. by destruct (size =? of_pos f).
Qed.

(** X1: [getFileStartAndLength] on an open, seekable descriptor reports the
    current offset and the bytes from there to the end, and leaves the
    offset of the descriptor where it was; at the end of the file it fails
    with "file is empty"; past the end the difference wraps around in
    [size_t] and a length near [2^64] is reported. *)
Theorem getFileStartAndLength_keeps_offset (fd : Z) (w : World) (f : OpenFile)
    (size : Z) :
  os_fds w !! fd = Some f → node_size (of_node f) = Some size →
  0 ≤ of_pos f ≤ LOFF_MAX → 0 ≤ size ≤ LOFF_MAX →
  ∃ length w',
    getFileStartAndLength fd w
    = Ok (if size =? of_pos f then None else Some (of_pos f, length)) w'
    ∧ length = (if of_pos f <=? size then size - of_pos f
                else 2 ^ 64 - (of_pos f - size))
    ∧ os_fds w' = os_fds w ∧ os_vm w' = os_vm w ∧ os_heap w' = os_heap w
    ∧ os_trace w'
      = os_trace w
        ++ [EvLseek fd 0 SEEK_CUR (of_pos f); EvLseek fd 0 SEEK_END size;
            EvLseek fd (of_pos f) SEEK_SET (of_pos f)]
        ++ (if size =? of_pos f then [EvLog LogFileEmpty] else []).
Proof.
  intros Hf Hs Hpos Hsize.
  rewrite (getFileStartAndLength_run fd w f size) by done.
  exists (to_size_t (size - of_pos f)).
  assert (Hlen : to_size_t (size - of_pos f)
                 = if of_pos f <=? size then size - of_pos f
                   else 2 ^ 64 - (of_pos f - size)).
  { unfold to_size_t, LOFF_MAX in *. destruct (of_pos f <=? size) eqn:E.
    - apply Z.mod_small. lia.
    - symmetry. apply (Z.mod_unique _ _ (-1)); lia. }
  destruct (size =? of_pos f); eexists; (split; [reflexivity |]);
    unfold after_queries; wsimpl; rewrite <- ?app_assoc, ?app_nil_r;
    by repeat split.
Qed.

Lemma getFileStartAndLength_keeps_offset_witness :
  ∃ length w',
    getFileStartAndLength 3
      (mkWorld ∅ {[ 3 := mkOpen (RegularFile "PK34") 1 ]} [] ∅ [] [] [])
    = Ok (Some (1, length)) w'
    ∧ length = 3
    ∧ os_fds w' = {[ 3 := mkOpen (RegularFile "PK34") 1 ]}
    ∧ os_vm w' = [] ∧ os_heap w' = ∅
    ∧ os_trace w' = [EvLseek 3 0 SEEK_CUR 1; EvLseek 3 0 SEEK_END 4;
                     EvLseek 3 1 SEEK_SET 1].
Proof.
  destruct (getFileStartAndLength_keeps_offset 3
              (mkWorld ∅ {[ 3 := mkOpen (RegularFile "PK34") 1 ]} [] ∅ [] [] [])
              (mkOpen (RegularFile "PK34") 1) 4)
    as (length & w' & H1 & H2 & H3 & H4 & H5 & H6);
    [reflexivity | reflexivity | simpl; unfold LOFF_MAX; lia
    | unfold LOFF_MAX; lia |].
  exists length, w'. by repeat (split; [done |]).
Defined.

Lemma getFileStartAndLength_unseekable fd w :
  (∀ f, os_fds w !! fd = Some f → node_size (of_node f) = None) →
  getFileStartAndLength fd w
  = Ok None
       (emit (EvLog LogLengthUnknown)
          (emit (EvLseek fd (-1) SEEK_SET (-1))
             (emit (EvLseek fd 0 SEEK_END (-1))
                (emit (EvLseek fd 0 SEEK_CUR (-1)) w)))).
Proof.
  intros H. unfold getFileStartAndLength, bind.
  by rewrite !lseek64_unseekable.
Qed.

(** X2: a path that opens but cannot be positioned (a FIFO): all three position
    queries fail, the third being issued at offset -1 all the same, "could
    not determine length of file" is logged, and [sysMapFile] returns 0
    with the zeroed handle, no mapping made. *)
Theorem unseekable_file_returns_success (p : string) (pMap : MemMapping)
    (w : World) :
  block_map_name (Some p) = None →
  os_files w !! p = Some Fifo →
  ∃ fd w',
    sysMapFile (Some p) pMap w = Ok (0, zeroed) w'
    ∧ os_trace w' = os_trace w ++
        [EvOpen (Some p) fd; EvLseek fd 0 SEEK_CUR (-1);
         EvLseek fd 0 SEEK_END (-1); EvLseek fd (-1) SEEK_SET (-1);
         EvLog LogLengthUnknown; EvClose fd]
    ∧ os_vm w' = os_vm w ∧ os_heap w' = os_heap w ∧ os_fds w' = os_fds w.
Proof.
  intros Hname Hfile. exists (fresh_fd (os_fds w)).
  pose proof (fresh_fd_nonneg (os_fds w)) as Hfd0.
  pose proof (fresh_fd_fresh (os_fds w)) as Hfresh.
  unfold sysMapFile. rewrite Hname. unfold bind at 1. unfold open.
  cbn [mbind option_bind]. rewrite Hfile.
  set (fd := fresh_fd (os_fds w)) in *.
  destruct (fd =? -1) eqn:E; [lia |]. clear E.
  unfold bind at 1. unfold sysMapFD. unfold bind at 1.
  rewrite getFileStartAndLength_unseekable.
  2:{ wsimpl. intros f. rewrite lookup_insert_eq. by intros [= <-]. }
  cbn [ret bool_of_int Z.eqb negb fst snd]. unfold bind, close, ret.
  eexists. split; [reflexivity |]. wsimpl. rewrite <- !app_assoc.
  repeat (split; [done |]). by apply heap_restore.
Qed.

Lemma unseekable_file_witness :
  ∃ fd w',
    sysMapFile (Some "/dev/pipe") zeroed
      (mkWorld {[ "/dev/pipe" := Fifo ]} ∅ [] ∅ [Some 4096] [Some 64] [])
    = Ok (0, zeroed) w'
    ∧ os_trace w' =
        [EvOpen (Some "/dev/pipe") fd; EvLseek fd 0 SEEK_CUR (-1);
         EvLseek fd 0 SEEK_END (-1); EvLseek fd (-1) SEEK_SET (-1);
         EvLog LogLengthUnknown; EvClose fd]
    ∧ os_vm w' = [] ∧ os_heap w' = ∅ ∧ os_fds w' = ∅.
Proof.
  apply (unseekable_file_returns_success "/dev/pipe" zeroed
           (mkWorld {[ "/dev/pipe" := Fifo ]} ∅ [] ∅ [Some 4096] [Some 64] []));
    reflexivity.
Defined.

(** X3: [sysMapFD] maps from the current offset of the descriptor: with the
    descriptor at [pos], short of the end of a node of [size] bytes, a
    kernel that grants the address [a] and an allocator that grants the
    block [p], it returns [true] with a handle of [size - pos] bytes at
    [a], one range of the same extent, a read-only mapping of the file
    from offset [pos], and the descriptor still at [pos]. *)
Theorem sysMapFD_maps_from_offset (fd : Z) (pMap : MemMapping) (w : World)
    (f : OpenFile) (size a p : Z) (ms ps : list (option Z)) :
  os_fds w !! fd = Some f → node_size (of_node f) = Some size →
  0 ≤ of_pos f < size → size ≤ LOFF_MAX →
  os_mmap_script w = Some a :: ms →
  0 < a → a + (size - of_pos f) ≤ MAP_FAILED →
  is_free a (size - of_pos f) (os_vm w) = true →
  os_malloc_script w = Some p :: ps →
  0 < p → os_heap w !! p = None →
  ∃ w',
    sysMapFD fd pMap w = Ok (true, mkMap a (size - of_pos f) 1 p) w'
    ∧ os_vm w' = mkRegion a (size - of_pos f) PROT_READ (Some (of_pos f))
                 :: os_vm w
    ∧ os_heap w' = <[p := [mkRange a (size - of_pos f)]]> (os_heap w)
    ∧ os_fds w' = os_fds w
    ∧ os_trace w'
      = os_trace w
        ++ [EvLseek fd 0 SEEK_CUR (of_pos f); EvLseek fd 0 SEEK_END size;
            EvLseek fd (of_pos f) SEEK_SET (of_pos f);
            EvMmap 0 (size - of_pos f) PROT_READ [MAP_PRIVATE] fd (of_pos f) a;
            EvMalloc 1 p].
Proof.
  intros Hf Hs Hpos Hsize Hms Ha0 Ha1 Hfree Hps Hp0 Hpfree.
  unfold sysMapFD. unfold bind at 1.
  rewrite (getFileStartAndLength_run fd w f size) by (done || lia).
  destruct (size =? of_pos f) eqn:E; [lia |]. clear E.
  assert (Hlen : to_size_t (size - of_pos f) = size - of_pos f).
  { unfold to_size_t, LOFF_MAX in *. apply Z.mod_small. lia. }
  rewrite Hlen. set (len := size - of_pos f) in *.
  unfold bind at 1. unfold mmap, after_queries. wsimpl. rewrite Hms.
  cbn [has_flag existsb flag_eqb orb].
  destruct (_ && _) eqn:E; cycle 1.
  { exfalso. rewrite Hfree in E.
    repeat (apply andb_false_iff in E as [E | E]); lia. }
  clear E. wsimpl.
  destruct (a =? MAP_FAILED) eqn:E; [lia |]. clear E.
  unfold bind at 1. unfold malloc_ranges, alloc_ranges. wsimpl.
  rewrite Hps, Hpfree. destruct (0 <? p) eqn:E; [| lia]. clear E.
  cbn [mm_addr mm_length mm_range_count mm_ranges].
  destruct (p =? 0) eqn:E; [lia |]. clear E.
  unfold bind at 1. unfold store_range. wsimpl.
  destruct (p =? 0) eqn:E; [lia |]. clear E.
  rewrite lookup_insert_eq. cbn [replicate Z.to_nat Pos.to_nat Pos.iter_op
                                 length andb Z.leb Z.ltb Z.compare Z.of_nat
                                 Pos.of_succ_nat Pos.compare Pos.compare_cont].
  unfold ret. eexists. split; [reflexivity |]. wsimpl.
  rewrite insert_insert_eq, <- !app_assoc. by repeat split.
Qed.

Lemma sysMapFD_maps_from_offset_witness :
  ∃ w',
    sysMapFD 3 zeroed
      (mkWorld ∅ {[ 3 := mkOpen (RegularFile "PK34") 1 ]} [] ∅
               [Some 4096] [Some 64] [])
    = Ok (true, mkMap 4096 3 1 64) w'
    ∧ os_vm w' = [mkRegion 4096 3 PROT_READ (Some 1)]
    ∧ os_heap w' = {[ 64 := [mkRange 4096 3] ]}
    ∧ os_fds w' = {[ 3 := mkOpen (RegularFile "PK34") 1 ]}
    ∧ os_trace w' =
        [EvLseek 3 0 SEEK_CUR 1; EvLseek 3 0 SEEK_END 4; EvLseek 3 1 SEEK_SET 1;
         EvMmap 0 3 PROT_READ [MAP_PRIVATE] 3 1 4096; EvMalloc 1 64].
Proof.
  destruct (sysMapFD_maps_from_offset 3 zeroed
              (mkWorld ∅ {[ 3 := mkOpen (RegularFile "PK34") 1 ]} [] ∅
                       [Some 4096] [Some 64] [])
              (mkOpen (RegularFile "PK34") 1) 4 4096 64 [] [])
    as (w' & H1 & H2 & H3 & H4 & H5);
    [reflexivity | reflexivity | simpl; lia | unfold LOFF_MAX; lia
    | reflexivity | lia | unfold MAP_FAILED; simpl; lia | reflexivity
    | reflexivity | lia | reflexivity |].
  exists w'. by repeat (split; [done |]).
Defined.

Lemma bind_ok {A B} (m : M A) (k : A → M B) w a w1 :
  m w = Ok a w1 → bind m k w = k a w1.
Proof. unfold bind. by intros ->. Qed.


(** X4: when [sysMapFD] returns [false], the address space and the heap are as
    they were, and either the mapping call failed and the handle is
    untouched, or the allocation of the range array failed and the handle
    is left with the address and the length of the mapping (by then
    unmapped again), a range count of 1 and no range array. *)
Theorem sysMapFD_failure_handle (fd : Z) (pMap pMap' : MemMapping)
    (w w' : World) :
  sysMapFD fd pMap w = Ok (false, pMap') w' →
  os_vm w' = os_vm w ∧ os_heap w' = os_heap w
  ∧ ∃ d, os_trace w' = os_trace w ++ d
         ∧ ((∃ len, last d = Some (EvLog (LogMmapFailed len fd))
                    ∧ pMap' = pMap)
            ∨ (∃ addr len off,
                 pMap' = mkMap addr len 1 0
                 ∧ In (EvMmap 0 len PROT_READ [MAP_PRIVATE] fd off addr) d
                 ∧ In (EvMalloc 1 0) d ∧ In (EvLog LogMallocFailed) d
                 ∧ last d = Some (EvMunmap addr len 0))).
Proof.
  intros Hrun.
  destruct (wp_run _ _ _ _ _ (sysMapFD_spec fd pMap w) Hrun)
    as (start & end_ & r & o & Htr & Hres & Hwf & _ & _ & _ & Hmem).
  destruct o as [| | | memPtr | memPtr p]; simpl in Hres; try done;
    injection Hres as ->; cbn [fd_ranges] in Hmem; destruct Hmem as [-> ->];
    (split; [done |]); (split; [done |]); eexists; (split; [exact Htr |]).
  - left. by eexists.
  - right. exists memPtr, (fd_length start end_), start.
    split; [done |]. unfold fd_events, fd_mmap. simpl. auto 10.
Qed.

Lemma sysMapFD_failure_handle_witness :
  ∃ pMap' w',
    sysMapFD 3 zeroed
      (mkWorld ∅ {[ 3 := mkOpen (RegularFile "PK34") 0 ]} [] ∅
               [Some 4096] [None] [])
    = Ok (false, pMap') w'
    ∧ os_vm w' = [] ∧ os_heap w' = ∅
    ∧ pMap' = mkMap 4096 4 1 0
    ∧ last (os_trace w') = Some (EvMunmap 4096 4 0).
Proof.
  eexists _, _.
  assert (H : sysMapFD 3 zeroed
      (mkWorld ∅ {[ 3 := mkOpen (RegularFile "PK34") 0 ]} [] ∅
               [Some 4096] [None] [])
      = Ok (false, _) _) by (vm_compute; reflexivity).
  destruct (sysMapFD_failure_handle _ _ _ _ _ H) as (H1 & H2 & _).
  split; [exact H |]. by repeat (split; [done |]).
Defined.

(** X8: a call of [sysMapFile] that does not return 0 returns -1 and leaves no
    resource behind: the address space, the heap, the descriptor table and
    the files are as before the call. *)
Theorem failed_map_leaks_nothing (fn : option string) (pMap : MemMapping)
    (w w' : World) (res : Z * MemMapping) :
  sysMapFile fn pMap w = Ok res w' →
  res.1 ≠ 0 →
  res.1 = -1
  ∧ os_vm w' = os_vm w ∧ os_heap w' = os_heap w
  ∧ os_fds w' = os_fds w ∧ os_files w' = os_files w.
Proof. apply failure_restores. Qed.

Lemma failed_map_leaks_nothing_witness :
  ∃ res w',
    sysMapFile (Some "@/cache/block.map") zeroed
      (demo_world two_extents [Some 4096; Some 0; None] [Some 64]) = Ok res w'
    ∧ res.1 = -1
    ∧ os_vm w' = [] ∧ os_heap w' = ∅ ∧ os_fds w' = ∅.
Proof.
  eexists _, _.
  assert (H : sysMapFile (Some "@/cache/block.map") zeroed
      (demo_world two_extents [Some 4096; Some 0; None] [Some 64])
      = Ok (-1, _) _) by (vm_compute; reflexivity).
  destruct (failed_map_leaks_nothing _ _ _ _ _ H)
    as (H1 & H2 & H3 & H4 & _); [done |].
  split; [exact H |]. by repeat (split; [done |]).
Defined.

(** X9: a name under which nothing opens: [NULL], a path that does not exist,
    or a block-map name whose map file does not exist. [sysMapFile] returns
    -1 with the zeroed handle after the failed opening and the "Unable to
    open" diagnostic, and changes nothing else. *)
Theorem missing_file_fails_cleanly (fn : option string) (pMap : MemMapping)
    (w : World) :
  match block_map_name fn with
  | Some fn1 => os_files w !! fn1
  | None => fn ≫= (λ p, os_files w !! p)
  end = None →
  ∃ w',
    sysMapFile fn pMap w = Ok (-1, zeroed) w'
    ∧ os_trace w'
      = os_trace w
        ++ match block_map_name fn with
           | Some fn1 => [EvFopen fn1 None; EvLog (LogUnableToOpen (Some fn1))]
           | None => [EvOpen fn (-1); EvLog (LogUnableToOpen fn)]
           end
    ∧ os_vm w' = os_vm w ∧ os_heap w' = os_heap w ∧ os_fds w' = os_fds w
    ∧ os_mmap_script w' = os_mmap_script w
    ∧ os_malloc_script w' = os_malloc_script w.
Proof.
  intros Hnone. unfold sysMapFile.
  destruct (block_map_name fn) as [fn1 |].
  - unfold bind at 1. unfold fopen. rewrite Hnone.
    eexists. split; [reflexivity |]. wsimpl. by rewrite <- app_assoc.
  - unfold bind at 1. unfold open. rewrite Hnone.
    eexists. split; [reflexivity |]. wsimpl. by rewrite <- app_assoc.
Qed.

Lemma missing_file_witness :
  ∃ w',
    sysMapFile None zeroed (demo_world "" [Some 4096] [Some 64])
    = Ok (-1, zeroed) w'
    ∧ os_trace w' = [EvOpen None (-1); EvLog (LogUnableToOpen None)]
    ∧ os_vm w' = [] ∧ os_heap w' = ∅ ∧ os_fds w' = ∅
    ∧ os_mmap_script w' = [Some 4096] ∧ os_malloc_script w' = [Some 64].
Proof.
  apply (missing_file_fails_cleanly None zeroed
           (demo_world "" [Some 4096] [Some 64])).
  reflexivity.
Defined.

(** X10: an empty block-map file: the read of the device line finds the end of
    the file, "failed to read block device from header" is logged, and
    [sysMapFile] returns -1 with the zeroed handle; nothing was scanned,
    allocated or mapped. *)
Theorem empty_block_map_fails (fn : option string) (fn1 : string)
    (pMap : MemMapping) (w : World) :
  block_map_name fn = Some fn1 →
  os_files w !! fn1 = Some (RegularFile "") →
  ∃ mapf w',
    sysMapFile fn pMap w = Ok (-1, zeroed) w'
    ∧ os_trace w'
      = os_trace w
        ++ [EvFopen fn1 (Some mapf); EvFgets mapf None;
            EvLog LogReadBlockDevFailed; EvLog (LogMapOfFailed fn);
            EvFclose mapf]
    ∧ os_vm w' = os_vm w ∧ os_heap w' = os_heap w ∧ os_fds w' = os_fds w.
Proof.
  intros Hname Hfile. exists (fresh_fd (os_fds w)).
  pose proof (fresh_fd_fresh (os_fds w)) as Hfresh.
  unfold sysMapFile. rewrite Hname.
  erewrite bind_ok; [| unfold fopen; rewrite Hfile; reflexivity].
  set (mapf := fresh_fd (os_fds w)) in *. cbv iota beta.
  erewrite bind_ok; cycle 1.
  { unfold sysMapBlockFile.
    erewrite bind_ok;
      [| unfold fgets; wsimpl; rewrite lookup_insert_eq; reflexivity].
    cbv iota beta. erewrite bind_ok; reflexivity. }
  cbn [fst snd negb Z.eqb].
  erewrite bind_ok; [| reflexivity].
  erewrite bind_ok;
    [| unfold fclose; wsimpl; rewrite lookup_insert_eq; reflexivity].
  eexists. split; [reflexivity |]. wsimpl. rewrite <- !app_assoc.
  repeat (split; [done |]). by apply heap_restore.
Qed.

Lemma empty_block_map_witness :
  ∃ mapf w',
    sysMapFile (Some "@/sdcard/empty") zeroed
      (demo_world "" [Some 4096] [Some 64]) = Ok (-1, zeroed) w'
    ∧ os_trace w' =
        [EvFopen "/sdcard/empty" (Some mapf); EvFgets mapf None;
         EvLog LogReadBlockDevFailed;
         EvLog (LogMapOfFailed (Some "@/sdcard/empty")); EvFclose mapf]
    ∧ os_vm w' = [] ∧ os_heap w' = ∅ ∧ os_fds w' = ∅.
Proof.
  apply (empty_block_map_fails (Some "@/sdcard/empty") "/sdcard/empty" zeroed
           (demo_world "" [Some 4096] [Some 64])); reflexivity.
Defined.

Lemma logs_app tr1 tr2 : logs (tr1 ++ tr2) = logs tr1 ++ logs tr2.
Proof. apply omap_app. Qed.

Lemma logs_walk mapf fd blksize exts : ∀ next,
  logs (walk_events mapf fd blksize next exts) = [].
Proof.
  induction exts as [| x t IH]; intros next; [done |].
  simpl. unfold logs in *. simpl. apply IH.
Qed.

(** X11: the diagnostics tell the result. A call that returns -1 logged either
    "Unable to open" alone, or the cause of the failure followed by "Map of
    ... failed"; a call that returns 0 logged nothing, or "mmapped n
    ranges" (the block-map strategy), or - the position queries having
    failed or found no byte - "could not determine length" or "file is
    empty" without any "Map of ... failed". *)
Theorem diagnostics_tell_the_result (fn : option string) (pMap : MemMapping)
    (w w' : World) (res : Z * MemMapping) (d : list Event) :
  sysMapFile fn pMap w = Ok res w' →
  os_trace w' = os_trace w ++ d →
  (res.1 = -1
   ∧ ((∃ name, logs d = [LogUnableToOpen name])
      ∨ (∃ cause, is_cause cause = true
                  ∧ logs d = [cause; LogMapOfFailed fn])))
  ∨ (res.1 = 0
     ∧ (logs d = [] ∨ (∃ n, logs d = [LogMmappedRanges n])
        ∨ logs d = [LogFileEmpty] ∨ logs d = [LogLengthUnknown])).
Proof.
  intros Hrun Hd.
  destruct (sysMapFile_run _ _ _ _ _ Hrun) as (run & Htr & -> & Hwf & _).
  rewrite Htr in Hd. apply app_inv_head in Hd as <-. cbn [fst].
  destruct run as [fn1 | fn1 mapf o | | fd start end_ r o].
  - left. split; [done |]. left. by eexists.
  - cbn [run_ret run_events].
    change (EvFopen fn1 (Some mapf) :: ?l) with ([EvFopen fn1 (Some mapf)] ++ l).
    rewrite !logs_app.
    destruct o as [| line n vals | h | h | h p | h p reserve
                   | h p reserve fd exts st];
      try (left; split; [done |]; right; eexists; (split; [| reflexivity]); reflexivity).
    unfold block_events. rewrite !logs_app, logs_walk.
    destruct st as [[n vals | s e | s e] |];
      try (left; split; [done |]; right; eexists; (split; [| reflexivity]); reflexivity).
    cbn [block_ret]. destruct (bytes (h_blksize h) exts =? h_total h).
    + right. split; [done |]. right. left. by eexists.
    + left. split; [done |]. right.
      eexists; (split; [| reflexivity]); reflexivity.
  - left. split; [done |]. left. by eexists.
  - cbn [run_ret run_events].
    destruct o as [| | | memPtr | memPtr p].
    + right. split; [done |]. auto.
    + right. split; [done |]. auto.
    + left. split; [done |]. right.
      eexists; (split; [| reflexivity]); reflexivity.
    + left. split; [done |]. right.
      eexists; (split; [| reflexivity]); reflexivity.
    + right. split; [done |]. auto.
Qed.

Lemma diagnostics_witness :
  ∃ res w',
    sysMapFile (Some "@/cache/block.map") zeroed
      (demo_world one_of_two [Some 4096; Some 0] [Some 64]) = Ok res w'
    ∧ res.1 = -1
    ∧ logs (os_trace w')
      = [LogParseRangeFailed 1; LogMapOfFailed (Some "@/cache/block.map")].
Proof.
  eexists _, _.
  assert (H : sysMapFile (Some "@/cache/block.map") zeroed
      (demo_world one_of_two [Some 4096; Some 0] [Some 64])
      = Ok (-1, _) _) by (vm_compute; reflexivity).
  split; [exact H |].
  destruct (diagnostics_tell_the_result _ _ _ _ _ _ H eq_refl)
    as [[H1 _] | [H1 _]]; [| done].
  split; [exact H1 | reflexivity].
Defined.

(** *** Fixed mappings *)

Lemma walk_events_fixed mapf fd blksize exts :
  ∀ next a len prot flags fd' off ret,
  0 < blksize → Forall good_ext exts →
  In (EvMmap a len prot flags fd' off ret)
     (walk_events mapf fd blksize next exts) →
  next ≤ a ∧ 0 < len ∧ a + len ≤ next + bytes blksize exts.
Proof.
  induction exts as [| x t IH];
    intros next a len prot flags fd' off ret Hb Hg Hin; [done |].
  apply Forall_cons in Hg as [Hx Hg]. rewrite bytes_cons.
  pose proof (ext_len_positive blksize x Hb Hx) as Hlen.
  pose proof (bytes_nonneg blksize t Hb Hg) as Ht.
  destruct Hin as [Hin | [Hin | Hin]]; [done | |].
  - unfold ext_mmap in Hin. injection Hin as <- <- _ _ _ _ _. lia.
  - specialize (IH _ _ _ _ _ _ _ _ Hb Hg Hin). lia.
Qed.

(** X12: every [mmap] that [sysMapFile] issues with [MAP_FIXED] targets a
    non-empty range inside the reservation made earlier in the same call,
    on addresses that were free before the call: a fixed mapping never
    lands on a mapping that existed before. *)
Theorem fixed_mappings_stay_in_reservation (fn : option string)
    (pMap : MemMapping) (w w' : World) (res : Z * MemMapping)
    (d : list Event) (a len : Z) (prot : Prot) (flags : list MapFlag)
    (fd off ret : Z) :
  sysMapFile fn pMap w = Ok res w' →
  os_trace w' = os_trace w ++ d →
  In (EvMmap a len prot flags fd off ret) d →
  has_flag MAP_FIXED flags = true →
  ∃ reserve total,
    In (EvMmap 0 total PROT_NONE [MAP_PRIVATE; MAP_ANON] (-1) 0 reserve) d
    ∧ reserve ≠ MAP_FAILED
    ∧ is_free reserve total (os_vm w) = true
    ∧ reserve ≤ a ∧ 0 < len ∧ a + len ≤ reserve + total.
Proof.
  intros Hrun Hd Hin Hfixed.
  pose proof (sysMapFile_replay _ _ _ _ _ _ Hrun Hd) as Hvm.
  destruct (sysMapFile_run _ _ _ _ _ Hrun) as (run & Htr & _ & Hwf & _).
  rewrite Htr in Hd. apply app_inv_head in Hd as <-.
  destruct run as [fn1 | fn1 mapf o | | fd0 start end_ r o].
  - in_cases Hin; done.
  - destruct Hwf as (_ & _ & _ & Hwf).
    destruct o as [| line n vals | h | h | h p | h p reserve
                   | h p reserve fd0 exts st];
      try (simpl in Hin; try unfold reserve_event in Hin; in_cases Hin;
           try discriminate Hin; inversion Hin; subst;
           by vm_compute in Hfixed).
    destruct Hwf as (Hv & Hp & Hfd & Hr0 & Hr1 & Hgood & Hbytes & _ & _ & Hst).
    pose proof (valid_header_total h Hv) as Htot.
    pose proof Hv as (_ & Hb & _).
    exists reserve, (h_total h).
    rewrite walked_run_events in Hvm, Hin.
    apply replay_some_app in Hvm as (vm1 & Hvm1 & _).
    rewrite replay_walk_prefix in Hvm1 by lia.
    destruct (is_free reserve (h_total h) (os_vm w)) eqn:Hfree; [| done].
    split.
    { rewrite walked_run_events. apply in_or_app. left.
      unfold walk_prefix, header_events, reserve_event. simpl. auto 10. }
    split; [lia |]. split; [done |].
    apply in_app_or in Hin as [Hin | Hin].
    { unfold walk_prefix, header_events, reserve_event in Hin.
      in_cases Hin; try discriminate Hin; inversion Hin; subst;
      by vm_compute in Hfixed. }
    apply in_app_or in Hin as [Hin | Hin].
    { apply walk_events_fixed in Hin; [lia | lia | done]. }
    apply in_app_or in Hin as [Hin | Hin].
    + destruct st as [[n vals | s e | s e] |];
        try (in_cases Hin; simplify_eq; done).
      destruct Hst as (Hbad & Hs & He).
      destruct (good_range _ _ _ _ Hs He (proj1 Hb) Hbad)
        as (Hse & _ & Hle & Hpos).
      pose proof (bytes_nonneg _ _ (proj1 Hb) Hgood) as Hb0.
      unfold ext_mmap, ext_len in Hin. cbn [fst snd] in Hin.
      in_cases Hin; try discriminate Hin; inversion Hin; subst.
      unfold ext_len. cbn [fst snd]. lia.
    + destruct st as [st |].
      * unfold unwind_events in Hin. in_cases Hin; simplify_eq.
      * destruct (_ =? _); unfold unwind_events in Hin;
          in_cases Hin; simplify_eq.
  - in_cases Hin; done.
  - destruct o; simpl in Hin; unfold fd_mmap in Hin; in_cases Hin;
      try discriminate Hin; inversion Hin; subst; by vm_compute in Hfixed.
Qed.

Lemma fixed_mappings_witness :
  ∃ res w' reserve total,
    sysMapFile (Some "@/cache/block.map") zeroed
      (demo_world two_extents [Some 4096; Some 0; Some 0] [Some 64])
    = Ok res w'
    ∧ In (EvMmap 4146 50 PROT_READ [MAP_PRIVATE; MAP_FIXED] 1 50 4146)
         (os_trace w')
    ∧ In (EvMmap 0 total PROT_NONE [MAP_PRIVATE; MAP_ANON] (-1) 0 reserve)
         (os_trace w')
    ∧ reserve ≠ MAP_FAILED
    ∧ reserve ≤ 4146 ∧ 4146 + 50 ≤ reserve + total.
Proof.
  eexists _, _.
  assert (H : sysMapFile (Some "@/cache/block.map") zeroed
      (demo_world two_extents [Some 4096; Some 0; Some 0] [Some 64])
      = Ok _ _) by (vm_compute; reflexivity).
  match type of H with
  | _ = Ok _ ?w1 =>
      destruct (fixed_mappings_stay_in_reservation _ _ _ _ _ (os_trace w1)
                  4146 50 PROT_READ [MAP_PRIVATE; MAP_FIXED] 1 50 4146
                  H eq_refl)
        as (reserve & total & H1 & H2 & _ & H4 & _ & H6);
        [simpl; auto 12 | reflexivity |]
  end.
  exists reserve, total. split; [exact H |].
  split; [simpl; auto 12 |]. by repeat (split; [done |]).
Defined.

Lemma sysMapFile_ret fn pMap w res w' :
  sysMapFile fn pMap w = Ok res w' → res.1 = 0 ∨ res.1 = -1.
Proof.
  intros Hrun.
  destruct (sysMapFile_run _ _ _ _ _ Hrun) as (run & _ & -> & _).
  destruct run as [fn1 | fn1 mapf o | | fd start end_ r o]; simpl; auto.
  - destruct (block_ret o =? 0); auto.
  - destruct (fd_ret o); auto.
Qed.

Lemma bytes_at_least blksize exts :
  0 < blksize → Forall good_ext exts →
  Z.of_nat (length exts) * blksize ≤ bytes blksize exts.
Proof.
  intros Hb. induction 1 as [| x t [Hx _] _ IH]; [done |].
  rewrite bytes_cons. unfold ext_len. simpl length. nia.
Qed.

Lemma success_header fn fn1 mapf mapf' h p reserve fd exts vals :
  In (EvFscanf mapf' FmtHeader 3 vals)
     (run_events fn (RBlock fn1 mapf (OWalked h p reserve fd exts None))) →
  vals = [h_size h; h_blksize h; h_count h].
Proof.
  intros Hin. rewrite walked_run_events in Hin.
  apply in_app_or in Hin as [Hin | Hin].
  { unfold walk_prefix, header_events, reserve_event in Hin.
    in_cases Hin; by simplify_eq. }
  apply in_app_or in Hin as [Hin | Hin].
  { apply walk_events_In in Hin as [(s & e & H) | (a & l & off & H)]; done. }
  simpl in Hin. destruct (_ =? _); unfold unwind_events in Hin;
    in_cases Hin; done.
Qed.

(** X13: a header that declares more extents than the object has blocks is never
    mapped: every extent takes at least one block and the extents must fill
    the blocks exactly, so [sysMapFile] returns -1 whatever extents
    follow. *)
Theorem too_many_extents_rejected (fn : option string) (fn1 : string)
    (pMap : MemMapping) (w w' : World) (res : Z * MemMapping)
    (d : list Event) (mapf size blksize count : Z) :
  block_map_name fn = Some fn1 →
  sysMapFile fn pMap w = Ok res w' →
  os_trace w' = os_trace w ++ d →
  In (EvFscanf mapf FmtHeader 3 [size; blksize; count]) d →
  (size - 1) / blksize + 1 < count →
  res.1 = -1.
Proof.
  intros Hname Hrun Hd Hin Hcount.
  destruct (sysMapFile_ret _ _ _ _ _ Hrun) as [H0 | H1]; [| done].
  exfalso. destruct res as [r pMap']. cbn [fst] in H0. subst r.
  destruct (block_success_vm _ _ _ _ _ _ Hname Hrun)
    as (mapf' & h & p & reserve & fd & exts & Htr & Hv & Hgood & Hbytes
        & Hlen & _).
  rewrite Htr in Hd. apply app_inv_head in Hd as <-.
  apply success_header in Hin. injection Hin as -> -> ->.
  destruct Hv as (Hs & Hb & Hc & Htot).
  pose proof (bytes_at_least _ _ (proj1 Hb) Hgood) as Hle.
  rewrite Hbytes, Hlen in Hle. unfold h_total, h_blocks in Hle. nia.
Qed.

Lemma too_many_extents_witness :
  ∃ res w',
    sysMapFile (Some "@/cache/block.map") zeroed
      (demo_world crowded_map [Some 4096; Some 0; Some 0; Some 0] [Some 64])
    = Ok res w'
    ∧ In (EvFscanf 0 FmtHeader 3 [20; 10; 3]) (os_trace w')
    ∧ res.1 = -1.
Proof.
  eexists _, _.
  assert (H : sysMapFile (Some "@/cache/block.map") zeroed
      (demo_world crowded_map [Some 4096; Some 0; Some 0; Some 0] [Some 64])
      = Ok _ _) by (vm_compute; reflexivity).
  split; [exact H |]. split; [simpl; auto |].
  match type of H with
  | _ = Ok _ ?w1 =>
      apply (too_many_extents_rejected (Some "@/cache/block.map")
               "/cache/block.map" _ _ _ _ (os_trace w1) 0 20 10 3 eq_refl H
               eq_refl); [simpl; auto | reflexivity]
  end.
Defined.

(** X14: a header line that does not give three numbers: [sysMapFile] returns -1
    with the zeroed handle right after the scan, having logged "failed to
    parse block map header"; nothing was allocated or mapped. *)
Theorem malformed_header_rejected (fn : option string) (pMap : MemMapping)
    (w w' : World) (res : Z * MemMapping) (d : list Event) (mapf n : Z)
    (vals : list Z) :
  sysMapFile fn pMap w = Ok res w' →
  os_trace w' = os_trace w ++ d →
  In (EvFscanf mapf FmtHeader n vals) d →
  n ≠ 3 →
  res = (-1, zeroed)
  ∧ (∃ fn1 line,
       block_map_name fn = Some fn1
       ∧ d = [EvFopen fn1 (Some mapf); EvFgets mapf (Some line);
              EvFscanf mapf FmtHeader n vals; EvLog LogParseHeaderFailed;
              EvLog (LogMapOfFailed fn); EvFclose mapf])
  ∧ os_vm w' = os_vm w ∧ os_heap w' = os_heap w ∧ os_fds w' = os_fds w.
Proof.
  intros Hrun Hd Hin Hn.
  destruct (sysMapFile_run _ _ _ _ _ Hrun)
    as (run & Htr & -> & Hwf & Hfds & _ & Hmem).
  rewrite Htr in Hd. apply app_inv_head in Hd as <-.
  destruct run as [fn1 | fn1 mapf' o | | fd start end_ r o];
    cbn [run_wf] in Hwf.
  - in_cases Hin; done.
  - destruct Hwf as (Hname & _ & _ & Hwf).
    destruct o as [| line n' vals' | h | h | h p | h p reserve
                   | h p reserve fd exts st].
    + in_cases Hin; done.
    + simpl in Hin. in_cases Hin; simplify_eq.
      simpl in *. destruct Hmem as [-> ->].
      repeat (split; [done |]). split; [| done]. by exists fn1, line.
    + simpl in Hin. in_cases Hin; simplify_eq.
    + simpl in Hin. in_cases Hin; simplify_eq.
    + simpl in Hin. unfold reserve_event in Hin. in_cases Hin; simplify_eq.
    + simpl in Hin. unfold reserve_event in Hin. in_cases Hin; simplify_eq.
    + rewrite walked_run_events in Hin.
      apply in_app_or in Hin as [Hin | Hin].
      { unfold walk_prefix, header_events, reserve_event in Hin.
        in_cases Hin; simplify_eq. }
      apply in_app_or in Hin as [Hin | Hin].
      { apply walk_events_In in Hin as [(s & e & H) | (a & l & off & H)];
          done. }
      apply in_app_or in Hin as [Hin | Hin].
      { destruct st as [[] |]; unfold ext_mmap in Hin; in_cases Hin; done. }
      destruct st as [st |]; [| destruct (_ =? _)];
        unfold unwind_events in Hin; in_cases Hin; done.
  - in_cases Hin; done.
  - simpl in Hin. destruct o; unfold fd_mmap in Hin; in_cases Hin; done.
Qed.

Lemma malformed_header_witness :
  ∃ w',
    sysMapFile (Some "@/cache/block.map") zeroed
      (demo_world short_header [Some 4096] [Some 64]) = Ok (-1, zeroed) w'
    ∧ os_trace w' =
        [EvFopen "/cache/block.map" (Some 0);
         EvFgets 0 (Some ("/dev/block/sda1" +:+ nl));
         EvFscanf 0 FmtHeader 1 [100]; EvLog LogParseHeaderFailed;
         EvLog (LogMapOfFailed (Some "@/cache/block.map")); EvFclose 0]
    ∧ os_vm w' = [] ∧ os_heap w' = ∅ ∧ os_fds w' = ∅.
Proof.
  eexists.
  assert (H : sysMapFile (Some "@/cache/block.map") zeroed
      (demo_world short_header [Some 4096] [Some 64])
      = Ok _ _) by (vm_compute; reflexivity).
  match type of H with
  | _ = Ok _ ?w1 =>
      destruct (malformed_header_rejected (Some "@/cache/block.map") zeroed
                  _ _ _ (os_trace w1) 0 1 [100] H eq_refl)
        as (H1 & _ & H3 & H4 & H5); [simpl; auto | done |]
  end.
  rewrite H1 in H. split; [exact H |]. by repeat (split; [done |]).
Defined.

(** X15: [sysReleaseMap] goes through all of the ranges of the handle in order:
    a range of positive length is unmapped, a range whose length is not
    positive makes [munmap] fail, which is logged and does not stop the
    loop; then the range array is freed and the handle holds no range. *)
Theorem release_goes_through_every_range (pMap : MemMapping) (w : World)
    (arr : list MappedRange) :
  holds pMap w arr →
  ∃ w',
    sysReleaseMap pMap w = Ok (mkMap (mm_addr pMap) (mm_length pMap) 0 0) w'
    ∧ os_trace w' = os_trace w ++ release_events arr
                    ++ [EvFree (mm_ranges pMap)]
    ∧ os_vm w' = unmap_ranges arr (os_vm w)
    ∧ os_heap w' = (if mm_ranges pMap =? 0 then os_heap w
                    else delete (mm_ranges pMap) (os_heap w))
    ∧ os_fds w' = os_fds w.
Proof.
  intros Hholds.
  destruct (wp_returns _ _ _ (sysReleaseMap_spec pMap w arr Hholds))
    as (pMap2 & w2 & Hrel & -> & Htr & Hh & Hf & _).
  exists w2. split; [done |].
  destruct (tracks_sysReleaseMap _ _ _ _ Hrel) as (evs & Htr' & Hvm).
  rewrite Htr' in Htr. apply app_inv_head in Htr as ->.
  rewrite replay_app, replay_release in Hvm. simpl in Hvm.
  injection Hvm as <-. by rewrite Htr'.
Qed.

Lemma release_goes_through_witness :
  ∃ w',
    sysReleaseMap (mkMap 4096 60 3 64)
      (mkWorld ∅ ∅
         [mkRegion 8192 10 PROT_READ (Some 0); mkRegion 20000 5 PROT_READ None;
          mkRegion 4096 50 PROT_READ (Some 0)]
         {[ 64 := [mkRange 4096 50; mkRange 0 0; mkRange 8192 10] ]}
         [] [] [])
    = Ok (mkMap 4096 60 0 0) w'
    ∧ os_trace w' =
        [EvMunmap 4096 50 0; EvMunmap 0 0 (-1); EvLog (LogMunmapFailed 0 0);
         EvMunmap 8192 10 0; EvFree 64]
    ∧ os_vm w' = [mkRegion 20000 5 PROT_READ None]
    ∧ os_heap w' = ∅ ∧ os_fds w' = ∅.
Proof.
  destruct (release_goes_through_every_range (mkMap 4096 60 3 64)
      (mkWorld ∅ ∅
         [mkRegion 8192 10 PROT_READ (Some 0); mkRegion 20000 5 PROT_READ None;
          mkRegion 4096 50 PROT_READ (Some 0)]
         {[ 64 := [mkRange 4096 50; mkRange 0 0; mkRange 8192 10] ]}
         [] [] [])
      [mkRange 4096 50; mkRange 0 0; mkRange 8192 10])
    as (w' & H1 & H2 & H3 & H4 & H5); [by split |].
  exists w'. split; [exact H1 |]. split; [exact H2 |]. split; [exact H3 |].
  split; [| exact H5]. rewrite H4. by vm_compute.
Defined.

(** *** Strings *)

Lemma str_app_cons c (a b : string) : String c a +:+ b = String c (a +:+ b).
Proof. done. Qed.

Lemma str_app_nil (b : string) : EmptyString +:+ b = b.
Proof. done. Qed.

Lemma str_app_assoc (a b c : string) : (a +:+ b) +:+ c = a +:+ (b +:+ c).
Proof.
  induction a as [| x a IH]; [done |]. by rewrite !str_app_cons, IH.
Qed.

Lemma str_length_app (a b : string) :
  String.length (a +:+ b) = (String.length a + String.length b)%nat.
Proof.
  induction a as [| x a IH]; [done |]. rewrite str_app_cons. simpl.
  by rewrite IH.
Qed.

Lemma drop_str_app (pre rest : string) :
  drop_str (String.length pre) (pre +:+ rest) = rest.
Proof.
  induction pre as [| x pre IH]; [by destruct rest |].
  rewrite str_app_cons. simpl. exact IH.
Qed.

Lemma drop_str_add (a b : nat) : ∀ s,
  drop_str (a + b) s = drop_str b (drop_str a s).
Proof.
  induction a as [| a IH]; intros s; simpl.
  - by destruct b, s.
  - destruct s as [| c t]; [by destruct b | apply IH].
Qed.

(** Reading up to [rest] moves a stream to [rest]. *)
Lemma advance_unread o pre rest :
  0 ≤ of_pos o → unread o = pre +:+ rest →
  unread (advance o rest) = rest ∧ 0 ≤ of_pos (advance o rest).
Proof.
  intros Hpos Hun. unfold advance, unread in *. cbn [of_node of_pos].
  rewrite Hun, str_length_app.
  replace (String.length pre + String.length rest - String.length rest)%nat
    with (String.length pre) by lia.
  split; [| lia].
  rewrite Z2Nat.inj_add, Nat2Z.id by lia.
  by rewrite drop_str_add, Hun, drop_str_app.
Qed.

Lemma take_line_text k line rest :
  has_char newline line = false → (String.length line < k)%nat →
  take_line k (line +:+ nl +:+ rest) = (line +:+ nl, rest).
Proof.
  revert k. induction line as [| c t IH]; intros k Hno Hk.
  - destruct k; [simpl in Hk; lia |]. done.
  - destruct k; [simpl in Hk; lia |]. rewrite !str_app_cons. simpl in *.
    apply orb_false_iff in Hno as [Hc Ht]. rewrite Hc.
    rewrite IH by (done || lia). done.
Qed.

Lemma device_name line :
  has_char newline line = false → has_char NUL line = false →
  c_str (strip_newline (line +:+ nl)) = line.
Proof.
  induction line as [| c t IH]; intros Hnl Hnul; [done |].
  rewrite str_app_cons. simpl in *. apply orb_false_iff in Hnl as [Hc Ht].
  apply orb_false_iff in Hnul as [Hc' Ht'].
  rewrite Hc. simpl. rewrite Hc'. by rewrite IH.
Qed.

(** *** Decimal numerals *)

Lemma digit_cases d :
  0 ≤ d < 10 →
  d = 0 ∨ d = 1 ∨ d = 2 ∨ d = 3 ∨ d = 4 ∨ d = 5 ∨ d = 6 ∨ d = 7 ∨ d = 8
  ∨ d = 9.
Proof. lia. Qed.

Lemma digit_of_char d : 0 ≤ d < 10 → digit_of (digit_char d) = Some d.
Proof.
  intros H. destruct (digit_cases d H) as [-> | H1]; [done |].
  repeat (destruct H1 as [-> | H1]; [done |]). by subst.
Qed.

Lemma digit_char_plain d :
  0 ≤ d < 10 →
  is_space (digit_char d) = false
  ∧ digit_char d ≠ "-"%char ∧ digit_char d ≠ "+"%char.
Proof.
  intros H. destruct (digit_cases d H) as [-> | H1]; [done |].
  repeat (destruct H1 as [-> | H1]; [done |]). by subst.
Qed.

Lemma dec_digits_app fuel : ∀ n acc rest,
  dec_digits fuel n acc +:+ rest = dec_digits fuel n (acc +:+ rest).
Proof.
  induction fuel as [| k IH]; intros n acc rest; simpl; [done |].
  destruct (n <? 10); [done |]. by rewrite IH, str_app_cons.
Qed.

Lemma dec_app n rest : dec n +:+ rest = dec_digits 20 n rest.
Proof. unfold dec. by rewrite dec_digits_app. Qed.

Lemma scan_dec_digits fuel : ∀ n acc a,
  0 ≤ n < 10 ^ Z.of_nat fuel →
  ∃ k, scan_digits (dec_digits fuel n acc) a
       = scan_digits acc (a * 10 ^ k + n) ∧ 0 ≤ k.
Proof.
  induction fuel as [| f IH]; intros n acc a Hn.
  { exists 0. simpl in *. split; [| done]. f_equal. lia. }
  cbn [dec_digits].
  pose proof (Z.mod_pos_bound n 10 ltac:(lia)) as Hd.
  destruct (n <? 10) eqn:E.
  - exists 1. split; [| done]. cbn [scan_digits].
    rewrite digit_of_char by done. f_equal.
    rewrite Z.mod_small by lia. lia.
  - assert (Hq : 0 ≤ n / 10 < 10 ^ Z.of_nat f).
    { split; [apply Z.div_pos; lia |].
      apply Z.div_lt_upper_bound; [lia |].
      rewrite Nat2Z.inj_succ, Z.pow_succ_r in Hn by lia. lia. }
    destruct (IH (n / 10) (String (digit_char (n mod 10)) acc) a Hq)
      as (k & Hk & Hk0).
    exists (k + 1). split; [| lia]. rewrite Hk. cbn [scan_digits].
    rewrite digit_of_char by done. f_equal.
    rewrite Z.pow_add_r by lia. pose proof (Z.div_mod n 10). lia.
Qed.

Lemma dec_digits_head fuel : ∀ n acc,
  0 ≤ n →
  ∃ d t, dec_digits (S fuel) n acc = String (digit_char d) t ∧ 0 ≤ d < 10.
Proof.
  induction fuel as [| f IH]; intros n acc Hn.
  - cbn [dec_digits]. exists (n mod 10), acc.
    split; [by destruct (n <? 10) | apply Z.mod_pos_bound; lia].
  - change (dec_digits (S (S f)) n acc)
      with (let acc' := String (digit_char (n mod 10)) acc in
            if n <? 10 then acc' else dec_digits (S f) (n / 10) acc').
    cbv zeta. destruct (n <? 10).
    + exists (n mod 10), acc. split; [done | apply Z.mod_pos_bound; lia].
    + apply IH. apply Z.div_pos; lia.
Qed.

Lemma scan_digits_stops rest a : stops rest → scan_digits rest a = (a, rest).
Proof. destruct rest as [| c t]; [done |]. simpl. by intros ->. Qed.

(** Scanning the numeral of [n] gives [n]. *)
Lemma scan_unsigned_dec bits n rest :
  0 ≤ n < 2 ^ bits → 0 ≤ bits ≤ 64 → stops rest →
  scan_unsigned bits (dec n +:+ rest) = Some (n, rest).
Proof.
  intros Hn Hbits Hstop. rewrite dec_app.
  assert (Hn20 : 0 ≤ n < 10 ^ Z.of_nat 20).
  { split; [lia |]. assert (2 ^ bits ≤ 2 ^ 64) by (apply Z.pow_le_mono_r; lia).
    change (10 ^ Z.of_nat 20) with 100000000000000000000.
    change (2 ^ 64) with 18446744073709551616 in *. lia. }
  destruct (dec_digits_head 19 n rest (proj1 Hn)) as (d & t & Hhead & Hd).
  destruct (scan_dec_digits 20 n rest 0 Hn20) as (k & Hscan & _).
  destruct (digit_char_plain d Hd) as (Hsp & Hminus & Hplus).
  unfold scan_unsigned. rewrite Hhead. cbn [skip_space]. rewrite Hsp.
  assert (Hsign : match String (digit_char d) t with
                  | String "-" t0 => (true, t0)
                  | String "+" t0 => (false, t0)
                  | _ => (false, String (digit_char d) t)
                  end = (false, String (digit_char d) t)).
  { destruct (digit_char d) as [[] [] [] [] [] [] [] []]; try done. }
  rewrite Hsign. rewrite digit_of_char by done.
  rewrite <- Hhead, Hscan. rewrite scan_digits_stops by done.
  simpl Z.add. rewrite Z.mod_small by lia. done.
Qed.

Lemma scan_unsigned_space bits c s :
  is_space c = true → scan_unsigned bits (String c s) = scan_unsigned bits s.
Proof. intros H. unfold scan_unsigned. cbn [skip_space]. by rewrite H. Qed.

Lemma skip_space_dec n rest :
  0 ≤ n → skip_space (dec n +:+ rest) = dec n +:+ rest.
Proof.
  intros Hn. rewrite dec_app.
  destruct (dec_digits_head 19 n rest Hn) as (d & t & -> & Hd).
  destruct (digit_char_plain d Hd) as (Hsp & _). cbn [skip_space].
  by rewrite Hsp.
Qed.

Lemma skip_space_suffix s : ∃ pre, s = pre +:+ skip_space s.
Proof.
  induction s as [| c t [pre IH]]; [by exists EmptyString |].
  simpl. destruct (is_space c).
  - exists (String c pre). by rewrite str_app_cons, <- IH.
  - by exists EmptyString.
Qed.

Lemma stops_space c s : is_space c = true → stops (String c s).
Proof.
  unfold stops, is_space, digit_of. intros H.
  destruct ((48 <=? _) && _) eqn:E; [| done].
  apply andb_prop in E as [E1 E2]. apply Z.leb_le in E1, E2.
  apply orb_prop in H as [H | H].
  - apply Z.eqb_eq in H. lia.
  - apply andb_prop in H as [H1 H2]. apply Z.leb_le in H1, H2. lia.
Qed.

(** *** Scanning the lines of a block map *)

Lemma scan_range_line s e rest :
  0 ≤ s < 2 ^ 64 → 0 ≤ e < 2 ^ 64 →
  scan_fields (widths FmtRange) (ext_line (s, e) +:+ rest)
  = ([s; e], skip_space rest).
Proof.
  intros Hs He. unfold ext_line, widths. cbn [fst snd scan_fields].
  rewrite !str_app_assoc.
  rewrite scan_unsigned_dec; [| done | lia | by apply stops_space].
  change (" " +:+ ?x) with (String " " x).
  rewrite scan_unsigned_space by done.
  rewrite scan_unsigned_dec; [| done | lia | by apply stops_space].
  done.
Qed.

Lemma scan_header_lines size blksize count rest :
  0 ≤ size < 2 ^ 64 → 0 ≤ blksize < 2 ^ 32 → 0 ≤ count < 2 ^ 32 →
  scan_fields (widths FmtHeader)
    (dec size +:+ " " +:+ dec blksize +:+ nl +:+ dec count +:+ nl +:+ rest)
  = ([size; blksize; count], skip_space rest).
Proof.
  intros Hs Hb Hc. unfold widths. cbn [scan_fields].
  rewrite scan_unsigned_dec; [| done | lia | by apply stops_space].
  change (" " +:+ ?x) with (String " " x).
  rewrite scan_unsigned_space by done.
  rewrite scan_unsigned_dec; [| done | lia | by apply stops_space].
  change (nl +:+ ?x) with (String newline x).
  rewrite scan_unsigned_space by done.
  rewrite scan_unsigned_dec; [| done | lia | by apply stops_space].
  done.
Qed.

(** *** Calls whose answer the text and the scripts determine *)

Lemma wp_fgets_text size f w o line rest (Q : option string → World → Prop) :
  os_fds w !! f = Some o → 0 ≤ of_pos o →
  unread o = line +:+ nl +:+ rest →
  has_char newline line = false →
  Z.of_nat (String.length line) < size - 1 →
  (∀ o', unread o' = rest → 0 ≤ of_pos o' →
     Q (Some (line +:+ nl))
       (emit (EvFgets f (Some (line +:+ nl))) (upd_fds (insert f o') w))) →
  wp (fgets size f) w Q.
Proof.
  intros Hf Hpos Hun Hnl Hlen HQ. unfold wp, fgets. rewrite Hf, Hun.
  assert (Hun' : unread o = (line +:+ nl) +:+ rest).
  { by rewrite str_app_assoc. }
  destruct (advance_unread o _ _ Hpos Hun') as [H1 H2].
  destruct (line +:+ nl +:+ rest) as [| c t] eqn:E.
  { by destruct line. }
  rewrite <- E, take_line_text by (done || lia). by apply HQ.
Qed.

Lemma wp_fscanf_text f fmt w o pre rest vals
    (Q : Z * list Z → World → Prop) :
  os_fds w !! f = Some o → 0 ≤ of_pos o →
  unread o = pre +:+ rest →
  scan_fields (widths fmt) (pre +:+ rest) = (vals, skip_space rest) →
  vals ≠ [] →
  (∀ o', unread o' = skip_space rest → 0 ≤ of_pos o' →
     Q (Z.of_nat (length vals), vals)
       (emit (EvFscanf f fmt (Z.of_nat (length vals)) vals)
             (upd_fds (insert f o') w))) →
  wp (fscanf f fmt) w Q.
Proof.
  intros Hf Hpos Hun Hscan Hvals HQ. unfold wp, fscanf.
  rewrite Hf, Hun, Hscan.
  destruct (skip_space_suffix rest) as [pre2 Hpre2].
  assert (Hun' : unread o = (pre +:+ pre2) +:+ skip_space rest).
  { by rewrite str_app_assoc, <- Hpre2. }
  destruct (advance_unread o _ _ Hpos Hun') as [H1 H2].
  destruct vals as [| v vs]; [done |]. by apply HQ.
Qed.

Lemma wp_mmap_granted addr len prot flags fd off w a ms
    (Q : Z → World → Prop) :
  os_mmap_script w = Some a :: ms →
  let place := if has_flag MAP_FIXED flags then addr else a in
  0 < len → 0 < place → place + len ≤ MAP_FAILED →
  (has_flag MAP_FIXED flags = false → is_free a len (os_vm w) = true) →
  Q place
    (emit (EvMmap addr len prot flags fd off place)
          (upd_vm (λ vm, mkRegion place len prot
                                  (if has_flag MAP_ANON flags then None
                                   else Some off)
                         :: (if has_flag MAP_FIXED flags
                             then unmap_range place len vm else vm))
                  (next_mmap w))) →
  wp (mmap addr len prot flags fd off) w Q.
Proof.
  intros Hms place Hlen Hp0 Hp1 Hfree HQ. unfold wp, mmap. rewrite Hms.
  subst place. destruct (has_flag MAP_FIXED flags) eqn:Ef.
  - destruct (_ && _) eqn:E; [done |]. exfalso.
    rewrite orb_true_l, andb_true_r in E.
    repeat (apply andb_false_iff in E as [E | E]); lia.
  - rewrite Hfree by done. destruct (_ && _) eqn:E; [done |]. exfalso.
    rewrite orb_true_r, andb_true_r in E.
    repeat (apply andb_false_iff in E as [E | E]); lia.
Qed.

Lemma wp_alloc_granted ev count w p ps (Q : Z → World → Prop) :
  os_malloc_script w = Some p :: ps → 0 < p → os_heap w !! p = None →
  Q p (emit (ev count p)
            (upd_heap (insert p (replicate (Z.to_nat count) (mkRange 0 0)))
                      (next_malloc w))) →
  wp (alloc_ranges ev count) w Q.
Proof.
  intros Hps Hp Hfree HQ. unfold wp, alloc_ranges. rewrite Hps, Hfree.
  by destruct (0 <? p) eqn:E; [| lia].
Qed.

(** *** The walk over the extent lines of a text *)

Lemma exts_text_cons x t trailing :
  exts_text (x :: t) +:+ trailing = ext_line x +:+ exts_text t +:+ trailing.
Proof. simpl. apply str_app_assoc. Qed.

Lemma skip_space_ext_line x rest :
  0 ≤ x.1 → skip_space (ext_line x +:+ rest) = ext_line x +:+ rest.
Proof.
  intros Hx. unfold ext_line. rewrite !str_app_assoc.
  by apply skip_space_dec.
Qed.

Lemma map_ranges_text mapf fd blksize p trailing ms :
  ∀ exts i next rem w o done todo oks,
  os_fds w !! mapf = Some o → 0 ≤ of_pos o →
  unread o = skip_space (exts_text exts +:+ trailing) →
  os_mmap_script w = map Some oks ++ ms → length oks = length exts →
  os_heap w !! p = Some (done ++ todo) → p ≠ 0 →
  i = Z.of_nat (length done) → length todo = length exts →
  0 < blksize < 2 ^ 32 → Forall good_ext exts →
  bytes blksize exts ≤ rem →
  0 < next → next + rem ≤ MAP_FAILED →
  wp (map_ranges (length exts) mapf fd blksize p i next rem) w (λ res w',
    res = (true, rem - bytes blksize exts)
    ∧ os_trace w' = os_trace w ++ walk_events mapf fd blksize next exts
    ∧ os_heap w' = <[p := done ++ layout blksize next exts]> (os_heap w)
    ∧ os_mmap_script w' = ms
    ∧ os_malloc_script w' = os_malloc_script w
    ∧ ∃ o', os_fds w' = <[mapf := o']> (os_fds w)).
Proof.
  induction exts as [| [s e] t IH];
    intros i next rem w o done todo oks Ho Hpos Hun Hms Hoks Hheap Hp Hi Hlen
           Hblk Hgood Hbytes Hn0 Hn1.
  - destruct todo; [| done]. destruct oks; [| done].
    apply wp_ret. simpl in *. rewrite app_nil_r in Hheap.
    rewrite !app_nil_r, Z.sub_0_r, !insert_id by done.
    repeat split; try done. exists o. by rewrite insert_id.
  - destruct todo as [| t0 todo]; [done |].
    destruct oks as [| a oks]; [done |].
    simpl in Hlen, Hoks.
    apply Forall_cons in Hgood as [[[Hs0 Hse] He] Hgood].
    cbn [fst snd] in Hs0, Hse, He. rewrite bytes_cons in Hbytes.
    change (ext_len blksize (s, e)) with ((e - s) * blksize) in Hbytes.
    pose proof (bytes_nonneg blksize t (proj1 Hblk) Hgood) as Ht.
    assert (Hpos' : 0 < (e - s) * blksize) by nia.
    rewrite exts_text_cons, skip_space_ext_line in Hun by done.
    simpl map_ranges. apply wp_bind.
    eapply (wp_fscanf_text _ _ _ _ (ext_line (s, e)) _ [s; e]);
      [exact Ho | done | exact Hun | apply scan_range_line; lia | done |].
    intros o1 Hun1 Hpos1. cbn [fst snd length Z.of_nat Pos.of_succ_nat
                                 Pos.succ Z.eqb Pos.eqb negb nth].
    assert (Ebad : bad_range s e blksize rem = false).
    { destruct (bad_range s e blksize rem) eqn:E; [| done].
      apply bad_range_iff in E; [| lia | lia | lia].
      destruct E as [E | [E | E]]; [lia | | lia].
      exfalso. apply Z.gt_lt in E. apply Z.lt_nge in E. apply E.
      apply Z.div_le_lower_bound; [lia |].
      unfold SIZE_MAX, MAP_FAILED in *. lia. }
    rewrite Ebad.
    destruct (good_range s e blksize rem) as (_ & Elen & _);
      [lia | lia | lia | done |].
    rewrite Elen.
    apply wp_bind.
    eapply wp_mmap_granted; [wsimpl; exact Hms | lia | done | simpl; lia
                            | done |].
    cbn [has_flag existsb flag_eqb orb].
    destruct (next =? MAP_FAILED) eqn:Emf; [lia |].
    apply wp_bind.
    eapply wp_store_range; wsimpl; [exact Hheap | done | |].
    { rewrite length_app. simpl. lia. }
    eapply wp_mono.
    { eapply (IH _ _ _ _ o1 (done ++ [mkRange next ((e - s) * blksize)])
                 todo oks).
      - wsimpl. apply lookup_insert_eq.
      - done.
      - done.
      - wsimpl. by rewrite Hms.
      - lia.
      - wsimpl. rewrite lookup_insert_eq. f_equal.
        rewrite Hi, Nat2Z.id, insert_app_r_alt by lia.
        rewrite Nat.sub_diag. simpl. by rewrite <- app_assoc.
      - done.
      - rewrite length_app. simpl. lia.
      - lia.
      - done.
      - done.
      - lia.
      - lia.
      - lia. }
    intros res w' (-> & Htr & Hh & Hms' & Hmal & o' & Hfds).
    wsimpl. rewrite bytes_cons.
    change (ext_len blksize (s, e)) with ((e - s) * blksize).
    rewrite Htr, Hh, Hfds, !insert_insert_eq.
    repeat split; try done.
    + f_equal. lia.
    + simpl. by rewrite <- !app_assoc.
    + f_equal. by rewrite <- app_assoc.
    + by exists o'.
Qed.

Lemma header_not_rejected size blksize count :
  0 < size < 2 ^ 64 → 0 < blksize < 2 ^ 32 → 0 < count < 2 ^ 32 →
  ((size - 1) / blksize + 1) * blksize ≤ SIZE_MAX →
  header_rejected size blksize count = false.
Proof.
  intros Hs Hb Hc Htot.
  destruct (header_rejected size blksize count) eqn:E; [| done].
  apply header_rejected_iff in E; [| lia | lia | lia].
  destruct E as [E | [E | [E | E]]]; [lia | lia | lia |].
  exfalso. apply Z.gt_lt in E. apply Z.lt_nge in E. apply E.
  apply Z.div_le_lower_bound; lia.
Qed.

(** [sysMapBlockFile] on a stream at a well-formed header, with a kernel
    that grants the reservation and an allocator that grants the array:
    up to the opening of the device the run is determined. When the device
    does not open ([dnode = None]) the reservation is given back and -1
    returned; when it does and the extents that follow fill the
    reservation, 0 is returned. *)
Lemma sysMapBlockFile_text mapf pMap w o dev size blksize count rest dnode
    reserve p script ps :
  os_fds w !! mapf = Some o → 0 ≤ of_pos o →
  unread o = header_text dev size blksize count +:+ rest →
  os_files w !! dev = dnode →
  has_char newline dev = false → has_char NUL dev = false →
  Z.of_nat (String.length dev) < PATH_MAX →
  0 < size < 2 ^ 64 → 0 < blksize < 2 ^ 32 → 0 < count < 2 ^ 32 →
  let total := ((size - 1) / blksize + 1) * blksize in
  let h := mkHeader (dev +:+ nl) size blksize count in
  os_mmap_script w = Some reserve :: script →
  0 < reserve → reserve + total ≤ MAP_FAILED →
  is_free reserve total (os_vm w) = true →
  os_malloc_script w = Some p :: ps → 0 < p → os_heap w !! p = None →
  (∀ exts trailing oks ms,
     is_Some dnode →
     rest = exts_text exts +:+ trailing → count = Z.of_nat (length exts) →
     Forall good_ext exts → bytes blksize exts = total →
     script = map Some oks ++ ms → length oks = length exts →
     wp (sysMapBlockFile mapf pMap) w (λ res w',
       ∃ fd,
         0 ≤ fd
         ∧ res = (0, mkMap reserve size count p)
         ∧ os_trace w'
           = os_trace w
             ++ block_events mapf (OWalked h p reserve fd exts None)
         ∧ os_heap w' = <[p := layout blksize reserve exts]> (os_heap w)
         ∧ ∃ o', os_fds w' = <[mapf := o']> (os_fds w)))
  ∧ (dnode = None →
     wp (sysMapBlockFile mapf pMap) w (λ res w',
       res = (-1, mkMap (mm_addr pMap) (mm_length pMap) count p)
       ∧ os_trace w' = os_trace w ++ block_events mapf (ONoDevice h p reserve)
       ∧ ∃ o', os_fds w' = <[mapf := o']> (os_fds w))).
Proof.
  intros Ho Hpos Hun Hdev Hnl Hnul Hdevlen Hs Hb Hc total h Hms Hr0 Hr1 Hfree
         Hps Hp0 Hpfree.
  assert (Hmax : total ≤ SIZE_MAX).
  { unfold SIZE_MAX, MAP_FAILED in *. lia. }
  assert (Erej : header_rejected size blksize count = false).
  { apply header_not_rejected; lia. }
  destruct (header_accepted size blksize count (dev +:+ nl))
    as (Hv & Eblocks & Etotal); [lia | lia | lia | done |].
  fold h in Hv, Eblocks, Etotal.
  assert (Htotal : h_total h = total) by done.
  assert (Edev : h_dev h = dev) by (by apply device_name).
  pose proof (valid_header_total h Hv) as Htot0.
  unfold header_text in Hun. rewrite !str_app_assoc in Hun.
  (* the calls up to the opening of the device *)
  assert (Hstart : ∀ (Q : Z * MemMapping → World → Prop),
    (∀ w1 o2,
       os_trace w1
       = os_trace w ++ header_events mapf h
         ++ [EvCalloc count p; reserve_event h reserve] →
       os_fds w1 = <[mapf := o2]> (os_fds w) →
       unread o2 = skip_space rest → 0 ≤ of_pos o2 →
       os_heap w1
       = <[p := replicate (Z.to_nat count) (mkRange 0 0)]> (os_heap w) →
       os_files w1 = os_files w →
       os_mmap_script w1 = script →
       wp (fd <- open (Some dev) ;;
           if fd <? 0 then
             LOG (LogOpenBlockDevFailed dev) ;;
             munmap reserve (h_total h) ;;
             free p ;;
             ret (-1, mkMap (mm_addr pMap) (mm_length pMap) count p)
           else
             lp <- map_ranges (Z.to_nat count) mapf fd blksize p 0 reserve
                              (h_total h) ;;
             success <- (if fst lp && negb (snd lp =? 0) then
                           LOG (LogRangesInvalid (snd lp)) ;; ret false
                         else ret (fst lp)) ;;
             if negb success then
               close fd ;;
               munmap reserve (h_total h) ;;
               free p ;;
               ret (-1, mkMap (mm_addr pMap) (mm_length pMap) count p)
             else
               close fd ;;
               LOG (LogMmappedRanges count) ;;
               ret (0, mkMap reserve size count p)) w1 Q) →
    wp (sysMapBlockFile mapf pMap) w Q).
  { intros Q HQ. unfold sysMapBlockFile. apply wp_bind.
    eapply (wp_fgets_text _ _ _ _ dev);
      [exact Ho | done | exact Hun | done | unfold PATH_MAX in *; lia |].
    intros o1 Hun1 Hpos1. cbv iota beta.
    rewrite device_name by done.
    apply wp_bind.
    eapply (wp_fscanf_text _ _ _ _
              (dec size +:+ " " +:+ dec blksize +:+ nl +:+ dec count +:+ nl)
              rest [size; blksize; count]);
      [wsimpl; apply lookup_insert_eq | done
      | by rewrite Hun1, !str_app_assoc
      | rewrite !str_app_assoc; apply scan_header_lines; lia
      | done |].
    intros o2 Hun2 Hpos2.
    cbn [fst snd length Z.of_nat Pos.of_succ_nat Pos.succ Z.eqb Pos.eqb negb
         nth].
    change ((size =? 0) || (blksize =? 0)
            || ((if negb (blksize =? 0)
                 then to_size_t (to_size_t (size - 1) / blksize + 1)
                 else 0) >? SIZE_MAX / blksize)
            || (count =? 0)) with (header_rejected size blksize count).
    rewrite Erej, Eblocks, Etotal.
    apply wp_bind. unfold calloc_ranges.
    eapply wp_alloc_granted; [wsimpl; exact Hps | done | wsimpl; done |].
    cbn [mm_ranges mm_addr mm_length mm_range_count].
    destruct (p =? 0) eqn:Ep; [lia |]. clear Ep.
    apply wp_bind.
    eapply wp_mmap_granted;
      [wsimpl; exact Hms | lia | done | simpl; lia
      | intros _; wsimpl; by rewrite Htotal |].
    cbn [has_flag existsb flag_eqb orb]. wsimpl.
    destruct (reserve =? MAP_FAILED) eqn:Er; [lia |]. clear Er.
    apply (HQ _ o2); wsimpl; try done.
    - by rewrite <- !app_assoc.
    - by rewrite insert_insert_eq.
    - by rewrite Hms. }
  split.
  - (* the device opens *)
    intros exts trailing oks ms [node Hnode] -> -> Hgood Hbytes -> Hoks.
    apply Hstart. intros w1 o2 Htr1 Hfds1 Hun2 Hpos2 Hheap1 Hfiles1 Hms1.
    apply wp_bind, wp_open; cycle 1.
    { simpl. by rewrite Hfiles1, Hdev, Hnode. }
    intros fd node' Hfd _. wsimpl.
    pose proof (fresh_fd_nonneg (os_fds w1)) as Hfd0.
    pose proof (fresh_fd_fresh (os_fds w1)) as Hfdf.
    rewrite <- Hfd in Hfd0, Hfdf. rewrite Hfds1 in Hfdf.
    assert (Hne : fd ≠ mapf).
    { intros ->. by rewrite lookup_insert_eq in Hfdf. }
    destruct (fd <? 0) eqn:Efd; [lia |]. clear Efd.
    rewrite Nat2Z.id in *.
    apply wp_bind. eapply wp_mono.
    { eapply (map_ranges_text mapf fd blksize p trailing ms exts 0 reserve
                (h_total h) _ o2 [] (replicate (length exts) (mkRange 0 0))
                oks);
        wsimpl; try done; try lia.
      - rewrite Hfds1. rewrite lookup_insert_ne by done.
        apply lookup_insert_eq.
      - rewrite Hheap1. apply lookup_insert_eq.
      - apply length_replicate. }
    intros res w' (-> & Htr & Hh & Hms' & Hmal & o' & Hfds).
    wsimpl. cbn [fst snd].
    rewrite Htotal, Hbytes, Z.sub_diag. cbn [Z.eqb negb andb].
    apply wp_bind, wp_ret. cbn [negb].
    apply wp_bind, wp_close. apply wp_bind, wp_LOG, wp_ret.
    exists fd. wsimpl. rewrite Htr, Hh, Hfds, Htr1, Hheap1, Hfds1.
    rewrite !insert_insert_eq.
    split; [done |]. split; [done |]. split.
    { unfold block_events.
      cbn [h_size h_blksize h_count h_line h stop_events].
      rewrite Edev, Htotal, Hbytes, Z.eqb_refl.
      by rewrite <- !app_assoc. }
    split; [done |].
    exists o'. by apply fds_restore.
  - (* the device does not open *)
    intros ->. apply Hstart.
    intros w1 o2 Htr1 Hfds1 Hun2 Hpos2 Hheap1 Hfiles1 Hms1.
    apply wp_bind, wp_open.
    { intros fd node' _ Hnode. simpl in Hnode.
      rewrite Hfiles1, Hdev in Hnode. done. }
    intros _. cbn [Z.ltb Z.compare]. apply wp_bind, wp_LOG.
    apply wp_bind, wp_munmap; [intros _ | lia].
    apply wp_bind.
    eapply wp_free; [wsimpl; rewrite Hheap1; apply lookup_insert_eq | lia |].
    apply wp_ret. wsimpl. rewrite Htr1, Hfds1.
    split; [done |]. split; [| by exists o2].
    unfold block_events. rewrite Edev, <- !app_assoc. done.
Qed.



(** X17: a block map with a well-formed header whose device does not open: the
    range array is allocated and the address space reserved before the
    device is tried, and both are given back - one [munmap] of the whole
    reservation, one [free] - before [sysMapFile] returns -1; no extent
    line is read. The handle comes back with the extent count and the
    address of the freed array. *)
Theorem missing_device_unwinds (fn1 dev : string) (size blksize count : Z)
    (rest : string) (pMap : MemMapping) (w : World) (reserve p : Z)
    (ms ps : list (option Z)) :
  os_files w !! fn1
  = Some (RegularFile (header_text dev size blksize count +:+ rest)) →
  os_files w !! dev = None →
  has_char newline dev = false → has_char NUL dev = false →
  Z.of_nat (String.length dev) < PATH_MAX →
  0 < size < 2 ^ 64 → 0 < blksize < 2 ^ 32 → 0 < count < 2 ^ 32 →
  os_mmap_script w = Some reserve :: ms →
  0 < reserve →
  reserve + ((size - 1) / blksize + 1) * blksize ≤ MAP_FAILED →
  is_free reserve (((size - 1) / blksize + 1) * blksize) (os_vm w) = true →
  os_malloc_script w = Some p :: ps → 0 < p → os_heap w !! p = None →
  ∃ w' mapf,
    sysMapFile (Some ("@" +:+ fn1)) pMap w = Ok (-1, mkMap 0 0 count p) w'
    ∧ os_trace w'
      = os_trace w
        ++ [EvFopen fn1 (Some mapf); EvFgets mapf (Some (dev +:+ nl));
            EvFscanf mapf FmtHeader 3 [size; blksize; count];
            EvCalloc count p;
            EvMmap 0 (((size - 1) / blksize + 1) * blksize) PROT_NONE
                   [MAP_PRIVATE; MAP_ANON] (-1) 0 reserve;
            EvOpen (Some dev) (-1); EvLog (LogOpenBlockDevFailed dev);
            EvMunmap reserve (((size - 1) / blksize + 1) * blksize) 0;
            EvFree p; EvLog (LogMapOfFailed (Some ("@" +:+ fn1)));
            EvFclose mapf]
    ∧ os_vm w' = os_vm w ∧ os_heap w' = os_heap w ∧ os_fds w' = os_fds w.
Proof.
  intros Hfile Hdev Hnl Hnul Hdevlen Hs Hb Hc Hms Hr0 Hr1 Hfree Hps Hp0 Hpfree.
  set (h := mkHeader (dev +:+ nl) size blksize count).
  set (fn := Some ("@" +:+ fn1)).
  assert (Hwp : wp (sysMapFile fn pMap) w (λ res w',
    ∃ mapf,
      res = (-1, mkMap 0 0 count p)
      ∧ os_trace w'
        = os_trace w
          ++ run_events fn (RBlock fn1 mapf (ONoDevice h p reserve)))).
  { unfold sysMapFile.
    change (block_map_name fn) with (Some fn1). cbv iota beta.
    apply wp_bind, wp_fopen; [| intros Hnone; congruence].
    intros mapf node0 Hmapf Hnode. rewrite Hfile in Hnode.
    injection Hnode as <-.
    set (o := mkOpen (RegularFile
                        (header_text dev size blksize count +:+ rest)) 0).
    edestruct (sysMapBlockFile_text mapf zeroed
                 (emit (EvFopen fn1 (Some mapf))
                       (upd_fds (insert mapf o) w))
                 o dev size blksize count rest None reserve p ms ps)
      as [_ Hno];
      [wsimpl; apply lookup_insert_eq | done | done
      | wsimpl; exact Hdev | done | done | done | done | done | done
      | wsimpl; exact Hms | done | done
      | wsimpl; done | wsimpl; exact Hps | done
      | wsimpl; done |].
    apply wp_bind. eapply wp_mono; [by apply Hno |].
    intros res w1 (-> & Htr & (o' & Hfds)).
    cbn [fst snd Z.eqb negb].
    apply wp_bind, wp_LOG.
    apply wp_bind, wp_fclose;
      [wsimpl; rewrite Hfds; wsimpl; rewrite lookup_insert_eq; by eexists |].
    apply wp_ret. exists mapf. wsimpl. rewrite Htr. wsimpl.
    split; [done |]. cbn [run_events block_ret Z.eqb negb].
    by rewrite <- !app_assoc. }
  destruct (wp_returns _ _ _ Hwp) as (res & w' & Hrun & mapf & -> & Htr).
  exists w', mapf. split; [done |]. split.
  - rewrite Htr. f_equal. cbn [run_events block_events block_ret Z.eqb negb].
    unfold header_events, reserve_event.
    assert (Edev : h_dev h = dev) by (by apply device_name).
    rewrite Edev. done.
  - by destruct (failure_restores _ _ _ _ _ Hrun) as (_ & ? & ? & ? & _).
Qed.

Lemma missing_device_witness :
  ∃ w' mapf,
    sysMapFile (Some "@/cache/block.map") zeroed
      (demo_world no_device_map [Some 4096] [Some 64])
    = Ok (-1, mkMap 0 0 2 64) w'
    ∧ os_trace w' =
        [EvFopen "/cache/block.map" (Some mapf);
         EvFgets mapf (Some ("/dev/block/none" +:+ nl));
         EvFscanf mapf FmtHeader 3 [100; 10; 2]; EvCalloc 2 64;
         EvMmap 0 100 PROT_NONE [MAP_PRIVATE; MAP_ANON] (-1) 0 4096;
         EvOpen (Some "/dev/block/none") (-1);
         EvLog (LogOpenBlockDevFailed "/dev/block/none");
         EvMunmap 4096 100 0; EvFree 64;
         EvLog (LogMapOfFailed (Some "@/cache/block.map")); EvFclose mapf]
    ∧ os_vm w' = [] ∧ os_heap w' = ∅ ∧ os_fds w' = ∅.
Proof.
  destruct (missing_device_unwinds "/cache/block.map" "/dev/block/none"
              100 10 2 ("0 5" +:+ nl +:+ "5 10" +:+ nl) zeroed
              (demo_world no_device_map [Some 4096] [Some 64]) 4096 64 [] [])
    as (w' & mapf & H1 & H2 & H3 & H4 & H5);
    [reflexivity | reflexivity | reflexivity | reflexivity | by vm_compute
    | by vm_compute | by vm_compute | by vm_compute
    | reflexivity | lia | by vm_compute | reflexivity | reflexivity | lia
    | reflexivity |].
  exists w', mapf. by repeat (split; [done |]).
Defined.

Lemma scan_to_equals_value key rest :
  has_char "=" key = false → has_char newline key = false →
  scan_to_equals (key +:+ String "=" rest) = Some (String "=" rest).
Proof.
  induction key as [| c t IH]; intros He Hn; [done |].
  rewrite str_app_cons. simpl in *.
  apply orb_false_iff in He as [He1 He2].
  apply orb_false_iff in Hn as [Hn1 Hn2].
  rewrite He1, Hn1. by apply IH.
Qed.

Lemma scan_to_equals_none key :
  has_char "=" key = false → has_char newline key = false →
  scan_to_equals key = None.
Proof.
  induction key as [| c t IH]; intros He Hn; [done |]. simpl in *.
  apply orb_false_iff in He as [He1 He2].
  apply orb_false_iff in Hn as [Hn1 Hn2].
  rewrite He1, Hn1. by apply IH.
Qed.

Lemma deref_head s c : deref s = c → c ≠ NUL → ∃ t, s = String c t.
Proof. destruct s as [| a t]; simpl; intros <- H; [done | by eexists]. Qed.

(** The two tests on leading dashes take off the dashes of an argument that
    has at most two, and count them off its length. *)
Lemma strip_dashes d key :
  dashes d → deref key ≠ "-"%char →
  strip_dash (strip_dash (d +:+ key, Z.of_nat (String.length (d +:+ key))))
  = (key, Z.of_nat (String.length key)).
Proof.
  intros [-> | [-> | ->]] Hkey; rewrite ?str_app_cons, ?str_app_nil;
    unfold strip_dash; cbn [fst snd deref next_char String.length];
    apply Ascii.eqb_neq in Hkey; rewrite ?Hkey; cbn [fst snd deref next_char];
    rewrite ?Hkey; try done.
  - change (Ascii.eqb "-" "-") with true. cbn [fst snd deref next_char].
    rewrite Hkey. f_equal. lia.
  - change (Ascii.eqb "-" "-") with true. cbn [fst snd deref next_char].
    change (Ascii.eqb "-" "-") with true. cbn [fst snd deref next_char].
    f_equal. lia.
Qed.

(** An argument whose first letter after the dashes is not [p] is not the
    Rescue Party trigger. *)
Lemma not_rescue_party d key :
  dashes d → deref key ≠ "p"%char → deref key ≠ "-"%char →
  String.eqb (d +:+ key) "--prompt_and_wipe_data" = false.
Proof.
  intros Hd Hp Hdash. apply String.eqb_neq. intros E.
  destruct key as [| c t].
  - destruct Hd as [-> | [-> | ->]]; done.
  - simpl in Hp, Hdash.
    destruct Hd as [-> | [-> | ->]]; rewrite ?str_app_cons, ?str_app_nil in E;
      injection E; intros; subst; done.
Qed.

(** X18: an argument [u...=path] (as [--update_package=/sdcard/rom.zip]): the
    text after the first ['='] is queued as the script command
    ["install path"]; processing goes on when the command is accepted and
    stops when it is not. *)
Theorem update_package_queues_install (d key path : string) (st : Startup) :
  dashes d → deref key = "u"%char →
  has_char "=" key = false → has_char newline key = false →
  deref path ≠ NUL → deref path ≠ "="%char →
  startup_argument (d +:+ key +:+ "=" +:+ path) st
  = insert_or_break ("install " +:+ path)
      (out (BPrintf (" '" +:+ (d +:+ key +:+ "=" +:+ path) +:+ "'")) st).
Proof.
  intros Hd Hu He Hn Hnul Heq. unfold startup_argument.
  destruct (deref_head key "u" Hu ltac:(done)) as [k ->].
  assert (Harg : d +:+ String "u" k +:+ "=" +:+ path
                 = d +:+ (String "u" k +:+ String "=" path)) by done.
  rewrite Harg, not_rescue_party by done.
  rewrite strip_dashes by done. cbn [fst snd].
  rewrite str_app_cons. cbn [deref].
  change (Ascii.eqb "u" "u") with true. cbv iota.
  rewrite <- str_app_cons, scan_to_equals_value by done.
  cbn [skip_equals]. change (Ascii.eqb "=" "=") with true. cbv iota.
  assert (Hskip : skip_equals path = path).
  { destruct path as [| c t]; [done |]. simpl in *.
    apply Ascii.eqb_neq in Heq. by rewrite Heq. }
  rewrite Hskip. apply Ascii.eqb_neq in Hnul. by rewrite Hnul.
Qed.

Lemma update_package_witness :
  startup_argument "--update_package=/sdcard/rom.zip" (fresh_start [true])
  = Next (mkStartup false "" []
            [BPrintf " '--update_package=/sdcard/rom.zip'";
             BInsertORS "install /sdcard/rom.zip" true]).
Proof.
  refine (eq_trans
            (update_package_queues_install "--" "update_package"
               "/sdcard/rom.zip" (fresh_start [true]) _ _ _ _ _ _) _);
    [by right; right | reflexivity | reflexivity | reflexivity
    | done | done | reflexivity].
Defined.

(** X19: an argument whose first letter after the dashes is [u] and that holds
    neither ['='] nor a newline (as [--update_package] without a value):
    the scan for the ['='] runs past the end of the argument, which is
    undefined behaviour, and so is the whole loop from there. *)
Theorem update_without_value_is_undefined (d key : string) (st : Startup)
    (rest : list string) :
  dashes d → deref key = "u"%char →
  has_char "=" key = false → has_char newline key = false →
  startup_argument (d +:+ key) st = Undefined
  ∧ startup_loop ((d +:+ key) :: rest) st = None.
Proof.
  intros Hd Hu He Hn.
  assert (H : startup_argument (d +:+ key) st = Undefined).
  { unfold startup_argument.
    destruct (deref_head key "u" Hu ltac:(done)) as [k ->].
    rewrite not_rescue_party, strip_dashes by done. cbn [fst snd deref].
    change (Ascii.eqb "u" "u") with true. cbv iota.
    by rewrite scan_to_equals_none. }
  split; [done |]. simpl. by rewrite H.
Qed.

Lemma update_without_value_witness :
  startup_argument "--update_package" (fresh_start [true]) = Undefined
  ∧ startup_loop ["--update_package"; "--wipe_cache"] (fresh_start [true])
    = None.
Proof.
  apply (update_without_value_is_undefined "--" "update_package"
           (fresh_start [true]) ["--wipe_cache"]);
    [by right; right | reflexivity | reflexivity | reflexivity].
Defined.

(** X20: an argument whose first letter after the dashes is [w] is told apart by
    its length alone: nine characters queue ["wipe data"], ten queue
    ["wipe cache"], any other length does nothing; the rest of its text is
    not looked at. *)
Theorem wipe_is_chosen_by_length (d key : string) (st : Startup) :
  dashes d → deref key = "w"%char →
  startup_argument (d +:+ key) st
  = let st' := out (BPrintf (" '" +:+ (d +:+ key) +:+ "'")) st in
    if (String.length key =? 9)%nat
    then insert_or_break ("wipe data" +:+ nl) st'
    else if (String.length key =? 10)%nat
         then insert_or_break ("wipe cache" +:+ nl) st'
         else Next st'.
Proof.
  intros Hd Hw. unfold startup_argument.
  destruct (deref_head key "w" Hw ltac:(done)) as [k ->].
  rewrite not_rescue_party, strip_dashes by done. cbn [fst snd deref].
  change (Ascii.eqb "w" "u") with false.
  change (Ascii.eqb "w" "w") with true. cbv iota zeta.
  set (n := String.length (String "w" k)).
  destruct (n =? 9)%nat eqn:E9.
  { apply Nat.eqb_eq in E9. rewrite E9. done. }
  apply Nat.eqb_neq in E9.
  destruct (Z.of_nat n =? 9) eqn:E9'; [lia |].
  destruct (n =? 10)%nat eqn:E10.
  { apply Nat.eqb_eq in E10. rewrite E10. done. }
  apply Nat.eqb_neq in E10.
  by destruct (Z.of_nat n =? 10) eqn:E10'; [lia |].
Qed.

Lemma wipe_by_length_witness :
  startup_argument "--wallpaper" (fresh_start [true])
  = Next (mkStartup false "" []
            [BPrintf " '--wallpaper'"; BInsertORS ("wipe data" +:+ nl) true]).
Proof.
  refine (eq_trans
            (wipe_is_chosen_by_length "--" "wallpaper" (fresh_start [true])
               _ _) _);
    [by right; right | reflexivity | reflexivity].
Defined.

(** X21: [send_intent]: of the text that follows the name and one more
    character, only the first character is kept as the intent; the bare
    name, with nothing after it, makes the read fall past the end of the
    argument (undefined behaviour). *)
Theorem send_intent_keeps_one_character (d v : string) (c : ascii)
    (st : Startup) :
  dashes d →
  startup_argument (d +:+ "send_intent" +:+ String c v) st
  = Next (mkStartup (su_shutdown st) (String (deref v) EmptyString)
            (su_ors_script st)
            (su_out st
             ++ [BPrintf (" '" +:+ (d +:+ "send_intent" +:+ String c v)
                          +:+ "'")]))
  ∧ startup_argument (d +:+ "send_intent") st = Undefined.
Proof.
  intros Hd. split; unfold startup_argument.
  - change ("send_intent" +:+ String c v)
      with (String "s" ("end_intent" +:+ String c v)).
    rewrite not_rescue_party, strip_dashes by done.
    by destruct v.
  - rewrite not_rescue_party, strip_dashes by done. done.
Qed.

Lemma send_intent_witness :
  startup_argument "--send_intent=reboot" (fresh_start [])
  = Next (mkStartup false "r" [] [BPrintf " '--send_intent=reboot'"])
  ∧ startup_argument "--send_intent" (fresh_start []) = Undefined.
Proof.
  apply (send_intent_keeps_one_character "--" "reboot" "=" (fresh_start [])).
  by right; right.
Defined.
